(** * ai-coding-agent: turn executor, session store and multi-agent orchestrator

    A shallow embedding of

      - [providers/base.py]          (messages, tool calls, provider interface),
      - [tools/registry.py]          ([ToolRegistry.execute]),
      - [agent/core.py]              ([CodingAgent], the turn executor),
      - [agent/session.py]           ([SessionManager], persistence and compaction),
      - [orchestrator/async_executor.py] ([AsyncOrchestrator]),

    followed by the properties of the design document that concern them.

    Conventions.  Python [int] is [Z]; [len] is [length] (a [nat], injected
    into [Z] where the source does arithmetic on it); [str] is [string],
    one [ascii] standing for one character; [Optional[T]] is [option T];
    a raised exception is the left injection of a sum and carries [str(e)].
    The outside world (the model behind a provider, the file system a tool
    touches, the user who answers a confirmation prompt) is an abstract
    state [World] threaded through every call that can observe or change
    it, so providers and tools may be stateful. *)

From Stdlib Require Import ZArith String Ascii DecimalString Lia.
From stdpp Require Import gmap strings list fin_maps.

(** ** Python values and strings *)

(** [str(e)] of a raised exception. *)
Definition Exception : Type := string.

(** A value of a [Dict[str, Any]] as the code here uses them: text or an
    integer. *)
Inductive PyValue : Type :=
| PStr (s : string)
| PInt (z : Z).

Definition nl : string := String "010"%char EmptyString.

(** [str(n)] for a length. *)
Definition str_of_nat (n : nat) : string :=
  NilZero.string_of_uint (Nat.to_uint n).

(** [str(o)] where [o] is [None] or a string (as an f-string prints it). *)
Definition str_of_optional (o : option string) : string :=
  match o with
  | Some s => s
  | None => "None"
  end.

(** [s[:n]] *)
Definition str_prefix (n : nat) (s : string) : string := String.substring 0 n s.

(** [sep.join(parts)] *)
Definition str_join (sep : string) (parts : list string) : string :=
  String.concat sep parts.

(** [l.insert(i, x)] for [0 <= i]: past the end it appends. *)
Definition list_insert_at {A : Type} (i : nat) (x : A) (l : list A) : list A :=
  take i l ++ x :: drop i l.

(** Truth value of a list: [if l:] *)
Definition nonempty {A : Type} (l : list A) : bool :=
  match l with
  | [] => false
  | _ :: _ => true
  end.

(** Truth value of a string: [if s:] *)
Definition nonempty_str (s : string) : bool :=
  match s with
  | EmptyString => false
  | String _ _ => true
  end.

(** ** providers/base.py *)

(** [Dict[str, Any]] of tool arguments, values kept as text. *)
Definition Arguments : Type := list (string * string).

Record ToolCall : Type := mkToolCall {
  tc_id : string;
  tc_name : string;
  tc_arguments : Arguments;
}.

(** [Message]; the dictionaries of [tool_calls] have exactly the keys of a
    [ToolCall] and are kept as such. *)
Record Message : Type := mkMessage {
  msg_role : string;
  msg_content : string;
  msg_name : option string;
  msg_tool_calls : option (list ToolCall);
  msg_tool_call_id : option string;
}.

(** [Message(role=r, content=c)] *)
Definition plain_message (r c : string) : Message :=
  mkMessage r c None None None.

Definition is_system (m : Message) : bool := String.eqb (msg_role m) "system".

Record CompletionResponse : Type := mkCompletionResponse {
  resp_content : string;
  resp_tool_calls : list ToolCall;
  resp_finish_reason : string;
}.

Record StreamChunk : Type := mkStreamChunk {
  chunk_content : string;
  chunk_tool_calls : list ToolCall;
  chunk_finish_reason : option string;
}.

(** [BaseProvider]: the two abstract completion operations.  [complete]
    returns a response or raises; [stream] is the finite sequence of items
    the asynchronous iterator produces, an item being a chunk or the
    exception raised in its place.  The [tools] and [temperature]
    arguments are fixed per agent and are part of the provider here. *)
Record BaseProvider (World : Type) : Type := mkProvider {
  complete : World -> list Message -> World * (Exception + CompletionResponse);
  stream : World -> list Message -> World * list (Exception + StreamChunk);
}.
Arguments complete {World} _ _ _.
Arguments stream {World} _ _ _.

(** ** agent/session.py: sessions and compaction *)

Record SessionMetadata : Type := mkSessionMetadata {
  meta_id : string;
  meta_created_at : string;
  meta_updated_at : string;
  meta_provider : string;
  meta_model : string;
  meta_title : string;
  meta_message_count : Z;
  meta_total_tokens : Z;
}.

Record Session : Type := mkSession {
  session_metadata : SessionMetadata;
  session_messages : list Message;
  session_context : gmap string PyValue;
}.

Module Compaction.

(** The [for msg in messages] loop of [compact_session].  [n] is
    [len(messages)] of the whole list, [msgs] what is left to visit. *)
Fixpoint partition_loop (keep_system : bool) (keep_last_n : Z) (n : nat)
    (msgs new_messages removed_messages : list Message)
    : list Message * list Message :=
  match msgs with
  | [] => (new_messages, removed_messages)
  | msg :: rest =>
      if is_system msg && keep_system then
        partition_loop keep_system keep_last_n n rest
          (new_messages ++ [msg]) removed_messages
      else if (Z.of_nat n - Z.of_nat (length removed_messages) - 1 <? keep_last_n)%Z then
        partition_loop keep_system keep_last_n n rest
          (new_messages ++ [msg]) removed_messages
      else
        partition_loop keep_system keep_last_n n rest
          new_messages (removed_messages ++ [msg])
  end.

(** [(new_messages, removed_messages)] when the loop ends. *)
Definition partition_messages (keep_system : bool) (keep_last_n : Z)
    (messages : list Message) : list Message * list Message :=
  partition_loop keep_system keep_last_n (length messages) messages [] [].

(** The retained history before a summary is inserted. *)
Definition retained (keep_system : bool) (keep_last_n : Z)
    (messages : list Message) : list Message :=
  (partition_messages keep_system keep_last_n messages).1.

Definition removed (keep_system : bool) (keep_last_n : Z)
    (messages : list Message) : list Message :=
  (partition_messages keep_system keep_last_n messages).2.

(** [summary_parts] *)
Fixpoint summary_parts (removed_messages : list Message) : list string :=
  match removed_messages with
  | [] => []
  | msg :: rest =>
      if String.eqb (msg_role msg) "user" then
        ("User asked: " +:+ str_prefix 100 (msg_content msg) +:+ "...")
          :: summary_parts rest
      else if String.eqb (msg_role msg) "assistant" then
        ("Assistant: " +:+ str_prefix 100 (msg_content msg) +:+ "...")
          :: summary_parts rest
      else summary_parts rest
  end.

Definition summary_msg (removed_messages : list Message) : Message :=
  plain_message "system"
    ("[Previous conversation summary ("
       +:+ str_of_nat (length removed_messages) +:+ " messages)]" +:+ nl
       +:+ str_join nl (take 5 (summary_parts removed_messages))).

(** [1 if new_messages and new_messages[0].role == "system" else 0] *)
Definition insert_idx (new_messages : list Message) : nat :=
  match new_messages with
  | m :: _ => if is_system m then 1 else 0
  | [] => 0
  end.

(** [new_messages] as assigned to [session.messages]. *)
Definition compacted_messages (keep_system : bool) (keep_last_n : Z)
    (summarize : bool) (messages : list Message) : list Message :=
  let '(new_messages, removed_messages) :=
    partition_messages keep_system keep_last_n messages in
  if summarize && nonempty removed_messages then
    list_insert_at (insert_idx new_messages) (summary_msg removed_messages)
      new_messages
  else new_messages.


(** [compact_session]; [now] is [datetime.now().isoformat()] at the call.
    The source updates the session object in place and returns it. *)
Definition compact_session (now : string) (session : Session)
    (keep_system : bool) (keep_last_n : Z) (summarize : bool) : Session :=
  let messages := session_messages session in
  if (Z.of_nat (length messages) <=? keep_last_n)%Z then session
  else
    mkSession (session_metadata session)
      (compacted_messages keep_system keep_last_n summarize messages)
      (<["removed_messages" :=
           PInt (Z.of_nat (length (removed keep_system keep_last_n messages)))]>
         (<["compacted_at" := PStr now]> (session_context session))).

(** [estimate_tokens]; [str(msg.tool_calls)] is the [repr] of a list of
    dictionaries, taken as a parameter. *)
Definition estimate_tokens (repr_tool_calls : list ToolCall -> string)
    (messages : list Message) : Z :=
  foldl (fun total msg =>
           let total := (total + Z.of_nat (String.length (msg_content msg)) / 4)%Z in
           match msg_tool_calls msg with
           | Some (tc :: tcs) =>
               (total + Z.of_nat (String.length (repr_tool_calls (tc :: tcs))) / 4)%Z
           | _ => total
           end) 0%Z messages.

End Compaction.


(** ** agent/session.py: the session manager and its files *)

Module SessionManager.

(** The files under [storage_dir], by path.  A session file holds the JSON
    text of [Session.to_dict()], which [Session.from_dict] reads back; it
    is kept here as the session it encodes. *)
Abbreviation Disk := (gmap string Session).

(** The manager object: [storage_dir], [max_tokens] and the in-memory
    cache [_sessions].  The cache of the source holds the session objects
    themselves; here it holds their value when they were stored, and no
    property below reads the cached contents.  [compact_threshold] is a
    float used by [should_compact] only and is left out. *)
Record t : Type := mk {
  storage_dir : string;
  max_tokens : Z;
  _sessions : gmap string Session;
}.

(** [__init__]: the cache starts empty. *)
Definition init (dir : string) (max_tok : Z) : t := mk dir max_tok ∅.

Definition with_sessions (m : t) (c : gmap string Session) : t :=
  mk (storage_dir m) (max_tokens m) c.

(** [self.storage_dir / f"{session_id}.json"] *)
Definition _get_session_path (m : t) (session_id : string) : string :=
  storage_dir m +:+ "/" +:+ session_id +:+ ".json".

(** [create]; [now] is the time stamp and [session_id] the value of
    [_generate_id()] (a hash of the time and of the object's address). *)
Definition create (m : t) (now session_id provider model title : string)
    : t * Session :=
  let metadata :=
    mkSessionMetadata session_id now now provider model
      (if nonempty_str title then title
       else "Session " +:+ str_prefix 6 session_id) 0 0 in
  let session := mkSession metadata [] ∅ in
  (with_sessions m (<[session_id := session]> (_sessions m)), session).

(** [save] *)
Definition save (m : t) (disk : Disk) (now : string) (session : Session)
    : t * Disk * string :=
  let md := session_metadata session in
  let md' :=
    mkSessionMetadata (meta_id md) (meta_created_at md) now
      (meta_provider md) (meta_model md) (meta_title md)
      (Z.of_nat (length (session_messages session))) (meta_total_tokens md) in
  let session' :=
    mkSession md' (session_messages session) (session_context session) in
  let session_path := _get_session_path m (meta_id md') in
  (with_sessions m (<[meta_id md' := session']> (_sessions m)),
   <[session_path := session']> disk,
   session_path).

(** [load] *)
Definition load (m : t) (disk : Disk) (session_id : string)
    : t * option Session :=
  match disk !! _get_session_path m session_id with
  | None => (m, None)
  | Some session =>
      (with_sessions m (<[session_id := session]> (_sessions m)), Some session)
  end.

(** [get] *)
Definition get (m : t) (disk : Disk) (session_id : string)
    : t * option Session :=
  match _sessions m !! session_id with
  | Some session => (m, Some session)
  | None =>
      match disk !! _get_session_path m session_id with
      | Some _ => load m disk session_id
      | None => (m, None)
      end
  end.

(** [delete]: the manager and the disk afterwards, and the returned flag. *)
Definition delete (m : t) (disk : Disk) (session_id : string)
    : t * Disk * bool :=
  let session_path := _get_session_path m session_id in
  let disk' :=
    match disk !! session_path with
    | Some _ => base.delete session_path disk
    | None => disk
    end in
  match _sessions m !! session_id with
  | Some _ =>
      (with_sessions m (base.delete session_id (_sessions m)), disk', true)
  | None => (m, disk', false)
  end.

End SessionManager.

(** ** tools/registry.py *)

(** [ToolResult].  [output] is annotated [str] and is text here.
    [execute] does not enforce the annotation: a handler may return a
    dictionary or a [ToolResult] whose output is some other object, and
    [_execute_tools] then fails when it slices that output for its status
    line, after the tool message has been appended.  Handlers that return
    such output are outside this model. *)
Record ToolResult : Type := mkToolResult {
  tr_success : bool;
  tr_output : string;
  tr_error : option string;
}.

(** What a tool handler may return, as [execute] tells the cases apart: a
    [ToolResult], a string, a dictionary (its entries ["success"],
    ["output"], ["error"] if present, and its [str]), or any other object
    (its [str]). *)
Inductive HandlerReturn : Type :=
| RetToolResult (r : ToolResult)
| RetStr (s : string)
| RetDict (success : option bool) (output error : option string) (repr : string)
| RetOther (repr : string).

(** How a call of a tool handler ends: it returns, it raises an exception
    that the [except Exception] of [execute] catches, or it raises one
    that this clause does not catch ([SystemExit], [KeyboardInterrupt],
    [asyncio.CancelledError]). *)
Inductive HandlerOutcome : Type :=
| Returns (ret : HandlerReturn)
| RaisesException (e : Exception)
| RaisesBaseException (e : Exception).

Section Registry.
Context {World : Type}.

Record ToolDefinition : Type := mkToolDefinition {
  tool_name : string;
  tool_requires_confirmation : bool;
  tool_handler : World -> Arguments -> World * HandlerOutcome;
}.

(** [ToolRegistry._tools] *)
Abbreviation ToolRegistry := (gmap string ToolDefinition).

(** [confirm_callback(name, arguments)]: the answer, or an exception. *)
Definition ConfirmCallback : Type :=
  World -> string -> Arguments -> World * (Exception + bool).

(** The normalisation at the end of the [try] block. *)
Definition normalize (ret : HandlerReturn) : ToolResult :=
  match ret with
  | RetToolResult r => r
  | RetStr s => mkToolResult true s None
  | RetDict success output error repr =>
      mkToolResult (default true success) (default repr output) error
  | RetOther repr => mkToolResult true repr None
  end.

(** The [try] block of [execute]: an exception of the handler that
    [except Exception] catches becomes a failed result; any other leaves
    [execute]. *)
Definition run_handler (tool : ToolDefinition) (w : World)
    (arguments : Arguments) : World * (Exception + ToolResult) :=
  match tool_handler tool w arguments with
  | (w', Returns ret) => (w', inr (normalize ret))
  | (w', RaisesException e) =>
      (w', inr (mkToolResult false "" (Some ("Tool execution failed: " +:+ e))))
  | (w', RaisesBaseException e) => (w', inl e)
  end.

(** [ToolRegistry.execute].  The confirmation callback is awaited outside
    the [try] block, so an exception it raises leaves [execute]. *)
Definition execute (reg : ToolRegistry) (w : World) (name : string)
    (arguments : Arguments) (confirm_callback : option ConfirmCallback)
    : World * (Exception + ToolResult) :=
  match reg !! name with
  | None => (w, inr (mkToolResult false "" (Some ("Unknown tool: " +:+ name))))
  | Some tool =>
      match tool_requires_confirmation tool, confirm_callback with
      | true, Some cb =>
          match cb w name arguments with
          | (w', inl e) => (w', inl e)
          | (w', inr false) =>
              (w', inr (mkToolResult false ""
                          (Some "Tool execution cancelled by user")))
          | (w', inr true) => run_handler tool w' arguments
          end
      | _, _ => run_handler tool w arguments
      end
  end.

End Registry.
Arguments ToolDefinition : clear implicits.
Arguments ConfirmCallback : clear implicits.

(** ** agent/core.py: the turn executor *)

Module CodingAgent.

(** [AgentConfig]; [temperature], a float handed to the provider, is part
    of the provider here. *)
Record AgentConfig : Type := mkAgentConfig {
  system_prompt : string;
  max_iterations : Z;
  max_tool_calls_per_turn : Z;
  confirm_dangerous_tools : bool;
}.

Record AgentState : Type := mkAgentState {
  messages : list Message;
  iteration : Z;
  tool_calls_this_turn : Z;
  is_complete : bool;
  last_response : option string;
}.

(** [AgentState()] *)
Definition fresh_state : AgentState := mkAgentState [] 0 0 false None.

(** What an observer of a task sees besides the yielded text: every
    assignment to [tool_calls_this_turn] with the value assigned, every
    request sent to the provider with the history sent, every call of
    [tools.execute], and every time the cap branch of a tool loop is
    taken. *)
Inductive Event : Type :=
| EvCounter (value : Z)
| EvRequest (history : list Message)
| EvExecute (tc : ToolCall)
| EvCapReached.

Definition is_request (e : Event) : bool :=
  match e with EvRequest _ => true | _ => false end.
Definition is_execute (e : Event) : bool :=
  match e with EvExecute _ => true | _ => false end.
Definition is_cap_reached (e : Event) : bool :=
  match e with EvCapReached => true | _ => false end.

(** The tool calls handed to [tools.execute], in order. *)
Definition executed (tr : list Event) : list ToolCall :=
  omap (fun e => match e with EvExecute tc => Some tc | _ => None end) tr.

(** The values [tool_calls_this_turn] took, in order. *)
Definition counter_values (tr : list Event) : list Z :=
  omap (fun e => match e with EvCounter c => Some c | _ => None end) tr.

Definition requests (tr : list Event) : nat := length (filter is_request tr).
Definition cap_markers (tr : list Event) : nat :=
  length (filter is_cap_reached tr).

Section Agent.
Context {World : Type}.

(** The parts of a [CodingAgent] that a task does not change. *)
Record Agent : Type := mkAgent {
  provider : BaseProvider World;
  config : AgentConfig;
  tools : gmap string (ToolDefinition World);
  confirm_callback : option (ConfirmCallback World);
}.

(** A task in progress: the world, [self.state], the strings yielded so
    far and the events so far. *)
Record Run : Type := mkRun {
  world : World;
  state : AgentState;
  yielded : list string;
  trace : list Event;
}.

Definition set_world (w : World) (r : Run) : Run :=
  mkRun w (state r) (yielded r) (trace r).
Definition set_state (s : AgentState) (r : Run) : Run :=
  mkRun (world r) s (yielded r) (trace r).
Definition emit (s : string) (r : Run) : Run :=
  mkRun (world r) (state r) (yielded r ++ [s]) (trace r).
Definition record (e : Event) (r : Run) : Run :=
  mkRun (world r) (state r) (yielded r) (trace r ++ [e]).

(** [self.state.messages.append(m)] *)
Definition append_message (m : Message) (r : Run) : Run :=
  let s := state r in
  set_state (mkAgentState (messages s ++ [m]) (iteration s)
               (tool_calls_this_turn s) (is_complete s) (last_response s)) r.

(** [self.state.tool_calls_this_turn = c] *)
Definition set_counter (c : Z) (r : Run) : Run :=
  let s := state r in
  record (EvCounter c)
    (set_state (mkAgentState (messages s) (iteration s) c
                  (is_complete s) (last_response s)) r).

(** [self.state.iteration = i] *)
Definition set_iteration (i : Z) (r : Run) : Run :=
  let s := state r in
  set_state (mkAgentState (messages s) i (tool_calls_this_turn s)
               (is_complete s) (last_response s)) r.

(** [self.state.is_complete = b] *)
Definition set_complete (b : bool) (r : Run) : Run :=
  let s := state r in
  set_state (mkAgentState (messages s) (iteration s) (tool_calls_this_turn s)
               b (last_response s)) r.

(** [self.state.last_response = c] *)
Definition set_last_response (c : string) (r : Run) : Run :=
  let s := state r in
  set_state (mkAgentState (messages s) (iteration s) (tool_calls_this_turn s)
               (is_complete s) (Some c)) r.

(** [_init_conversation] *)
Definition _init_conversation (cfg : AgentConfig) (s : AgentState) : AgentState :=
  mkAgentState [plain_message "system" (system_prompt cfg)]
    (iteration s) (tool_calls_this_turn s) (is_complete s) (last_response s).

(** The state after [__init__], and after [reset]. *)
Definition initial_state (cfg : AgentConfig) : AgentState :=
  _init_conversation cfg fresh_state.

Definition reset (cfg : AgentConfig) (s : AgentState) : AgentState :=
  _init_conversation cfg fresh_state.

(** [add_context] *)
Definition add_context (content role : string) (s : AgentState) : AgentState :=
  mkAgentState (messages s ++ [plain_message role content])
    (iteration s) (tool_calls_this_turn s) (is_complete s) (last_response s).

(** [get_conversation_history] *)
Definition get_conversation_history (s : AgentState) : list Message :=
  messages s.

Variable agent : Agent.

(** The call of [self.tools.execute] both tool loops make. *)
Definition call_tool (tc : ToolCall) (w : World) : World * (Exception + ToolResult) :=
  execute (tools agent) w (tc_name tc) (tc_arguments tc)
    (if confirm_dangerous_tools (config agent) then confirm_callback agent
     else None).

(** The tool message both loops append. *)
Definition tool_message (tc : ToolCall) (result : ToolResult) : Message :=
  mkMessage "tool"
    (if tr_success result then tr_output result
     else "Error: " +:+ str_of_optional (tr_error result))
    (Some (tc_name tc)) None (Some (tc_id tc)).

Definition cap_marker_streaming : string :=
  nl +:+ "[Max tool calls reached for this turn]" +:+ nl.
Definition cap_marker_sync : string := "[Max tool calls reached]".

(** The status line yielded after a tool ran. *)
Definition status_line (tc : ToolCall) (result : ToolResult) : string :=
  if tr_success result then
    "✅ " +:+ tc_name tc +:+ ": " +:+ str_prefix 200 (tr_output result)
      +:+ (if (200 <? String.length (tr_output result))%nat then "..." else "")
      +:+ nl
  else "❌ " +:+ tc_name tc +:+ ": " +:+ str_of_optional (tr_error result) +:+ nl.

(** [_execute_tools]: the run afterwards, and the exception that ended it
    if one did. *)
Fixpoint _execute_tools (tool_calls : list ToolCall) (r : Run)
    : Run * option Exception :=
  match tool_calls with
  | [] => (r, None)
  | tc :: rest =>
      if (max_tool_calls_per_turn (config agent)
            <=? tool_calls_this_turn (state r))%Z then
        (emit cap_marker_streaming (record EvCapReached r), None)
      else
        let r := set_counter (tool_calls_this_turn (state r) + 1) r in
        let r := emit (nl +:+ "🔧 Calling: " +:+ tc_name tc +:+ nl) r in
        let r := record (EvExecute tc) r in
        match call_tool tc (world r) with
        | (w, inl e) => (set_world w r, Some e)
        | (w, inr result) =>
            let r := append_message (tool_message tc result) (set_world w r) in
            let r := emit (status_line tc result) r in
            _execute_tools rest r
        end
  end.

(** The loop of [_execute_tools_sync], with [results] as accumulator. *)
Fixpoint _execute_tools_sync_loop (tool_calls : list ToolCall)
    (results : list string) (r : Run) : Run * (Exception + list string) :=
  match tool_calls with
  | [] => (r, inr results)
  | tc :: rest =>
      if (max_tool_calls_per_turn (config agent)
            <=? tool_calls_this_turn (state r))%Z then
        (record EvCapReached r, inr (results ++ [cap_marker_sync]))
      else
        let r := set_counter (tool_calls_this_turn (state r) + 1) r in
        let r := record (EvExecute tc) r in
        match call_tool tc (world r) with
        | (w, inl e) => (set_world w r, inl e)
        | (w, inr result) =>
            let r := append_message (tool_message tc result) (set_world w r) in
            let status := if tr_success result then "✅" else "❌" in
            _execute_tools_sync_loop rest
              (results ++ [status +:+ " " +:+ tc_name tc]) r
        end
  end.

(** [_execute_tools_sync] *)
Definition _execute_tools_sync (tool_calls : list ToolCall) (r : Run)
    : Run * (Exception + string) :=
  match _execute_tools_sync_loop tool_calls [] r with
  | (r', inr results) => (r', inr (str_join " | " results))
  | (r', inl e) => (r', inl e)
  end.

(** The assistant message both turn functions append. *)
Definition assistant_message (content : string) (tool_calls : list ToolCall)
    : Message :=
  mkMessage "assistant" content None
    (if nonempty tool_calls then Some tool_calls else None) None.

(** [_process_turn] *)
Definition _process_turn (r : Run) : Run * (Exception + string) :=
  let r := record (EvRequest (messages (state r))) r in
  match complete (provider agent) (world r) (messages (state r)) with
  | (w, inl e) => (set_world w r, inl e)
  | (w, inr response) =>
      let r :=
        append_message
          (assistant_message (resp_content response) (resp_tool_calls response))
          (set_world w r) in
      if nonempty (resp_tool_calls response) then
        _execute_tools_sync (resp_tool_calls response) r
      else
        let r := set_complete true r in
        let r := set_last_response (resp_content response) r in
        (r, inr (resp_content response))
  end.

(** The [async for chunk in self.provider.stream(...)] loop, until a chunk
    carries a finish reason, the stream ends, or it raises: the content
    chunks yielded, and [(full_content, all_tool_calls)] or the exception. *)
Fixpoint consume_stream (items : list (Exception + StreamChunk))
    (full_content : string) (all_tool_calls : list ToolCall)
    : list string * (Exception + string * list ToolCall) :=
  match items with
  | [] => ([], inr (full_content, all_tool_calls))
  | inl e :: _ => ([], inl e)
  | inr chunk :: rest =>
      let full_content :=
        if nonempty_str (chunk_content chunk) then
          full_content +:+ chunk_content chunk
        else full_content in
      let all_tool_calls :=
        if nonempty (chunk_tool_calls chunk) then
          all_tool_calls ++ chunk_tool_calls chunk
        else all_tool_calls in
      let '(ys, res) :=
        if nonempty_str (default "" (chunk_finish_reason chunk)) then
          ([], inr (full_content, all_tool_calls))
        else consume_stream rest full_content all_tool_calls in
      (if nonempty_str (chunk_content chunk) then chunk_content chunk :: ys
       else ys,
       res)
  end.

(** [yield] of each string in turn. *)
Definition emit_all (ys : list string) (r : Run) : Run :=
  mkRun (world r) (state r) (yielded r ++ ys) (trace r).

(** [_process_turn_streaming] *)
Definition _process_turn_streaming (r : Run) : Run * option Exception :=
  let r := record (EvRequest (messages (state r))) r in
  let '(w, items) := stream (provider agent) (world r) (messages (state r)) in
  let '(ys, res) := consume_stream items "" [] in
  let r := emit_all ys (set_world w r) in
  match res with
  | inl e => (r, Some e)
  | inr (full_content, all_tool_calls) =>
      let r :=
        append_message (assistant_message full_content all_tool_calls) r in
      if nonempty all_tool_calls then _execute_tools all_tool_calls r
      else
        let r := set_complete true r in
        let r := set_last_response full_content r in
        (r, None)
  end.

(** The tool calls the provider's answer to [history] carries, as the turn
    function of the chosen mode gathers them; [None] if the request
    raises. *)
Definition turn_tool_calls (stream_mode : bool) (w : World)
    (history : list Message) : option (list ToolCall) :=
  if stream_mode then
    match (consume_stream (stream (provider agent) w history).2 "" []).2 with
    | inr (_, tcs) => Some tcs
    | inl _ => None
    end
  else
    match (complete (provider agent) w history).2 with
    | inr response => Some (resp_tool_calls response)
    | inl _ => None
    end.

(** How the generator [process_message] ended: exhausted, by an exception,
    or (in the model only) with the loop budget used up. *)
Inductive Outcome : Type :=
| Finished
| Raised (e : Exception)
| OutOfFuel.

(** The [while] loop of [process_message]; [fuel] bounds the number of
    times its condition is evaluated. *)
Fixpoint process_loop (fuel : nat) (stream : bool) (r : Run) : Run * Outcome :=
  match fuel with
  | O => (r, OutOfFuel)
  | S fuel =>
      if negb (is_complete (state r))
         && (iteration (state r) <? max_iterations (config agent))%Z then
        let r := set_iteration (iteration (state r) + 1) r in
        if stream then
          match _process_turn_streaming r with
          | (r, Some e) => (r, Raised e)
          | (r, None) =>
              if is_complete (state r) then (r, Finished)
              else process_loop fuel stream r
          end
        else
          match _process_turn r with
          | (r, inl e) => (r, Raised e)
          | (r, inr response) =>
              let r := if nonempty_str response then emit response r else r in
              if is_complete (state r) then (r, Finished)
              else process_loop fuel stream r
          end
      else (r, Finished)
  end.

(** [process_message], its generator run to the end.  The loop body runs
    at most [max_iterations] times, so the condition is evaluated at most
    once more than that. *)
Definition process_message (user_message : string) (stream : bool) (r : Run)
    : Run * Outcome :=
  let r := append_message (plain_message "user" user_message) r in
  let r := set_iteration 0 r in
  let r := set_counter 0 r in
  let r := set_complete false r in
  process_loop (S (Z.to_nat (max_iterations (config agent)))) stream r.

End Agent.
End CodingAgent.

(** ** orchestrator/async_executor.py *)

Module AsyncOrchestrator.

Record ExecutionResult : Type := mkExecutionResult {
  er_agent_name : string;
  er_role : string;
  er_success : bool;
  er_content : string;
  er_error : option string;
  er_iteration : Z;
}.

Record WorkflowResult : Type := mkWorkflowResult {
  wr_success : bool;
  wr_results : list ExecutionResult;
  wr_final_output : string;
  wr_total_iterations : Z;
}.

(** An item of the task queue of continuous mode. *)
Record QueueItem : Type := mkQueueItem {
  item_task : string;
  item_target_agent : string;
  item_iteration : Z;
}.

(** A provider call an orchestrator made: the agent and the prompt sent. *)
Definition Call : Type := string * string.

(** [results[-1].content if results and results[-1].success else ""] *)
Definition last_content_if_success (results : list ExecutionResult) : string :=
  match last results with
  | Some r => if er_success r then er_content r else ""
  | None => ""
  end.

(** The result recorded for a name that is not in [self.agents]. *)
Definition not_found_result (agent_name : string) : ExecutionResult :=
  mkExecutionResult agent_name "unknown" false ""
    (Some ("Agent not found: " +:+ agent_name)) 0.

(** A dictionary in insertion order; the keys of a [dict] are distinct,
    and a lookup finds the entry with the key. *)
Fixpoint dict_get {V : Type} (d : list (string * V)) (k : string) : option V :=
  match d with
  | [] => None
  | (k', v) :: rest => if String.eqb k' k then Some v else dict_get rest k
  end.

(** How a call that awaits others ended. *)
Inductive Completion (A : Type) : Type :=
| Returned (a : A)
| Raises (e : Exception)
| Pending.
Arguments Returned {A} _.
Arguments Raises {A} _.
Arguments Pending {A}.

Section Orchestrator.
Context {World : Type}.

(** [str.format] of the Python library: [template.format] applied to keyword arguments, which
    raises on a field it cannot fill or on a malformed template. *)
Variable str_format : string -> gmap string PyValue -> Exception + string.

Record AgentRole : Type := mkAgentRole {
  ar_name : string;
  ar_provider : BaseProvider World;
  ar_role : string;
  ar_prompt_template : string;
  ar_next_agent : option string;
}.

(** [template.format(k1=v1, ..., **extra)].  A keyword given explicitly
    and again through [**extra] makes the call itself raise [TypeError]
    before [format] runs; in [execute_sequential], whose call is
    [format(task=..., previous_output=..., **ctx)], that is the case as
    soon as [ctx] holds ["previous_output"], which the loop stores after
    every success. *)
Definition format_call (template : string)
    (explicit : list (string * PyValue)) (extra : gmap string PyValue)
    : Exception + string :=
  match List.find (fun kv => bool_decide (is_Some (extra !! kv.1))) explicit with
  | Some (k, _) =>
      inl ("str.format() got multiple values for keyword argument '"
             +:+ k +:+ "'")
  | None => str_format template (list_to_map explicit ∪ extra)
  end.

(** The [AsyncOrchestrator] object: [agents], [max_iterations]; the task
    queue of continuous mode is passed to [execute_continuous]. *)
Variable agents : list (string * AgentRole).
Variable max_iterations : Z.

(** *** Sequential *)

Record SeqState : Type := mkSeqState {
  seq_world : World;
  seq_results : list ExecutionResult;
  seq_current_input : string;
  seq_ctx : gmap string PyValue;
  seq_calls : list Call;
}.

(** How the [for] loop over [agent_order] was left: at the end of the
    list, by its [break], or by an exception. *)
Inductive SeqExit : Type :=
| SeqExhausted
| SeqBroke
| SeqRaised (e : Exception).

(** The [for i, agent_name in enumerate(agent_order)] loop, from index
    [i]: the state when the loop is left, and how it was left. *)
Fixpoint sequential_loop (i : nat) (agent_order : list string) (st : SeqState)
    : SeqState * SeqExit :=
  match agent_order with
  | [] => (st, SeqExhausted)
  | agent_name :: rest =>
      match dict_get agents agent_name with
      | None =>
          sequential_loop (S i) rest
            (mkSeqState (seq_world st)
               (seq_results st ++ [not_found_result agent_name])
               (seq_current_input st) (seq_ctx st) (seq_calls st))
      | Some agent =>
          match
            format_call (ar_prompt_template agent)
              [("task", PStr (seq_current_input st));
               ("previous_output",
                default (PStr "") (seq_ctx st !! "previous_output"))]
              (seq_ctx st)
          with
          | inl e => (st, SeqRaised e)
          | inr prompt =>
              let calls := seq_calls st ++ [(agent_name, prompt)] in
              match
                complete (ar_provider agent) (seq_world st)
                  [plain_message "user" prompt]
              with
              | (w, inr response) =>
                  sequential_loop (S i) rest
                    (mkSeqState w
                       (seq_results st
                          ++ [mkExecutionResult agent_name (ar_role agent) true
                                (resp_content response) None (Z.of_nat i)])
                       (resp_content response)
                       (<["previous_output" := PStr (resp_content response)]>
                          (seq_ctx st))
                       calls)
              | (w, inl e) =>
                  (mkSeqState w
                     (seq_results st
                        ++ [mkExecutionResult agent_name (ar_role agent) false
                              "" (Some e) 0])
                     (seq_current_input st) (seq_ctx st) calls,
                   SeqBroke)
              end
          end
      end
  end.

(** [execute_sequential]: the world and the provider calls afterwards, and
    the returned result or the exception raised. *)
Definition execute_sequential (w : World) (task : string)
    (agent_order : list string) (context : option (gmap string PyValue))
    : World * list Call * (Exception + WorkflowResult) :=
  let st0 := mkSeqState w [] task (default ∅ context) [] in
  match sequential_loop 0 agent_order st0 with
  | (st, SeqRaised e) => (seq_world st, seq_calls st, inl e)
  | (st, _) =>
      let results := seq_results st in
      (seq_world st, seq_calls st,
       inr (mkWorkflowResult (forallb er_success results) results
              (last_content_if_success results)
              (Z.of_nat (length results))))
  end.

(** *** Parallel *)

(** A [run_agent] coroutine: finished, or suspended in its provider call. *)
Inductive Slot : Type :=
| Ready (r : ExecutionResult)
| Awaiting (name : string) (agent : AgentRole) (prompt : string).

(** [run_agent(name)] up to its [await]. *)
Definition run_agent_start (task name : string) : Exception + Slot :=
  match dict_get agents name with
  | None => inr (Ready (not_found_result name))
  | Some agent =>
      match format_call (ar_prompt_template agent) [("task", PStr task)] ∅ with
      | inl e => inl e
      | inr prompt => inr (Awaiting name agent prompt)
      end
  end.

(** All coroutines started, in list order.  An exception of [str.format]
    leaves [run_agent], and [gather] passes the first one on to
    [execute_parallel]; the other coroutines are then not followed any
    further. *)
Fixpoint start_all (task : string) (agent_names : list string)
    : Exception + list Slot :=
  match agent_names with
  | [] => inr []
  | name :: rest =>
      match run_agent_start task name with
      | inl e => inl e
      | inr s =>
          match start_all task rest with
          | inl e => inl e
          | inr ss => inr (s :: ss)
          end
      end
  end.

(** [run_agent] from its [await] on: the provider answers or raises. *)
Definition run_agent_finish (w : World) (name : string) (agent : AgentRole)
    (prompt : string) : World * ExecutionResult :=
  match complete (ar_provider agent) w [plain_message "user" prompt] with
  | (w', inr response) =>
      (w', mkExecutionResult name (ar_role agent) true
             (resp_content response) None 0)
  | (w', inl e) =>
      (w', mkExecutionResult name (ar_role agent) false "" (Some e) 0)
  end.

(** [asyncio.gather]: the suspended coroutines are resumed in the order
    [schedule] lists their positions, each provider call acting on the
    world the earlier ones left; a result goes to the position of its
    coroutine. *)
Fixpoint gather (schedule : list nat) (w : World) (slots : list Slot)
    (calls : list Call) : World * list Slot * list Call :=
  match schedule with
  | [] => (w, slots, calls)
  | i :: rest =>
      match slots !! i with
      | Some (Awaiting name agent prompt) =>
          let '(w', r) := run_agent_finish w name agent prompt in
          gather rest w' (<[i := Ready r]> slots) (calls ++ [(name, prompt)])
      | _ => gather rest w slots calls
      end
  end.

(** The list [gather] returns, once every coroutine has finished. *)
Fixpoint collect (slots : list Slot) : option (list ExecutionResult) :=
  match slots with
  | [] => Some []
  | Ready r :: rest => cons r <$> collect rest
  | Awaiting _ _ _ :: _ => None
  end.

(** [max(successful, key=lambda r: len(r.content))]: the first of the
    longest. *)
Fixpoint longest (best : ExecutionResult) (rs : list ExecutionResult)
    : ExecutionResult :=
  match rs with
  | [] => best
  | r :: rest =>
      if (String.length (er_content best) <? String.length (er_content r))%nat
      then longest r rest else longest best rest
  end.

Definition merge (merge_strategy : string) (successful : list ExecutionResult)
    : string :=
  if String.eqb merge_strategy "combine" then
    str_join (nl +:+ nl +:+ "---" +:+ nl +:+ nl)
      (map (fun r => "**" +:+ er_agent_name r +:+ " (" +:+ er_role r
                       +:+ "):**" +:+ nl +:+ er_content r) successful)
  else if String.eqb merge_strategy "best" then
    match successful with
    | r :: rest => er_content (longest r rest)
    | [] => ""
    end
  else
    match successful with
    | r :: _ => er_content r
    | [] => ""
    end.

(** [execute_parallel] under the completion order [schedule]; [Pending]
    when the schedule leaves a coroutine unfinished. *)
Definition execute_parallel (schedule : list nat) (w : World) (task : string)
    (agent_names : list string) (merge_strategy : string)
    : World * list Call * Completion WorkflowResult :=
  match start_all task agent_names with
  | inl e => (w, [], Raises e)
  | inr slots =>
      let '(w', slots', calls) := gather schedule w slots [] in
      match collect slots' with
      | None => (w', calls, Pending)
      | Some results =>
          let successful := filter (fun r => er_success r = true) results in
          (w', calls,
           Returned (mkWorkflowResult (nonempty successful) results
                       (merge merge_strategy successful) 1))
      end
  end.

(** *** Continuous *)

(** The agent the first item is addressed to. *)
Definition first_agent : Exception + string :=
  let found :=
    match List.find (fun kv => String.eqb (ar_role kv.2) "implement") agents with
    | Some (name, _) => name
    | None => ""
    end in
  if nonempty_str found then inr found
  else
    match agents with
    | (name, _) :: _ => inr name
    | [] => inl "list index out of range"
    end.

Record ContState : Type := mkContState {
  cont_world : World;
  cont_queue : list QueueItem;
  cont_results : list ExecutionResult;
  cont_calls : list Call;
}.

(** How the consumer loop ended: the queue stayed empty for a poll, a stop
    condition matched, [str.format] raised, or the outer time limit
    cancelled it. *)
Inductive LoopEnd : Type :=
| QueueDrained
| StopMatched
| LoopRaised (e : Exception)
| TimedOut.

(** [process_queue].  [polls] is the number of passes through the [while
    True] loop that fit into the [timeout] of the enclosing [wait_for];
    the loop is cancelled between two passes.  The stop condition is
    taken to return, and the time limit to expire while the loop waits
    for the queue; [Pipeline.process_queue] below drops both
    assumptions. *)
Fixpoint process_queue (stop_condition : ExecutionResult -> bool)
    (polls : nat) (st : ContState) : ContState * LoopEnd :=
  match polls with
  | O => (st, TimedOut)
  | S polls =>
      match cont_queue st with
      | [] => (st, QueueDrained)
      | item :: queue =>
          let agent_name := item_target_agent item in
          match dict_get agents agent_name with
          | None =>
              process_queue stop_condition polls
                (mkContState (cont_world st) queue (cont_results st)
                   (cont_calls st))
          | Some agent =>
              match
                format_call (ar_prompt_template agent)
                  [("task", PStr (item_task item));
                   ("iteration", PInt (item_iteration item))] ∅
              with
              | inl e =>
                  (mkContState (cont_world st) queue (cont_results st)
                     (cont_calls st), LoopRaised e)
              | inr prompt =>
                  let calls := cont_calls st ++ [(agent_name, prompt)] in
                  match
                    complete (ar_provider agent) (cont_world st)
                      [plain_message "user" prompt]
                  with
                  | (w, inr response) =>
                      let result :=
                        mkExecutionResult agent_name (ar_role agent) true
                          (resp_content response) None (item_iteration item) in
                      let results := cont_results st ++ [result] in
                      if stop_condition result then
                        (mkContState w queue results calls, StopMatched)
                      else
                        let queue :=
                          if nonempty_str (default "" (ar_next_agent agent))
                             && (item_iteration item <? max_iterations)%Z
                          then
                            queue
                              ++ [mkQueueItem (resp_content response)
                                    (default "" (ar_next_agent agent))
                                    (item_iteration item + 1)]
                          else queue in
                        process_queue stop_condition polls
                          (mkContState w queue results calls)
                  | (w, inl e) =>
                      process_queue stop_condition polls
                        (mkContState w queue
                           (cont_results st
                              ++ [mkExecutionResult agent_name (ar_role agent)
                                    false "" (Some e) 0])
                           calls)
                  end
              end
          end
      end
  end.

(** [execute_continuous] on an orchestrator whose task queue holds
    [task_queue]: the final state (world, queue, calls) and the returned
    result or the exception raised. *)
Definition execute_continuous (w : World) (task_queue : list QueueItem)
    (initial_task : string) (stop_condition : ExecutionResult -> bool)
    (polls : nat) : ContState * (Exception + WorkflowResult) :=
  match first_agent with
  | inl e => (mkContState w task_queue [] [], inl e)
  | inr first =>
      let st0 :=
        mkContState w (task_queue ++ [mkQueueItem initial_task first 0]) [] [] in
      match process_queue stop_condition polls st0 with
      | (st, LoopRaised e) => (st, inl e)
      | (st, _) =>
          let results := cont_results st in
          (st,
           inr (mkWorkflowResult (existsb er_success results) results
                  (last_content_if_success results)
                  (Z.of_nat (length results))))
      end
  end.

End Orchestrator.
End AsyncOrchestrator.

(** * Vocabulary of the statements *)

(** ** Reading the compaction loop *)

Module CompactionSpec.
Import Compaction.

Definition non_system (m : Message) : bool := negb (is_system m).

(** [l[-k:]] for [0 < k], and nothing for [k = 0]: the [k] most recent. *)
Definition most_recent {A : Type} (k : nat) (l : list A) : list A :=
  drop (length l - k) l.

Definition count_system (l : list Message) : nat :=
  length (filter (fun m => is_system m = true) l).
Definition count_non_system (l : list Message) : nat :=
  length (filter (fun m => non_system m = true) l).

(** All system messages together with the [k] most recent of the others,
    in the order of the list: a message that is not a system message stays
    when fewer than [k] such messages follow it. *)
Fixpoint keep_system_and_recent (k : nat) (l : list Message) : list Message :=
  match l with
  | [] => []
  | m :: rest =>
      if is_system m then m :: keep_system_and_recent k rest
      else if (count_non_system rest <? k)%nat then
        m :: keep_system_and_recent k rest
      else keep_system_and_recent k rest
  end.

(** The loop of [compact_session] read as a budget of removals: a message
    is removed while the budget lasts, unless it is a system message that
    is to be kept. *)
Fixpoint drop_oldest (keep_system : bool) (budget : nat) (l : list Message)
    : list Message * list Message :=
  match l with
  | [] => ([], [])
  | m :: rest =>
      if is_system m && keep_system then
        let '(kept, dropped) := drop_oldest keep_system budget rest in
        (m :: kept, dropped)
      else
        match budget with
        | O =>
            let '(kept, dropped) := drop_oldest keep_system O rest in
            (m :: kept, dropped)
        | S b =>
            let '(kept, dropped) := drop_oldest keep_system b rest in
            (kept, m :: dropped)
        end
  end.

End CompactionSpec.

(** ** Turn executor *)

Module TurnSpec.
Section TurnSpec.
Import CodingAgent.
Context {World : Type}.
Variable agent : @Agent World.

Local Abbreviation cap := (max_tool_calls_per_turn (config agent)).

(** [r'] continues [r]: the iteration count is untouched, the history has
    only grown, and the events added keep the tool counter within the cap
    and count the tool executions. *)
Definition continues (r r' : @Run World) : Prop :=
  iteration (state r') = iteration (state r)
  ∧ messages (state r) `prefix_of` messages (state r')
  ∧ ∃ evs,
      trace r' = trace r ++ evs
      ∧ Forall (fun c => (c ≤ cap)%Z) (counter_values evs)
      ∧ tool_calls_this_turn (state r')
        = (tool_calls_this_turn (state r)
           + Z.of_nat (length (executed evs)))%Z
      ∧ ((tool_calls_this_turn (state r) ≤ cap)%Z →
         (tool_calls_this_turn (state r') ≤ cap)%Z).

(** [r'] extends [r]: as [continues], but the iteration count may have
    changed. *)
Definition extends (r r' : @Run World) : Prop :=
  messages (state r) `prefix_of` messages (state r')
  ∧ ∃ evs,
      trace r' = trace r ++ evs
      ∧ Forall (fun c => (c ≤ cap)%Z) (counter_values evs)
      ∧ tool_calls_this_turn (state r')
        = (tool_calls_this_turn (state r)
           + Z.of_nat (length (executed evs)))%Z
      ∧ ((tool_calls_this_turn (state r) ≤ cap)%Z →
         (tool_calls_this_turn (state r') ≤ cap)%Z).

(** [tools.execute] returns: the confirmation callback, if there is one,
    does not raise. *)
Definition tools_return : Prop :=
  ∀ tc w, ∃ w' result, call_tool agent tc w = (w', inr result).

(** The budget of tool calls a run has left. *)
Definition budget (r : @Run World) : nat :=
  Z.to_nat (cap - tool_calls_this_turn (state r)).

(** What a tool loop over [tool_calls] does to a run: nothing but execute
    the calls the budget allows, in order, and mark the cap if calls are
    left over. *)
Definition tool_loop_effect (tool_calls : list ToolCall) (r r' : @Run World)
    : Prop :=
  iteration (state r') = iteration (state r)
  ∧ is_complete (state r') = is_complete (state r)
  ∧ ∃ evs,
      trace r' = trace r ++ evs
      ∧ executed evs = take (budget r) tool_calls
      ∧ requests evs = 0%nat
      ∧ cap_markers evs
        = (if decide (budget r < length tool_calls)%nat then 1%nat else 0%nat)
      ∧ tool_calls_this_turn (state r')
        = (tool_calls_this_turn (state r)
           + Z.of_nat (length (executed evs)))%Z.

(** What one turn does when the provider answers with [tool_calls]: one
    request, then the tool loop. *)
Definition turn_effect (tool_calls : list ToolCall) (r r' : @Run World)
    : Prop :=
  iteration (state r') = iteration (state r)
  ∧ is_complete (state r') = is_complete (state r)
  ∧ ∃ evs,
      trace r' = trace r ++ evs
      ∧ executed evs = take (budget r) tool_calls
      ∧ requests evs = 1%nat
      ∧ cap_markers evs
        = (if decide (budget r < length tool_calls)%nat then 1%nat else 0%nat)
      ∧ tool_calls_this_turn (state r')
        = (tool_calls_this_turn (state r)
           + Z.of_nat (length (executed evs)))%Z.

(** The iterations a run has left. *)
Definition remaining (r : @Run World) : nat :=
  Z.to_nat (max_iterations (config agent) - iteration (state r)).

(** The line that announces a tool call in streaming mode. *)
Definition calling_line (tc : ToolCall) : string :=
  nl +:+ "🔧 Calling: " +:+ tc_name tc +:+ nl.

(** The entry of a tool call in the summary of the other mode. *)
Definition sync_status (tc : ToolCall) (result : ToolResult) : string :=
  (if tr_success result then "✅" else "❌") +:+ " " +:+ tc_name tc.

(** The strings a turn yields when the provider's answer carries tool
    calls: [texts] are the content chunks of the answer, [ran] the calls
    executed with their results, and [capped] tells whether the cap left
    calls over.  Streaming, the turn yields the chunks, then two lines
    for each executed call, then the marker.  Otherwise it yields one
    string, the summary of the tool loop with the marker as its last
    entry (the content of the answer is not yielded). *)
Definition turn_text (stream : bool) (texts : list string)
    (ran : list (ToolCall * ToolResult)) (capped : bool) : list string :=
  if stream then
    texts
      ++ flat_map (fun d => [calling_line d.1; status_line d.1 d.2]) ran
      ++ (if capped then [cap_marker_streaming] else [])
  else
    [str_join " | "
       (map (fun d => sync_status d.1 d.2) ran
          ++ (if capped then [cap_marker_sync] else []))].

End TurnSpec.
End TurnSpec.

(** ** Orchestrator *)

Module OrchestratorSpec.
Section OrchestratorSpec.
Import AsyncOrchestrator.
Context {World : Type}.
Variable str_format : string -> gmap string PyValue -> Exception + string.
Variable agents : list (string * @AgentRole World).


(** The agent a coroutine was started for. *)
Definition slot_name (s : @Slot World) : string :=
  match s with
  | Ready r => er_agent_name r
  | Awaiting name _ _ => name
  end.

(** [x], [y], [x], ... *)
Fixpoint alternate (x y : string) (n : nat) : list string :=
  match n with
  | O => []
  | S n => x :: alternate y x n
  end.

(** The agent [X] registered under [x] always answers, its prompt can
    always be built, and it hands over to [y]. *)
Definition hands_over (x : string) (X : @AgentRole World) (y : string) : Prop :=
  dict_get agents x = Some X
  ∧ ar_next_agent X = Some y
  ∧ y ≠ ""
  ∧ (∀ w msgs, ∃ w' response,
       complete (ar_provider X) w msgs = (w', inr response))
  ∧ (∀ t i, ∃ prompt,
       format_call str_format (ar_prompt_template X)
         [("task", PStr t); ("iteration", PInt i)] ∅ = inr prompt).

End OrchestratorSpec.
End OrchestratorSpec.

(** ** Objects to run the model on *)

Section Demo.
Import SessionManager AsyncOrchestrator.

Definition demo_metadata : SessionMetadata :=
  mkSessionMetadata "3f9a1c0b77de" "2025-01-01T10:00:00" "2025-01-01T10:00:00"
    "gemini" "gemini-pro" "Session 3f9a1c" 0 0.

Definition demo_system : Message := plain_message "system" "You are an expert.".
Definition demo_user (text : string) : Message := plain_message "user" text.

Definition demo_dir : string := "/home/dev/.ai_coding_agent/sessions".

Definition demo_session : Session :=
  mkSession demo_metadata [demo_system; demo_user "first"] ∅.

(** A manager that saved [demo_session], and the disk it left. *)
Definition demo_saved : t * Disk * string :=
  save (init demo_dir 100000) ∅ "2025-01-01T10:01:00" demo_session.

Definition demo_calls : list ToolCall :=
  [mkToolCall "call_1" "read_file" [("path", "main.py")];
   mkToolCall "call_2" "search_code" [("query", "def main")];
   mkToolCall "call_3" "run_command" [("command", "pytest")]].

(** A model that asks for the same three tools whatever it is sent. *)
Definition eager_provider : BaseProvider unit :=
  mkProvider unit
    (fun w _ => (w, inr (mkCompletionResponse "" demo_calls "tool_calls")))
    (fun w _ =>
       (w, [inr (mkStreamChunk "Let me look." [] None);
            inr (mkStreamChunk "" demo_calls (Some "tool_calls"))])).

Definition demo_tools : gmap string (ToolDefinition unit) :=
  {[ "read_file" :=
       mkToolDefinition "read_file" false
         (fun w _ => (w, Returns (RetStr "print('hello')")));
     "search_code" :=
       mkToolDefinition "search_code" false
         (fun w _ => (w, RaisesException "rg: command not found")) ]}.

Definition demo_config : CodingAgent.AgentConfig :=
  CodingAgent.mkAgentConfig "You are an expert." 20 2 true.

Definition demo_agent : CodingAgent.Agent :=
  CodingAgent.mkAgent eager_provider demo_config demo_tools None.

(** The run of a freshly constructed agent. *)
Definition demo_run : CodingAgent.Run :=
  CodingAgent.mkRun tt (CodingAgent.initial_state demo_config) [] [].

(** [str(z)] *)
Definition str_of_Z (z : Z) : string := NilZero.string_of_int (Z.to_int z).

Definition str_of_value (v : PyValue) : string :=
  match v with
  | PStr s => s
  | PInt z => str_of_Z z
  end.

(** [s + c] for one character [c]. *)
Fixpoint str_snoc (s : string) (c : ascii) : string :=
  match s with
  | EmptyString => String c EmptyString
  | String a rest => String a (str_snoc rest c)
  end.

(** [str.format] on templates whose replacement fields are plain names:
    every [{name}] is replaced by the keyword argument of that name, and a
    name that is not given raises [KeyError]. *)
Fixpoint fill_fields (template : string) (field : option string)
    (kwargs : gmap string PyValue) : Exception + string :=
  match template with
  | EmptyString =>
      match field with
      | None => inr EmptyString
      | Some _ => inl "expected '}' before end of string"
      end
  | String c rest =>
      match field with
      | None =>
          if Ascii.eqb c "{" then fill_fields rest (Some EmptyString) kwargs
          else
            match fill_fields rest None kwargs with
            | inr out => inr (String c out)
            | inl e => inl e
            end
      | Some name =>
          if Ascii.eqb c "}" then
            match kwargs !! name with
            | Some v =>
                match fill_fields rest None kwargs with
                | inr out => inr (str_of_value v +:+ out)
                | inl e => inl e
                end
            | None => inl ("'" +:+ name +:+ "'")
            end
          else fill_fields rest (Some (str_snoc name c)) kwargs
      end
  end.

Definition simple_format (template : string) (kwargs : gmap string PyValue)
    : Exception + string :=
  fill_fields template None kwargs.

(** A provider that answers every prompt with [tag] and the prompt. *)
Definition echo_provider (tag : string) : BaseProvider unit :=
  mkProvider unit
    (fun w msgs =>
       (w, inr (mkCompletionResponse
                  (tag +:+ str_join "" (map msg_content msgs)) [] "stop")))
    (fun w msgs => (w, [])).

(** A provider whose every call raises. *)
Definition failing_provider : BaseProvider unit :=
  mkProvider unit (fun w _ => (w, inl "503 Service Unavailable"))
    (fun w _ => (w, [inl "503 Service Unavailable"])).

Definition demo_coder : AsyncOrchestrator.AgentRole :=
  AsyncOrchestrator.mkAgentRole "coder" (echo_provider "CODE for ")
    "implement" "Implement: {task}" (Some "reviewer").

Definition demo_reviewer : AsyncOrchestrator.AgentRole :=
  AsyncOrchestrator.mkAgentRole "reviewer" (echo_provider "REVIEW of ")
    "review" "Review: {task}" (Some "coder").

Definition demo_flaky : AsyncOrchestrator.AgentRole :=
  AsyncOrchestrator.mkAgentRole "flaky" failing_provider
    "refine" "Refine: {task}" None.

Definition demo_agents : list (string * AsyncOrchestrator.AgentRole) :=
  [("coder", demo_coder); ("reviewer", demo_reviewer); ("flaky", demo_flaky)].

Definition demo_cycle : list (string * AsyncOrchestrator.AgentRole) :=
  [("coder", demo_coder); ("reviewer", demo_reviewer)].

Definition demo_late_failure : WorkflowResult :=
  mkWorkflowResult false
    [mkExecutionResult "coder" "implement" true
       "CODE for Implement: add tests" None 0;
     not_found_result "ghost"]
    "" 2.

End Demo.

(** * Further parts of the code *)

(** ** orchestrator/async_executor.py: round-robin *)

(** What a call of the stop condition does: it returns (a value that is
    true or false), it raises an exception that [except Exception]
    catches, or it raises one that [except Exception] lets through
    ([KeyboardInterrupt], [SystemExit], [asyncio.CancelledError]). *)
Inductive StopOutcome : Type :=
| StopReturns (b : bool)
| StopRaises (e : Exception)
| StopEscapes (e : Exception).

Module RoundRobin.
Import AsyncOrchestrator.

(** An entry of [history]: the dictionary with the keys ["agent"],
    ["role"] and ["output"]. *)
Record HistoryEntry : Type := mkHistoryEntry {
  h_agent : string;
  h_role : string;
  h_output : string;
}.

(** [l[-3:]] *)
Definition last_three {A : Type} (l : list A) : list A :=
  drop (length l - 3) l.

(** [history_text] *)
Definition history_text (history : list HistoryEntry) : string :=
  str_join nl
    (map (fun h => "[" +:+ h_agent h +:+ "]: " +:+ str_prefix 200 (h_output h)
                     +:+ "...")
       (last_three history)).

Section RoundRobin.
Context {World : Type}.
Variable str_format : string -> gmap string PyValue -> Exception + string.
Variable agents : list (string * @AgentRole World).

Record RRState : Type := mkRRState {
  rr_world : World;
  rr_results : list ExecutionResult;
  rr_current_input : string;
  rr_history : list HistoryEntry;
  rr_calls : list Call;
}.

(** How the loop over one round was left: at the end of [agent_order], by
    the [return] of a matching stop condition, or by an exception: one of
    [str.format] (the prompt is built outside the [try] block) or one of
    the stop condition that the handler lets through. *)
Inductive RRExit : Type :=
| RRNext
| RRStopped (final_output : string)
| RRRaised (e : Exception).

(** [stop_condition and stop_condition(result)] *)
Definition check_stop (stop_condition : option (ExecutionResult -> StopOutcome))
    (result : ExecutionResult) : StopOutcome :=
  match stop_condition with
  | Some f => f result
  | None => StopReturns false
  end.

(** The [for agent_name in agent_order] loop of round [round_num].  The
    stop condition is called inside the [try] block, after the result has
    been appended and [current_input] and [history] updated: when it
    raises, the handler appends a failed result for the same agent and
    the loop goes on. *)
Fixpoint round_loop (task : string)
    (stop_condition : option (ExecutionResult -> StopOutcome)) (round_num : nat)
    (agent_order : list string) (st : RRState) : RRState * RRExit :=
  match agent_order with
  | [] => (st, RRNext)
  | agent_name :: rest =>
      match dict_get agents agent_name with
      | None => round_loop task stop_condition round_num rest st
      | Some agent =>
          match
            format_call str_format (ar_prompt_template agent)
              [("task", PStr task);
               ("current_state", PStr (rr_current_input st));
               ("history", PStr (history_text (rr_history st)));
               ("round", PInt (Z.of_nat round_num + 1))] ∅
          with
          | inl e => (st, RRRaised e)
          | inr prompt =>
              let calls := rr_calls st ++ [(agent_name, prompt)] in
              match
                complete (ar_provider agent) (rr_world st)
                  [plain_message "user" prompt]
              with
              | (w, inr response) =>
                  let result :=
                    mkExecutionResult agent_name (ar_role agent) true
                      (resp_content response) None
                      (Z.of_nat (length (rr_results st))) in
                  let st' :=
                    mkRRState w (rr_results st ++ [result])
                      (resp_content response)
                      (rr_history st
                         ++ [mkHistoryEntry agent_name (ar_role agent)
                               (resp_content response)])
                      calls in
                  match check_stop stop_condition result with
                  | StopReturns true =>
                      (st', RRStopped (resp_content response))
                  | StopReturns false =>
                      round_loop task stop_condition round_num rest st'
                  | StopRaises e =>
                      round_loop task stop_condition round_num rest
                        (mkRRState w
                           (rr_results st'
                              ++ [mkExecutionResult agent_name (ar_role agent)
                                    false "" (Some e) 0])
                           (rr_current_input st') (rr_history st') calls)
                  | StopEscapes e => (st', RRRaised e)
                  end
              | (w, inl e) =>
                  round_loop task stop_condition round_num rest
                    (mkRRState w
                       (rr_results st
                          ++ [mkExecutionResult agent_name (ar_role agent)
                                false "" (Some e) 0])
                       (rr_current_input st) (rr_history st) calls)
              end
          end
      end
  end.

(** The [for round_num in range(max_rounds)] loop, [n] rounds from round
    [round_num] on. *)
Fixpoint rounds_loop (task : string)
    (stop_condition : option (ExecutionResult -> StopOutcome))
    (n round_num : nat)
    (agent_order : list string) (st : RRState) : RRState * RRExit :=
  match n with
  | O => (st, RRNext)
  | S n =>
      match round_loop task stop_condition round_num agent_order st with
      | (st', RRNext) =>
          rounds_loop task stop_condition n (S round_num) agent_order st'
      | other => other
      end
  end.

(** [execute_round_robin]: the final state, and the returned result or the
    exception raised. *)
Definition execute_round_robin (w : World) (task : string)
    (agent_order : list string) (max_rounds : Z)
    (stop_condition : option (ExecutionResult -> StopOutcome))
    : RRState * (Exception + WorkflowResult) :=
  let st0 := mkRRState w [] task [] [] in
  match
    rounds_loop task stop_condition (Z.to_nat max_rounds) 0 agent_order st0
  with
  | (st, RRRaised e) => (st, inl e)
  | (st, RRStopped final_output) =>
      (st,
       inr (mkWorkflowResult true (rr_results st) final_output
              (Z.of_nat (length (rr_results st)))))
  | (st, RRNext) =>
      (st,
       inr (mkWorkflowResult (existsb er_success (rr_results st))
              (rr_results st) (rr_current_input st)
              (Z.of_nat (length (rr_results st)))))
  end.

End RoundRobin.
End RoundRobin.

(** ** Continuous orchestration, in general

    [AsyncOrchestrator.process_queue] above takes the stop condition to
    return and the time limit to expire while the loop waits for the
    queue.  Here the stop condition may raise, inside the [try] block and
    after the result has been appended, and the time limit may expire
    during a provider call. *)

Module Pipeline.
Import AsyncOrchestrator.

Section Pipeline.
Context {World : Type}.
Variable str_format : string -> gmap string PyValue -> Exception + string.
Variable agents : list (string * @AgentRole World).
Variable max_iterations : Z.

(** [process_queue].  [polls] is the number of passes through the [while
    True] loop that are started before the [timeout] of the enclosing
    [wait_for] expires, and [calls_in_time] the number of provider calls
    that return before it does.  The call after these is cancelled:
    [asyncio.CancelledError] is not an [Exception], so it passes the
    handler, no result is recorded for the call, and [wait_for] turns it
    into the [asyncio.TimeoutError] that [execute_continuous] swallows.
    [asyncio.Queue()] is unbounded: [put] does not wait. *)
Fixpoint process_queue (stop_condition : ExecutionResult -> StopOutcome)
    (polls calls_in_time : nat) (st : ContState) : ContState * LoopEnd :=
  match polls with
  | O => (st, TimedOut)
  | S polls =>
      match cont_queue st with
      | [] => (st, QueueDrained)
      | item :: queue =>
          let agent_name := item_target_agent item in
          match dict_get agents agent_name with
          | None =>
              process_queue stop_condition polls calls_in_time
                (mkContState (cont_world st) queue (cont_results st)
                   (cont_calls st))
          | Some agent =>
              match
                format_call str_format (ar_prompt_template agent)
                  [("task", PStr (item_task item));
                   ("iteration", PInt (item_iteration item))] ∅
              with
              | inl e =>
                  (mkContState (cont_world st) queue (cont_results st)
                     (cont_calls st), LoopRaised e)
              | inr prompt =>
                  let calls := cont_calls st ++ [(agent_name, prompt)] in
                  let answer :=
                    complete (ar_provider agent) (cont_world st)
                      [plain_message "user" prompt] in
                  match calls_in_time with
                  | O =>
                      (mkContState answer.1 queue (cont_results st) calls,
                       TimedOut)
                  | S calls_in_time =>
                      match answer with
                      | (w, inr response) =>
                          let result :=
                            mkExecutionResult agent_name (ar_role agent) true
                              (resp_content response) None
                              (item_iteration item) in
                          let results := cont_results st ++ [result] in
                          match stop_condition result with
                          | StopReturns true =>
                              (mkContState w queue results calls, StopMatched)
                          | StopReturns false =>
                              let queue :=
                                if nonempty_str
                                     (default "" (ar_next_agent agent))
                                   && (item_iteration item <? max_iterations)%Z
                                then
                                  queue
                                    ++ [mkQueueItem (resp_content response)
                                          (default "" (ar_next_agent agent))
                                          (item_iteration item + 1)]
                                else queue in
                              process_queue stop_condition polls calls_in_time
                                (mkContState w queue results calls)
                          | StopRaises e =>
                              process_queue stop_condition polls calls_in_time
                                (mkContState w queue
                                   (results
                                      ++ [mkExecutionResult agent_name
                                            (ar_role agent) false "" (Some e)
                                            0])
                                   calls)
                          | StopEscapes e =>
                              (mkContState w queue results calls, LoopRaised e)
                          end
                      | (w, inl e) =>
                          process_queue stop_condition polls calls_in_time
                            (mkContState w queue
                               (cont_results st
                                  ++ [mkExecutionResult agent_name
                                        (ar_role agent) false "" (Some e) 0])
                               calls)
                      end
                  end
              end
          end
      end
  end.

(** [execute_continuous] on an orchestrator whose task queue holds
    [task_queue]: the final state (world, queue, results, calls) and the
    returned result or the exception raised. *)
Definition execute_continuous (w : World) (task_queue : list QueueItem)
    (initial_task : string) (stop_condition : ExecutionResult -> StopOutcome)
    (polls calls_in_time : nat) : ContState * (Exception + WorkflowResult) :=
  match first_agent agents with
  | inl e => (mkContState w task_queue [] [], inl e)
  | inr first =>
      let st0 :=
        mkContState w (task_queue ++ [mkQueueItem initial_task first 0]) [] [] in
      match process_queue stop_condition polls calls_in_time st0 with
      | (st, LoopRaised e) => (st, inl e)
      | (st, _) =>
          let results := cont_results st in
          (st,
           inr (mkWorkflowResult (existsb er_success results) results
                  (last_content_if_success results)
                  (Z.of_nat (length results))))
      end
  end.

End Pipeline.
End Pipeline.

(** ** Vocabulary for the further properties *)

Module RunSpec.
Import AsyncOrchestrator.

(** The successful results of a run, in order. *)
Definition succeeded (results : list ExecutionResult) : list ExecutionResult :=
  filter (fun r => er_success r = true) results.

(** The results a chain of queue items can still produce: one for the
    item at the head of a queue and one for each successor the iteration
    cap [m] still allows. *)
Definition chain_budget (m : Z) (queue : list QueueItem) : nat :=
  match queue with
  | [] => O
  | item :: _ => S (Z.to_nat (m - item_iteration item))
  end.

Section RoundRobinRun.
Import RoundRobin.
Context {World : Type}.
Variable task : string.
Variable stop_condition : option (ExecutionResult -> StopOutcome).

Definition is_stopped (ex : RRExit) : bool :=
  match ex with RRStopped _ => true | _ => false end.

(** The stop condition matches [r]. *)
Definition stop_matches (r : ExecutionResult) : bool :=
  match check_stop stop_condition r with
  | StopReturns b => b
  | _ => false
  end.

(** [r] is a successful result on which the stop condition raises an
    exception that the handler catches. *)
Definition stop_raises (r : ExecutionResult) : bool :=
  er_success r
  && match check_stop stop_condition r with
     | StopRaises _ => true
     | _ => false
     end.

(** The results that record an exception of the stop condition, counted
    by the results on which it was raised. *)
Definition stop_failures (results : list ExecutionResult) : nat :=
  length (filter (fun r => stop_raises r = true) results).

(** What holds of the state of a round-robin run; [stopped] tells whether
    a stop condition has matched. *)
Definition rr_inv (stopped : bool) (st : @RRState World) : Prop :=
  length (rr_results st)
  = (length (rr_calls st) + stop_failures (rr_results st))%nat
  ∧ (∀ i r, rr_results st !! i = Some r → er_success r = true →
            er_iteration r = Z.of_nat i)
  ∧ (∀ i r, rr_results st !! i = Some r → er_success r = true →
            stop_matches r = true →
            stopped = true ∧ S i = length (rr_results st))
  ∧ rr_current_input st
    = default task (er_content <$> last (succeeded (rr_results st))).

End RoundRobinRun.

Section Continuous.
Context {World : Type}.
Variable max_iterations : Z.
Variable stop_condition : ExecutionResult -> StopOutcome.

(** What the consumer loop adds to a state whose queue holds at most one
    item: [rs] are the results and [k] is the number of provider calls. *)
Definition chain_effect (st st' : @ContState World) : Prop :=
  ∃ rs k,
    cont_results st' = cont_results st ++ rs
    ∧ length (cont_calls st') = (length (cont_calls st) + k)%nat
    ∧ (k ≤ chain_budget max_iterations (cont_queue st))%nat
    ∧ (length (succeeded rs) ≤ k)%nat
    ∧ (length rs ≤ k + stop_failures (Some stop_condition) rs)%nat
    ∧ (k + stop_failures (Some stop_condition) rs ≤ S (length rs))%nat
    ∧ (stop_failures (Some stop_condition) rs ≤ 1)%nat
    ∧ (∀ i r, rs !! i = Some r → (S i < length rs)%nat → er_success r = true)
    ∧ (∀ i r item,
         head (cont_queue st) = Some item → rs !! i = Some r →
         er_success r = true →
         er_iteration r = (item_iteration item + Z.of_nat i)%Z)
    ∧ (length (cont_queue st') ≤ 1)%nat.

End Continuous.

Section Parallel.
Context {World : Type}.
Variable agents : list (string * @AgentRole World).

(** The agents of the coroutines that are suspended in a provider call. *)
Definition awaiting (slots : list (@Slot World)) : list string :=
  omap (fun s => match s with Awaiting name _ _ => Some name | Ready _ => None end)
    slots.

Definition known (name : string) : bool :=
  match dict_get agents name with Some _ => true | None => false end.

End Parallel.

End RunSpec.

(** ** Vocabulary for the tool registry *)

Module RegistrySpec.
Section RegistrySpec.
Context {World : Type}.

(** The callback [execute] consults for a tool: the one given, if the
    tool requires confirmation. *)
Definition consulted (tool : ToolDefinition World)
    (confirm_callback : option (ConfirmCallback World))
    : option (ConfirmCallback World) :=
  if tool_requires_confirmation tool then confirm_callback else None.

(** The handler of [tool] is started in world [w0]: the world [execute]
    was called in, or the one the consulted callback left when it
    answered yes. *)
Definition handler_starts (tool : ToolDefinition World)
    (confirm_callback : option (ConfirmCallback World)) (w : World)
    (name : string) (arguments : Arguments) (w0 : World) : Prop :=
  match consulted tool confirm_callback with
  | Some cb => cb w name arguments = (w0, inr true)
  | None => w0 = w
  end.

(** No handler of the registry raises an exception that [except
    Exception] does not catch. *)
Definition contained (reg : gmap string (ToolDefinition World)) : Prop :=
  ∀ name tool w arguments w' e,
    reg !! name = Some tool →
    tool_handler tool w arguments ≠ (w', RaisesBaseException e).

End RegistrySpec.
End RegistrySpec.

(** ** Vocabulary for a whole task *)

Module TaskSpec.
Section TaskSpec.
Import CodingAgent.
Context {World : Type}.
Variable agent : @Agent World.

(** The content and the tool calls of the provider's answer to [history],
    as the turn function of the chosen mode gathers them; [None] if the
    request raises. *)
Definition turn_answer (stream_mode : bool) (w : World)
    (history : list Message) : option (string * list ToolCall) :=
  if stream_mode then
    match (consume_stream (stream (provider agent) w history).2 "" []).2 with
    | inr answer => Some answer
    | inl _ => None
    end
  else
    match (complete (provider agent) w history).2 with
    | inr response => Some (resp_content response, resp_tool_calls response)
    | inl _ => None
    end.

(** The provider answers every request of the chosen mode. *)
Definition provider_returns (stream_mode : bool) : Prop :=
  ∀ w history, turn_answer stream_mode w history ≠ None.

(** The confirmation callback, where the agent consults one, answers. *)
Definition callback_returns : Prop :=
  confirm_dangerous_tools (config agent) = true →
  ∀ cb, confirm_callback agent = Some cb →
  ∀ w name arguments, ∃ w' answer, cb w name arguments = (w', inr answer).

(** The assignments and yields a turn is made of. *)
Inductive step : @Run World → @Run World → Prop :=
| step_emit s r : step r (emit s r)
| step_emit_all ys r : step r (emit_all ys r)
| step_set_world w r : step r (set_world w r)
| step_record e r : step r (record e r)
| step_set_counter c r : step r (set_counter c r)
| step_set_iteration i r : step r (set_iteration i r)
| step_set_complete b r : step r (set_complete b r)
| step_set_last_response c r : step r (set_last_response c r)
| step_assistant content tool_calls r :
    step r (append_message (assistant_message content tool_calls) r)
| step_tool tc result r :
    step r (append_message (tool_message tc result) r).

Definition steps : @Run World → @Run World → Prop := rtc step.

(** A message written in reply to the user: by the assistant or by a
    tool. *)
Definition is_reply (m : Message) : Prop :=
  msg_role m = "assistant" ∨ msg_role m = "tool".

(** [r'] has the history of [r] with replies added, and has yielded what
    [r] had and possibly more. *)
Definition replies_added (r r' : @Run World) : Prop :=
  (∃ replies,
     messages (state r') = messages (state r) ++ replies
     ∧ Forall is_reply replies)
  ∧ yielded r `prefix_of` yielded r'
  ∧ trace r `prefix_of` trace r'.

(** Two runs that differ at most in what they have yielded. *)
Definition agree (a b : @Run World) : Prop :=
  world a = world b ∧ state a = state b ∧ trace a = trace b.

(** The exception a tool loop ended with, if any. *)
Definition raised {A : Type} (res : Exception + A) : option Exception :=
  match res with inl e => Some e | inr _ => None end.

(** [m] is the tool message for the call [tc]: it has the role of a tool
    and carries the call's name and id. *)
Definition answers (tc : ToolCall) (m : Message) : Prop :=
  msg_role m = "tool"
  ∧ msg_name m = Some (tc_name tc)
  ∧ msg_tool_call_id m = Some (tc_id tc).

(** What a tool loop over [tool_calls] leaves of its calls in the run:
    the calls executed are the first of those asked for, and the history
    gains one tool message for each of them, in order, except possibly
    for the last one when the loop raised. *)
Definition tool_replies (tool_calls : list ToolCall) (r r' : @Run World)
    (has_raised : bool) : Prop :=
  ∃ evs msgs,
    trace r' = trace r ++ evs
    ∧ messages (state r') = messages (state r) ++ msgs
    ∧ executed evs `prefix_of` tool_calls
    ∧ Forall2 answers (take (length msgs) (executed evs)) msgs
    ∧ (length msgs ≤ length (executed evs) ≤ S (length msgs))%nat
    ∧ (has_raised = false → length msgs = length (executed evs)).

(** An item of a stream after which the turn reads no further: an
    exception, or a chunk with a finish reason. *)
Definition ends_stream (item : Exception + StreamChunk) : bool :=
  match item with
  | inl _ => true
  | inr chunk => nonempty_str (default "" (chunk_finish_reason chunk))
  end.

(** [r'] continues [r] with [n] more requests to the provider, within the
    same iteration. *)
Definition asks (n : nat) (r r' : @Run World) : Prop :=
  iteration (state r') = iteration (state r)
  ∧ ∃ evs, trace r' = trace r ++ evs ∧ requests evs = n.

End TaskSpec.
End TaskSpec.

(** ** agent/session.py: adding a message *)

Module AutoCompact.
Import Compaction.

Section AddMessage.

(** [should_compact(session)]: the comparison of the token estimate with
    the float [max_tokens * compact_threshold], taken as given. *)
Variable should_compact : Session -> bool.

(** [add_message]; [now] is the time stamp a compaction would record.
    The compaction runs with its defaults: [keep_system=True],
    [keep_last_n=10], [summarize=True]. *)
Definition add_message (now : string) (session : Session) (message : Message)
    (auto_compact : bool) : Session :=
  let session :=
    mkSession (session_metadata session)
      (session_messages session ++ [message]) (session_context session) in
  if auto_compact && should_compact session then
    compact_session now session true 10 true
  else session.

End AddMessage.
End AutoCompact.

(** ** Vocabulary for sessions *)

Module SessionSpec.
Import Compaction.

(** A message the compaction may remove: any but a system message that is
    to be kept. *)
Definition removable (keep_system : bool) (m : Message) : bool :=
  negb (is_system m && keep_system).

(** What one message adds to the token estimate. *)
Definition token_cost (repr_tool_calls : list ToolCall -> string)
    (msg : Message) : Z :=
  (Z.of_nat (String.length (msg_content msg)) / 4
   + match msg_tool_calls msg with
     | Some (tc :: tcs) =>
         Z.of_nat (String.length (repr_tool_calls (tc :: tcs))) / 4
     | _ => 0
     end)%Z.

Definition sum_Z (l : list Z) : Z := foldr Z.add 0%Z l.

End SessionSpec.

(** ** orchestrator/workflow.py *)

Module Workflow.
Import AsyncOrchestrator.

Inductive ExecutionMode : Type :=
| SEQUENTIAL
| PARALLEL
| ROUND_ROBIN
| CONTINUOUS.

Record WorkflowStep : Type := mkWorkflowStep {
  step_agent : string;
  step_role : string;
  step_prompt_template : string;
  step_timeout : Z;
  step_optional : bool;
}.

(** [StopCondition]; [value] is whatever the configuration file holds: a
    string, an integer, or nothing. *)
Record StopCondition : Type := mkStopCondition {
  sc_type : string;
  sc_value : option PyValue;
  sc_agent : option string;
}.

Record WorkflowConfig : Type := mkWorkflowConfig {
  wf_name : string;
  wf_mode : ExecutionMode;
  wf_steps : list WorkflowStep;
  wf_stop_conditions : list StopCondition;
  wf_max_rounds : Z;
  wf_merge_strategy : string;
}.

(** [needle in hay] on strings *)
Fixpoint str_contains (needle hay : string) : bool :=
  String.prefix needle hay
  || match hay with
     | EmptyString => false
     | String _ rest => str_contains needle rest
     end.

(** [value or d]: [d] replaces a missing value, [0] and the empty
    string. *)
Definition value_or (value : option PyValue) (d : Z) : PyValue :=
  match value with
  | None => PInt d
  | Some (PInt 0) => PInt d
  | Some (PStr EmptyString) => PInt d
  | Some v => v
  end.

Definition indicators : list string :=
  ["should"; "could"; "recommend"; "suggest"; "consider"].

(** [d[k] = v] on a dictionary in insertion order: a key already there
    keeps its place. *)
Fixpoint dict_set {V : Type} (d : list (string * V)) (k : string) (v : V)
    : list (string * V) :=
  match d with
  | [] => [(k, v)]
  | (k', v') :: rest =>
      if String.eqb k' k then (k', v) :: rest
      else (k', v') :: dict_set rest k v
  end.

Section Engine.
Context {World : Type}.

(** [str.lower] of the Python library *)
Variable str_lower : string -> string.

(** [StopCondition.check]; the comparisons raise when [value] has a type
    they do not accept. *)
Definition check (c : StopCondition) (result : ExecutionResult)
    : Exception + bool :=
  if String.eqb (sc_type c) "keyword" then
    match sc_value c with
    | Some (PStr v) =>
        inr (str_contains (str_lower v) (str_lower (er_content result)))
    | Some (PInt _) => inl "'int' object has no attribute 'lower'"
    | None => inl "'NoneType' object has no attribute 'lower'"
    end
  else if String.eqb (sc_type c) "no_suggestions" then
    let count :=
      length (filter (fun ind =>
                        str_contains ind (str_lower (er_content result)) = true)
                indicators) in
    match value_or (sc_value c) 2 with
    | PInt n => inr (Z.of_nat count <? n)%Z
    | PStr _ => inl "'<' not supported between instances of 'int' and 'str'"
    end
  else if String.eqb (sc_type c) "approval" then
    inr (str_contains "approved" (str_lower (er_content result))
         || str_contains "lgtm" (str_lower (er_content result)))
  else if String.eqb (sc_type c) "max_iterations" then
    match value_or (sc_value c) 10 with
    | PInt n => inr (n <=? er_iteration result)%Z
    | PStr _ => inl "'>=' not supported between instances of 'int' and 'str'"
    end
  else inr false.

(** [check_stop] of [execute_workflow]:
    [any(cond.check(result) for cond in workflow.stop_conditions)] *)
Fixpoint check_stop (conditions : list StopCondition) (result : ExecutionResult)
    : Exception + bool :=
  match conditions with
  | [] => inr false
  | cond :: rest =>
      match check cond result with
      | inl e => inl e
      | inr true => inr true
      | inr false => check_stop rest result
      end
  end.

(** [WorkflowEngine.providers], a dictionary in insertion order *)
Variable providers : list (string * BaseProvider World).

(** The provider for a step: the one registered under the agent's name,
    else the first whose name contains it, ignoring case. *)
Definition find_provider (agent : string) : option (BaseProvider World) :=
  match dict_get providers agent with
  | Some provider => Some provider
  | None =>
      snd <$> List.find (fun kv =>
                           str_contains (str_lower agent) (str_lower kv.1))
                providers
  end.

(** [next_agent] for the step at index [i]; [steps[i + 1]] and [steps[0]]
    exist where they are read. *)
Definition next_agent_of (workflow : WorkflowConfig) (i : nat)
    : option string :=
  if (Z.of_nat i <? Z.of_nat (length (wf_steps workflow)) - 1)%Z then
    step_agent <$> wf_steps workflow !! S i
  else
    match wf_mode workflow with
    | CONTINUOUS => step_agent <$> wf_steps workflow !! O
    | _ => None
    end.

(** The [for i, step in enumerate(workflow.steps)] loop of
    [_build_agent_roles], from index [i]. *)
Fixpoint build_roles_loop (workflow : WorkflowConfig) (i : nat)
    (steps : list WorkflowStep) (roles : list (string * @AgentRole World))
    : list (string * @AgentRole World) :=
  match steps with
  | [] => roles
  | step :: rest =>
      match find_provider (step_agent step) with
      | None => build_roles_loop workflow (S i) rest roles
      | Some provider =>
          build_roles_loop workflow (S i) rest
            (dict_set roles (step_agent step)
               (mkAgentRole (step_agent step) provider (step_role step)
                  (step_prompt_template step) (next_agent_of workflow i)))
      end
  end.

Definition _build_agent_roles (workflow : WorkflowConfig)
    : list (string * @AgentRole World) :=
  build_roles_loop workflow 0 (wf_steps workflow) [].

End Engine.
End Workflow.

(** ** Vocabulary for workflows *)

Module WorkflowSpec.
Import AsyncOrchestrator Workflow.

(** The last step from index [i] on that names [agent], with its index. *)
Fixpoint last_step_named (agent : string) (i : nat) (steps : list WorkflowStep)
    : option (nat * WorkflowStep) :=
  match steps with
  | [] => None
  | step :: rest =>
      match last_step_named agent (S i) rest with
      | Some found => Some found
      | None =>
          if String.eqb (step_agent step) agent then Some (i, step) else None
      end
  end.

End WorkflowSpec.

(** ** providers/claude.py: the messages sent to the API *)

Module ClaudeProvider.

Inductive ContentBlock : Type :=
| TextBlock (text : string)
| ToolUseBlock (id name : string) (input : Arguments)
| ToolResultBlock (tool_use_id : option string) (content : string).

(** The ["content"] of a message: a string or a list of blocks. *)
Inductive Content : Type :=
| ContentText (text : string)
| ContentBlocks (blocks : list ContentBlock).

Record AnthropicMessage : Type := mkAnthropicMessage {
  am_role : string;
  am_content : Content;
}.

(** The blocks built for an assistant message. *)
Definition assistant_blocks (msg : Message) : list ContentBlock :=
  (if nonempty_str (msg_content msg) then [TextBlock (msg_content msg)] else [])
  ++ match msg_tool_calls msg with
     | Some tool_calls =>
         map (fun tc => ToolUseBlock (tc_id tc) (tc_name tc) (tc_arguments tc))
           tool_calls
     | None => []
     end.

(** The body of the [for msg in messages] loop of [_convert_messages]. *)
Definition convert_step (acc : string * list AnthropicMessage) (msg : Message)
    : string * list AnthropicMessage :=
  let '(system, anthropic_messages) := acc in
  if String.eqb (msg_role msg) "system" then (msg_content msg, anthropic_messages)
  else if String.eqb (msg_role msg) "user" then
    (system,
     anthropic_messages
       ++ [mkAnthropicMessage "user" (ContentText (msg_content msg))])
  else if String.eqb (msg_role msg) "assistant" then
    let content := assistant_blocks msg in
    (system,
     anthropic_messages
       ++ [mkAnthropicMessage "assistant"
             (if nonempty content then ContentBlocks content
              else ContentText (msg_content msg))])
  else if String.eqb (msg_role msg) "tool" then
    (system,
     anthropic_messages
       ++ [mkAnthropicMessage "user"
             (ContentBlocks
                [ToolResultBlock (msg_tool_call_id msg) (msg_content msg)])])
  else (system, anthropic_messages).

(** [_convert_messages]: [(system, anthropic_messages)] *)
Definition _convert_messages (messages : list Message)
    : string * list AnthropicMessage :=
  foldl convert_step ("", []) messages.

End ClaudeProvider.

(** ** Further demonstration objects *)

Section DemoMore.
Import SessionManager AsyncOrchestrator Workflow.

(** An agent whose model answers in plain text. *)
Definition demo_plain_agent : CodingAgent.Agent :=
  CodingAgent.mkAgent (echo_provider "Sure: ") demo_config demo_tools None.

(** A stream of two chunks, the second carrying the finish reason. *)
Definition demo_chunks : list (Exception + StreamChunk) :=
  [inr (mkStreamChunk "Let me " [] None);
   inr (mkStreamChunk "look." [] (Some "stop"))].

(** A session of four messages. *)
Definition demo_long_session : Session :=
  mkSession demo_metadata
    [demo_system; demo_user "first"; demo_user "second"; demo_user "third"] ∅.

(** A session whose history holds ten system messages. *)
Definition demo_crowded_session : Session :=
  mkSession demo_metadata (replicate 10 demo_system) ∅.

(** [str.lower] on ASCII strings. *)
Definition ascii_lower (c : ascii) : ascii :=
  let n := nat_of_ascii c in
  if (65 <=? n)%nat && (n <=? 90)%nat then ascii_of_nat (n + 32) else c.

Fixpoint demo_lower (s : string) : string :=
  match s with
  | EmptyString => EmptyString
  | String c rest => String (ascii_lower c) (demo_lower rest)
  end.

Definition demo_providers : list (string * BaseProvider unit) :=
  [("coder", echo_provider "CODE for ");
   ("reviewer", echo_provider "REVIEW of ")].

Definition demo_workflow : WorkflowConfig :=
  mkWorkflowConfig "implement-and-review" SEQUENTIAL
    [mkWorkflowStep "coder" "implement" "Implement: {task}" 300 false;
     mkWorkflowStep "reviewer" "review" "Review: {task}" 300 false]
    [] 3 "combine".

(** A stop condition that matches the reviewer's results and fails on
    anyone else's. *)
Definition demo_stop (r : ExecutionResult) : StopOutcome :=
  if String.eqb (er_agent_name r) "reviewer" then StopReturns true
  else StopRaises "KeyError: 'verdict'".

End DemoMore.

(** * Properties *)

(** ** Compaction *)

Section CompactionFacts.
Import Compaction CompactionSpec.

Lemma partition_loop_budget keep_system keep_last_n n msgs :
  ∀ new_messages removed_messages,
    partition_loop keep_system keep_last_n n msgs new_messages removed_messages
    = let '(kept, dropped) :=
        drop_oldest keep_system
          (Z.to_nat (Z.of_nat n - keep_last_n
                     - Z.of_nat (length removed_messages))) msgs in
      (new_messages ++ kept, removed_messages ++ dropped).
Proof.
  induction msgs as [|m rest IH]; intros new_messages removed_messages; simpl.
  - by rewrite !app_nil_r.
  - destruct (is_system m && keep_system) eqn:Hsys.
    + rewrite IH.
      destruct (drop_oldest _ _ rest) as [kept dropped].
      by rewrite <- app_assoc.
    + destruct (Z.ltb_spec (Z.of_nat n - Z.of_nat (length removed_messages) - 1)
                  keep_last_n) as [Hlt|Hge].
      * replace (Z.to_nat _) with O by lia.
        rewrite IH. replace (Z.to_nat _) with O by lia.
        destruct (drop_oldest _ _ rest) as [kept dropped].
        by rewrite <- app_assoc.
      * destruct (Z.to_nat (Z.of_nat n - keep_last_n
                             - Z.of_nat (length removed_messages)))
          as [|b] eqn:Hb; [lia|].
        rewrite IH, length_app. simpl.
        replace (Z.to_nat _) with b by lia.
        destruct (drop_oldest _ _ rest) as [kept dropped].
        by rewrite <- app_assoc.
Qed.

Lemma partition_messages_budget keep_system keep_last_n messages :
  partition_messages keep_system keep_last_n messages
  = drop_oldest keep_system
      (Z.to_nat (Z.of_nat (length messages) - keep_last_n)) messages.
Proof.
  unfold partition_messages. rewrite partition_loop_budget. simpl.
  rewrite Z.sub_0_r. by destruct (drop_oldest _ _ messages).
Qed.

Lemma non_system_true m : non_system m = true ↔ is_system m = false.
Proof. unfold non_system. by destruct (is_system m). Qed.

Lemma count_non_system_cons m rest :
  count_non_system (m :: rest)
  = ((if is_system m then 0 else 1) + count_non_system rest)%nat.
Proof.
  unfold count_non_system. destruct (is_system m) eqn:Hsys.
  - rewrite filter_cons_False; [done|]. rewrite non_system_true. congruence.
  - rewrite filter_cons_True; [done|]. by rewrite non_system_true.
Qed.

Lemma count_system_cons m rest :
  count_system (m :: rest)
  = ((if is_system m then 1 else 0) + count_system rest)%nat.
Proof.
  unfold count_system. destruct (is_system m) eqn:Hsys.
  - by rewrite filter_cons_True.
  - rewrite filter_cons_False; [done|]. congruence.
Qed.

Lemma count_split l : (count_system l + count_non_system l = length l)%nat.
Proof.
  induction l as [|m rest IH]; [done|].
  rewrite count_system_cons, count_non_system_cons. simpl.
  destruct (is_system m); lia.
Qed.

Lemma keep_system_and_recent_all k l :
  (count_non_system l ≤ k)%nat → keep_system_and_recent k l = l.
Proof.
  induction l as [|m rest IH]; [done|]. rewrite count_non_system_cons. simpl.
  destruct (is_system m); simpl; intros Hk.
  - by rewrite IH.
  - destruct (Nat.ltb_spec (count_non_system rest) k); [|lia].
    rewrite IH; [done|lia].
Qed.

Lemma drop_oldest_keep_system budget l :
  (drop_oldest true budget l).1
  = keep_system_and_recent (count_non_system l - budget) l.
Proof.
  revert budget. induction l as [|m rest IH]; intros budget; [done|].
  rewrite count_non_system_cons. simpl.
  rewrite andb_true_r. destruct (is_system m) eqn:Hsys; simpl.
  - specialize (IH budget). destruct (drop_oldest true budget rest). simpl in *.
    by rewrite IH.
  - destruct budget as [|b].
    + specialize (IH O). destruct (drop_oldest true 0 rest) as [kept dropped].
      simpl in *. rewrite Nat.sub_0_r in IH.
      destruct (Nat.ltb_spec (count_non_system rest)
                  (S (count_non_system rest))); [|lia].
      rewrite IH. f_equal.
      rewrite !keep_system_and_recent_all; [done|lia..].
    + specialize (IH b). destruct (drop_oldest true b rest) as [kept dropped].
      simpl in *.
      destruct (Nat.ltb_spec (count_non_system rest)
                  (count_non_system rest - b)); [lia|done].
Qed.

(** The retained history keeps every system message and, of the others,
    as many of the most recent as fit a total of [keep_last_n]. *)
Lemma retained_keep_system keep_last_n messages :
  (keep_last_n < Z.of_nat (length messages))%Z →
  retained true keep_last_n messages
  = keep_system_and_recent
      (Z.to_nat (keep_last_n - Z.of_nat (count_system messages))) messages.
Proof.
  intros Hn. unfold retained.
  rewrite partition_messages_budget, drop_oldest_keep_system.
  f_equal. pose proof (count_split messages). lia.
Qed.

Lemma keep_system_and_recent_system k l :
  filter (fun m => is_system m = true) (keep_system_and_recent k l)
  = filter (fun m => is_system m = true) l.
Proof.
  induction l as [|m rest IH]; [done|]. simpl.
  destruct (is_system m) eqn:Hsys.
  - rewrite !filter_cons_True by done. by rewrite IH.
  - rewrite (filter_cons_False _ m rest) by congruence.
    destruct (count_non_system rest <? k)%nat; [|done].
    by rewrite filter_cons_False by congruence.
Qed.

Lemma keep_system_and_recent_others k l :
  filter (fun m => non_system m = true) (keep_system_and_recent k l)
  = most_recent k (filter (fun m => non_system m = true) l).
Proof.
  unfold most_recent.
  induction l as [|m rest IH]; [done|]. simpl.
  destruct (is_system m) eqn:Hsys.
  - rewrite !filter_cons_False by (rewrite non_system_true; congruence).
    apply IH.
  - rewrite (filter_cons_True _ m rest) by (by rewrite non_system_true).
    simpl. fold (count_non_system rest).
    destruct (Nat.ltb_spec (count_non_system rest) k) as [Hlt|Hge].
    + rewrite filter_cons_True by (by rewrite non_system_true).
      replace (S (count_non_system rest) - k)%nat with O by lia. simpl.
      rewrite IH. fold (count_non_system rest).
      replace (count_non_system rest - k)%nat with O by lia.
      done.
    + rewrite IH. fold (count_non_system rest).
      replace (S (count_non_system rest) - k)%nat
        with (S (count_non_system rest - k)) by lia.
      done.
Qed.

Lemma keep_system_and_recent_sublist k l :
  sublist (keep_system_and_recent k l) l.
Proof.
  induction l as [|m rest IH]; [constructor|]. simpl.
  destruct (is_system m); [by constructor|].
  destruct (count_non_system rest <? k)%nat; by constructor.
Qed.

End CompactionFacts.

Section CompactionClaims.
Import Compaction CompactionSpec.

Lemma compact_session_noop now session keep_system keep_last_n summarize :
  (Z.of_nat (length (session_messages session)) ≤ keep_last_n)%Z →
  compact_session now session keep_system keep_last_n summarize = session.
Proof.
  intros Hn. unfold compact_session.
  by destruct (Z.leb_spec (Z.of_nat (length (session_messages session)))
                 keep_last_n); [|lia].
Qed.

Lemma compact_session_messages now session keep_system keep_last_n summarize :
  (keep_last_n < Z.of_nat (length (session_messages session)))%Z →
  session_messages
    (compact_session now session keep_system keep_last_n summarize)
  = compacted_messages keep_system keep_last_n summarize
      (session_messages session).
Proof.
  intros Hn. unfold compact_session.
  by destruct (Z.leb_spec (Z.of_nat (length (session_messages session)))
                 keep_last_n); [lia|].
Qed.

Lemma compacted_messages_unfold keep_system keep_last_n summarize messages :
  compacted_messages keep_system keep_last_n summarize messages
  = if summarize && nonempty (removed keep_system keep_last_n messages) then
      list_insert_at (insert_idx (retained keep_system keep_last_n messages))
        (summary_msg (removed keep_system keep_last_n messages))
        (retained keep_system keep_last_n messages)
    else retained keep_system keep_last_n messages.
Proof.
  unfold compacted_messages, retained, removed.
  by destruct (partition_messages keep_system keep_last_n messages).
Qed.

(** C3: [compact_session] does not do what its documentation says
    ("Always keep system message", "Keep last N messages", [keep_last_n]:
    "Number of recent messages to keep"), which is what the claim states:
    with one system message and [keep_last_n = 2], a history of three
    messages keeps the system message and only the single most recent
    other message, not the two most recent. *)
Lemma compact_keeps_fewer_than_keep_last_n :
  let messages := [demo_system; demo_user "first"; demo_user "second"] in
  (2 < Z.of_nat (length messages))%Z
  ∧ retained true 2 messages = [demo_system; demo_user "second"]
  ∧ keep_system_and_recent 2 messages
    = [demo_system; demo_user "first"; demo_user "second"]
  ∧ retained true 2 messages ≠ keep_system_and_recent 2 messages.
Proof. vm_compute. repeat split; discriminate. Qed.

(** What the code keeps instead.  With [keep_system = true],
    [compact_session] returns the session unchanged when it has at most
    [keep_last_n] messages; otherwise the retained history, before a
    summary is inserted, is every system message together with the
    [keep_last_n - s] most recent of the other messages ([s] the number
    of system messages; none if that is not positive), in their original
    order: the system messages count against [keep_last_n].  The stored
    list is that history, with the summary message inserted when one is
    synthesized. *)
Lemma compact_retains_system_and_recent
    now session keep_last_n summarize :
  let messages := session_messages session in
  let kept := retained true keep_last_n messages in
  let dropped := removed true keep_last_n messages in
  let j := Z.to_nat (keep_last_n - Z.of_nat (count_system messages)) in
  ((Z.of_nat (length messages) ≤ keep_last_n)%Z →
   compact_session now session true keep_last_n summarize = session)
  ∧ ((keep_last_n < Z.of_nat (length messages))%Z →
     kept = keep_system_and_recent j messages
     ∧ filter (fun m => is_system m = true) kept
       = filter (fun m => is_system m = true) messages
     ∧ filter (fun m => non_system m = true) kept
       = most_recent j (filter (fun m => non_system m = true) messages)
     ∧ sublist kept messages
     ∧ session_messages
         (compact_session now session true keep_last_n summarize)
       = if summarize && nonempty dropped then
           list_insert_at (insert_idx kept) (summary_msg dropped) kept
         else kept).
Proof.
  intros messages kept dropped j. split.
  - apply compact_session_noop.
  - intros Hn. subst kept j.
    rewrite compact_session_messages, compacted_messages_unfold by done.
    rewrite (retained_keep_system _ _ Hn).
    split_and!; try done.
    + apply keep_system_and_recent_system.
    + apply keep_system_and_recent_others.
    + apply keep_system_and_recent_sublist.
    + subst dropped messages. by rewrite (retained_keep_system _ _ Hn).
Qed.

Lemma compact_retains_system_and_recent_example :
  retained true 2 [demo_system; demo_user "first"; demo_user "second"]
  = keep_system_and_recent 1
      [demo_system; demo_user "first"; demo_user "second"].
Proof.
  pose proof (compact_retains_system_and_recent "2025-01-01T10:05:00"
                (mkSession demo_metadata
                   [demo_system; demo_user "first"; demo_user "second"] ∅)
                2 true) as [_ H].
  simpl in H. destruct (H ltac:(lia)) as [H1 _]. exact H1.
Defined.

(** *** Running the compaction twice *)

Lemma drop_oldest_lengths keep_system budget l :
  (length (drop_oldest keep_system budget l).1
   + length (drop_oldest keep_system budget l).2 = length l)%nat.
Proof.
  revert budget. induction l as [|m rest IH]; intros budget; [done|]. simpl.
  destruct (is_system m && keep_system).
  - specialize (IH budget). destruct (drop_oldest keep_system budget rest).
    simpl in *. lia.
  - destruct budget as [|b].
    + specialize (IH O). destruct (drop_oldest keep_system 0 rest).
      simpl in *. lia.
    + specialize (IH b). destruct (drop_oldest keep_system b rest).
      simpl in *. lia.
Qed.

(** Either the budget of removals is used up, or only system messages
    that are to be kept are left. *)
Lemma drop_oldest_exhausts keep_system budget l :
  length (drop_oldest keep_system budget l).2 = budget
  ∨ Forall (fun m => is_system m && keep_system = true)
      (drop_oldest keep_system budget l).1.
Proof.
  revert budget. induction l as [|m rest IH]; intros budget.
  - right. constructor.
  - simpl. destruct (is_system m && keep_system) eqn:Hsys.
    + specialize (IH budget). destruct (drop_oldest keep_system budget rest).
      simpl in *. destruct IH as [IH|IH]; [by left|right; by constructor].
    + destruct budget as [|b].
      * left. pose proof (IH O) as IH0.
        destruct (drop_oldest keep_system 0 rest) as [kept dropped] eqn:E.
        simpl in *. clear IH0.
        assert (Hd : ∀ l', (drop_oldest keep_system 0 l').2 = []).
        { clear. induction l' as [|m' l' IHl']; [done|]. simpl.
          destruct (is_system m' && keep_system);
            destruct (drop_oldest keep_system 0 l'); simpl in *; done. }
        specialize (Hd rest). rewrite E in Hd. simpl in Hd. by subst.
      * specialize (IH b). destruct (drop_oldest keep_system b rest).
        simpl in *. destruct IH as [IH|IH]; [left; lia|by right].
Qed.

Lemma drop_oldest_all_kept keep_system budget l :
  Forall (fun m => is_system m && keep_system = true) l →
  drop_oldest keep_system budget l = (l, []).
Proof.
  induction 1 as [|m rest Hm _ IH]; [done|]. simpl. by rewrite Hm, IH.
Qed.

Lemma retained_twice keep_system keep_last_n messages :
  (keep_last_n < Z.of_nat (length messages))%Z →
  let kept := retained keep_system keep_last_n messages in
  (Z.of_nat (length kept) ≤ keep_last_n)%Z
  ∨ (retained keep_system keep_last_n kept = kept
     ∧ removed keep_system keep_last_n kept = []).
Proof.
  intros Hn kept. subst kept. unfold retained, removed.
  rewrite !partition_messages_budget.
  set (b := Z.to_nat (Z.of_nat (length messages) - keep_last_n)).
  pose proof (drop_oldest_lengths keep_system b messages) as Hlen.
  destruct (drop_oldest_exhausts keep_system b messages) as [Hb|Hall].
  - left. lia.
  - right. by rewrite (drop_oldest_all_kept _ _ _ Hall).
Qed.

(** C6, as stated, fails: the summary message makes the compacted history
    one longer than [keep_last_n], so a second call removes one more
    message and synthesizes a new summary. *)
Lemma compact_twice_differs :
  let session :=
    mkSession demo_metadata
      [demo_system; demo_user "first"; demo_user "second"; demo_user "third"]
      ∅ in
  let once := compact_session "2025-01-01T10:05:00" session true 2 true in
  let twice := compact_session "2025-01-01T10:05:00" once true 2 true in
  length (session_messages once) = 3%nat
  ∧ last (session_messages once) = Some (demo_user "third")
  ∧ last (session_messages twice) ≠ Some (demo_user "third")
  ∧ session_messages twice ≠ session_messages once.
Proof. vm_compute. repeat split; discriminate. Qed.

(** C6 (amended): a session with at most [keep_last_n] messages is left
    unchanged by [compact_session]; and with [summarize = false] a second
    call with the same parameters leaves the message list as the first
    call produced it. *)
Theorem compact_idempotent_without_summary
    now now' session keep_system keep_last_n :
  (∀ summarize,
     (Z.of_nat (length (session_messages session)) ≤ keep_last_n)%Z →
     compact_session now session keep_system keep_last_n summarize = session)
  ∧ session_messages
      (compact_session now'
         (compact_session now session keep_system keep_last_n false)
         keep_system keep_last_n false)
    = session_messages
        (compact_session now session keep_system keep_last_n false).
Proof.
  split; [intros; by apply compact_session_noop|].
  destruct (Z.le_gt_cases (Z.of_nat (length (session_messages session)))
              keep_last_n) as [Hle|Hgt].
  - rewrite (compact_session_noop now) by done.
    by rewrite compact_session_noop.
  - set (once := compact_session now session keep_system keep_last_n false).
    assert (Honce : session_messages once
                    = retained keep_system keep_last_n
                        (session_messages session)).
    { subst once. rewrite compact_session_messages by lia.
      by rewrite compacted_messages_unfold. }
    destruct (retained_twice keep_system keep_last_n
                (session_messages session) ltac:(lia)) as [Hshort|[Hsame _]].
    + rewrite compact_session_noop; [done|]. by rewrite Honce.
    + destruct (Z.le_gt_cases (Z.of_nat (length (session_messages once)))
                  keep_last_n) as [Hle'|Hgt'].
      * by rewrite compact_session_noop.
      * rewrite compact_session_messages by lia.
        rewrite compacted_messages_unfold. simpl.
        by rewrite Honce.
Qed.

Lemma compact_idempotent_without_summary_witness :
  let session :=
    mkSession demo_metadata
      [demo_system; demo_user "first"; demo_user "second"; demo_user "third"]
      ∅ in
  compact_session "2025-01-01T10:05:00" session true 4 true = session
  ∧ session_messages
      (compact_session "2025-01-01T10:06:00"
         (compact_session "2025-01-01T10:05:00" session true 2 false)
         true 2 false)
    = [demo_system; demo_user "third"].
Proof.
  intros session.
  destruct (compact_idempotent_without_summary "2025-01-01T10:05:00"
              "2025-01-01T10:06:00" session true 4) as [Hnoop _].
  destruct (compact_idempotent_without_summary "2025-01-01T10:05:00"
              "2025-01-01T10:06:00" session true 2) as [_ Htwice].
  split; [apply Hnoop; simpl; lia|].
  rewrite Htwice. reflexivity.
Defined.

End CompactionClaims.

(** ** Session store: delete *)

Section SessionStoreClaims.
Import SessionManager.

(** C10: [delete] removes the session file if there is one and leaves
    every other file alone; the flag it returns tells whether the id was
    in the in-memory cache, whatever the disk held.  So for a session
    that is on disk but not in the cache the file is removed and the
    answer is [false]. *)
Theorem delete_reports_cache_not_disk (m : t) (disk : Disk) (session_id : string) :
  let session_path := _get_session_path m session_id in
  let '(m', disk', deleted) := delete m disk session_id in
  disk' = base.delete session_path disk
  ∧ disk' !! session_path = None
  ∧ deleted = bool_decide (is_Some (_sessions m !! session_id))
  ∧ _sessions m' = base.delete session_id (_sessions m)
  ∧ (is_Some (disk !! session_path) → _sessions m !! session_id = None →
     deleted = false ∧ disk' !! session_path = None).
Proof.
  intros session_path. unfold delete. fold session_path.
  assert (Hdisk :
    match disk !! session_path with
    | Some _ => base.delete session_path disk
    | None => disk
    end = base.delete session_path disk).
  { destruct (disk !! session_path) eqn:E; [done|].
    symmetry. by apply delete_id. }
  rewrite Hdisk.
  destruct (_sessions m !! session_id) eqn:Hc.
  - split_and!; try done; apply lookup_delete_eq.
  - assert (Hm : base.delete session_id (_sessions m) = _sessions m)
      by (by apply delete_id).
    split_and!; try done; try apply lookup_delete_eq.
    intros _ _. split; [done|apply lookup_delete_eq].
Qed.

(** A second manager over the same directory never loaded the session its
    file holds: [delete] removes the file and answers [false]. *)
Lemma delete_reports_cache_not_disk_witness :
  let disk := demo_saved.1.2 in
  let other := init demo_dir 100000 in
  is_Some (disk !! _get_session_path other "3f9a1c0b77de")
  ∧ (delete other disk "3f9a1c0b77de").2 = false
  ∧ (delete other disk "3f9a1c0b77de").1.2
      !! _get_session_path other "3f9a1c0b77de" = None.
Proof.
  intros disk other.
  pose proof (delete_reports_cache_not_disk other disk "3f9a1c0b77de") as H.
  cbv zeta in H.
  destruct (delete other disk "3f9a1c0b77de") as [[m' disk'] deleted].
  destruct H as (_ & _ & _ & _ & H).
  assert (Hfile : is_Some (disk !! _get_session_path other "3f9a1c0b77de")).
  { vm_compute. eauto. }
  split; [exact Hfile|]. apply H; [exact Hfile|reflexivity].
Defined.

End SessionStoreClaims.

(** ** Turn executor: what a step may change *)

Section TurnFacts.
Import CodingAgent.
Context {World : Type}.
Variable agent : @Agent World.

Local Abbreviation cap := (max_tool_calls_per_turn (config agent)).
Local Abbreviation continues := (TurnSpec.continues agent).
Local Abbreviation extends := (TurnSpec.extends agent).

Lemma executed_app (a b : list Event) : executed (a ++ b) = executed a ++ executed b.
Proof. apply omap_app. Qed.

Lemma counter_values_app (a b : list Event) :
  counter_values (a ++ b) = counter_values a ++ counter_values b.
Proof. apply omap_app. Qed.

Lemma requests_app (a b : list Event) :
  requests (a ++ b) = (requests a + requests b)%nat.
Proof. unfold requests. by rewrite filter_app, length_app. Qed.

Lemma cap_markers_app (a b : list Event) :
  cap_markers (a ++ b) = (cap_markers a + cap_markers b)%nat.
Proof. unfold cap_markers. by rewrite filter_app, length_app. Qed.

Lemma continues_refl r : continues r r.
Proof.
  split_and!; [done..|]. exists []. rewrite app_nil_r. simpl.
  split_and!; [done|constructor|lia|done].
Qed.

Lemma continues_trans r1 r2 r3 :
  continues r1 r2 → continues r2 r3 → continues r1 r3.
Proof.
  intros (Hi1 & Hm1 & evs1 & Ht1 & Hc1 & Hn1 & Hb1)
         (Hi2 & Hm2 & evs2 & Ht2 & Hc2 & Hn2 & Hb2).
  split_and!; [congruence|by etrans|].
  exists (evs1 ++ evs2). rewrite Ht2, Ht1, <- app_assoc.
  rewrite counter_values_app, executed_app, length_app, Forall_app.
  split_and!; try done; [lia|tauto].
Qed.

(** Steps that touch neither the counter nor the iteration count. *)
Lemma continues_quiet (r : @Run World) w msgs' ic lr ys tr' (e : list Event) :
  messages (state r) `prefix_of` msgs' →
  tr' = trace r ++ e →
  counter_values e = [] → executed e = [] →
  continues r
    (mkRun w (mkAgentState msgs' (iteration (state r))
                (tool_calls_this_turn (state r)) ic lr) ys tr').
Proof.
  intros Hm -> Hc He. split_and!; [done..|]. exists e. simpl.
  rewrite Hc, He. simpl. split_and!; [done|constructor|lia|done].
Qed.

Ltac quiet_step r evs :=
  destruct r as [? [? ? ? ? ?] ? ?];
  apply continues_quiet with (e := evs); simpl; rewrite ?app_nil_r;
  try done.

Lemma continues_emit s r : continues r (emit s r).
Proof. quiet_step r (@nil Event). Qed.

Lemma continues_emit_all ys r : continues r (emit_all ys r).
Proof. quiet_step r (@nil Event). Qed.

Lemma continues_set_world w r : continues r (set_world w r).
Proof. quiet_step r (@nil Event). Qed.

Lemma continues_append_message m r : continues r (append_message m r).
Proof. quiet_step r (@nil Event). by apply prefix_app_r. Qed.

Lemma continues_set_complete b r : continues r (set_complete b r).
Proof. quiet_step r (@nil Event). Qed.

Lemma continues_set_last_response c r : continues r (set_last_response c r).
Proof. quiet_step r (@nil Event). Qed.

Lemma continues_record_request h r : continues r (record (EvRequest h) r).
Proof. quiet_step r [EvRequest h]. Qed.

Lemma continues_record_cap r : continues r (record EvCapReached r).
Proof. quiet_step r [EvCapReached]. Qed.

(** One more tool call: the counter goes up by one and the call is handed
    to [tools.execute]. *)
Lemma continues_tool_call tc r :
  (tool_calls_this_turn (state r) < cap)%Z →
  continues r
    (record (EvExecute tc)
       (set_counter (tool_calls_this_turn (state r) + 1) r)).
Proof.
  intros Hlt. split_and!; [done..|].
  exists [EvCounter (tool_calls_this_turn (state r) + 1); EvExecute tc].
  simpl. rewrite <- app_assoc. simpl.
  split_and!; [done|repeat constructor; lia|lia|lia].
Qed.

Create HintDb turn.
#[local] Hint Resolve continues_refl continues_emit continues_emit_all
  continues_set_world continues_append_message continues_set_complete
  continues_set_last_response continues_record_request continues_record_cap
  : turn.

Ltac chain r2 := apply (continues_trans _ r2).

Lemma _execute_tools_continues tool_calls :
  ∀ r, continues r (_execute_tools agent tool_calls r).1.
Proof.
  induction tool_calls as [|tc rest IH]; intros r; simpl; [auto with turn|].
  destruct (Z.leb_spec cap (tool_calls_this_turn (state r))) as [Hge|Hlt].
  - cbn [fst]. chain (record EvCapReached r); auto with turn.
  - set (r1 := set_counter (tool_calls_this_turn (state r) + 1) r).
    set (r2 := emit _ r1). set (r3 := record (EvExecute tc) r2).
    assert (H3 : continues r r3).
    { change r3 with (emit (nl +:+ "🔧 Calling: " +:+ tc_name tc +:+ nl)
                        (record (EvExecute tc) r1)).
      chain (record (EvExecute tc) r1); [|auto with turn].
      by apply continues_tool_call. }
    destruct (call_tool agent tc (world r)) as [w [e|result]]; cbn [fst].
    + chain r3; auto with turn.
    + chain r3; [done|].
      eapply continues_trans; [|apply IH].
      chain (set_world w r3); [auto with turn|].
      chain (append_message (tool_message tc result) (set_world w r3));
        auto with turn.
Qed.

Lemma _execute_tools_sync_loop_continues tool_calls :
  ∀ results r,
    continues r (_execute_tools_sync_loop agent tool_calls results r).1.
Proof.
  induction tool_calls as [|tc rest IH]; intros results r; simpl;
    [auto with turn|].
  destruct (Z.leb_spec cap (tool_calls_this_turn (state r))) as [Hge|Hlt].
  - cbn [fst]. auto with turn.
  - set (r1 := set_counter (tool_calls_this_turn (state r) + 1) r).
    set (r3 := record (EvExecute tc) r1).
    assert (H3 : continues r r3) by (by apply continues_tool_call).
    destruct (call_tool agent tc (world r)) as [w [e|result]]; cbn [fst].
    + chain r3; auto with turn.
    + chain r3; [done|].
      eapply continues_trans; [|apply IH].
      chain (set_world w r3); auto with turn.
Qed.

Lemma _execute_tools_sync_continues tool_calls r :
  continues r (_execute_tools_sync agent tool_calls r).1.
Proof.
  unfold _execute_tools_sync.
  pose proof (_execute_tools_sync_loop_continues tool_calls [] r) as H.
  by destruct (_execute_tools_sync_loop agent tool_calls [] r) as [r' [e|rs]].
Qed.

Lemma _process_turn_continues r :
  continues r (_process_turn agent r).1.
Proof.
  unfold _process_turn.
  set (r1 := record (EvRequest (messages (state r))) r).
  assert (H1 : continues r r1) by (subst r1; auto with turn).
  destruct (complete (provider agent) (world r1) (messages (state r1)))
    as [w [e|response]]; cbn [fst].
  - chain r1; auto with turn.
  - set (r2 := append_message _ (set_world w r1)).
    assert (H2 : continues r r2).
    { chain r1; [done|]. chain (set_world w r1); subst r2; auto with turn. }
    destruct (nonempty (resp_tool_calls response)).
    + chain r2; [done|]. apply _execute_tools_sync_continues.
    + cbn [fst]. chain r2; [done|].
      chain (set_complete true r2); auto with turn.
Qed.

Lemma _process_turn_streaming_continues r :
  continues r (_process_turn_streaming agent r).1.
Proof.
  unfold _process_turn_streaming.
  set (r1 := record (EvRequest (messages (state r))) r).
  assert (H1 : continues r r1) by (subst r1; auto with turn).
  destruct (stream (provider agent) (world r1) (messages (state r1)))
    as [w items].
  destruct (consume_stream items "" []) as [ys [e|[full_content tcs]]]; cbn [fst].
  - chain r1; [done|]. chain (set_world w r1); auto with turn.
  - set (r2 := append_message _ (emit_all ys (set_world w r1))).
    assert (H2 : continues r r2).
    { chain r1; [done|]. chain (set_world w r1); [auto with turn|].
      chain (emit_all ys (set_world w r1)); subst r2; auto with turn. }
    destruct (nonempty tcs).
    + chain r2; [done|]. apply _execute_tools_continues.
    + cbn [fst]. chain r2; [done|].
      chain (set_complete true r2); auto with turn.
Qed.

Lemma continues_extends r r' : continues r r' → extends r r'.
Proof. by intros [_ H]. Qed.

Lemma extends_refl r : extends r r.
Proof. apply continues_extends, continues_refl. Qed.

Lemma extends_trans r1 r2 r3 : extends r1 r2 → extends r2 r3 → extends r1 r3.
Proof.
  intros (Hm1 & evs1 & Ht1 & Hc1 & Hn1 & Hb1)
         (Hm2 & evs2 & Ht2 & Hc2 & Hn2 & Hb2).
  split; [by etrans|].
  exists (evs1 ++ evs2). rewrite Ht2, Ht1, <- app_assoc.
  rewrite counter_values_app, executed_app, length_app, Forall_app.
  split_and!; try done; [lia|tauto].
Qed.

Lemma extends_set_iteration i r : extends r (set_iteration i r).
Proof.
  destruct r as [? [? ? ? ? ?] ? ?]. split; [done|]. exists []. simpl.
  rewrite app_nil_r. split_and!; [done|constructor|lia|done].
Qed.

Lemma process_loop_S fuel stream r :
  process_loop agent (S fuel) stream r
  = if negb (is_complete (state r))
       && (iteration (state r) <? max_iterations (config agent))%Z then
      let r := set_iteration (iteration (state r) + 1) r in
      if stream then
        match _process_turn_streaming agent r with
        | (r, Some e) => (r, Raised e)
        | (r, None) =>
            if is_complete (state r) then (r, Finished)
            else process_loop agent fuel stream r
        end
      else
        match _process_turn agent r with
        | (r, inl e) => (r, Raised e)
        | (r, inr response) =>
            let r := if nonempty_str response then emit response r else r in
            if is_complete (state r) then (r, Finished)
            else process_loop agent fuel stream r
        end
    else (r, Finished).
Proof. reflexivity. Qed.

Lemma iteration_set_iteration i (r : @Run World) :
  iteration (state (set_iteration i r)) = i.
Proof. by destruct r as [? [? ? ? ? ?] ? ?]. Qed.

(** The loop of [process_message] only extends the run, and a budget
    larger than the number of iterations still allowed is never used up. *)
Lemma process_loop_extends stream fuel :
  ∀ r,
    extends r (process_loop agent fuel stream r).1
    ∧ ((Z.to_nat (max_iterations (config agent) - iteration (state r)) < fuel)%nat →
       (process_loop agent fuel stream r).2 ≠ OutOfFuel).
Proof.
  induction fuel as [|fuel IH]; intros r.
  { split; [apply extends_refl|lia]. }
  rewrite process_loop_S.
  destruct (negb (is_complete (state r))); cbn [andb];
    [|split; [apply extends_refl|done]].
  destruct (Z.ltb_spec (iteration (state r)) (max_iterations (config agent)))
    as [Hlt|Hge]; [|split; [apply extends_refl|done]].
  cbv zeta.
  set (r1 := set_iteration (iteration (state r) + 1) r).
  assert (H1 : extends r r1) by apply extends_set_iteration.
  assert (Hi1 : iteration (state r1) = (iteration (state r) + 1)%Z)
    by apply iteration_set_iteration.
  destruct stream.
  - pose proof (_process_turn_streaming_continues r1) as H2.
    destruct (_process_turn_streaming agent r1) as [r2 [e|]]; cbn [fst] in H2.
    + split; [|done]. eapply extends_trans; [done|by apply continues_extends].
    + destruct (is_complete (state r2)).
      * split; [|done].
        eapply extends_trans; [done|by apply continues_extends].
      * destruct (IH r2) as [H3 Hf]. split.
        -- eapply extends_trans; [done|].
           eapply extends_trans; [by apply continues_extends|done].
        -- intros Hfuel. apply Hf. destruct H2 as [Hi2 _]. lia.
  - pose proof (_process_turn_continues r1) as H2.
    destruct (_process_turn agent r1) as [r2 [e|response]]; cbn [fst] in H2.
    + split; [|done]. eapply extends_trans; [done|by apply continues_extends].
    + set (r3 := if nonempty_str response then emit response r2 else r2).
      assert (H3 : continues r1 r3).
      { subst r3. destruct (nonempty_str response); [|done].
        eapply continues_trans; [done|apply continues_emit]. }
      destruct (is_complete (state r3)).
      * split; [|done].
        eapply extends_trans; [done|by apply continues_extends].
      * destruct (IH r3) as [H4 Hf]. split.
        -- eapply extends_trans; [done|].
           eapply extends_trans; [by apply continues_extends|done].
        -- intros Hfuel. apply Hf. destruct H3 as [Hi3 _]. lia.
Qed.

End TurnFacts.

(** ** Turn executor: the cap on tool calls *)

Section TurnClaims.
Import CodingAgent.
Context {World : Type}.
Variable agent : @Agent World.

Local Abbreviation cap := (max_tool_calls_per_turn (config agent)).

(** C4: with a cap that is not negative, every value [tool_calls_this_turn]
    takes during a task, from the reset at its start on, is at most
    [max_tool_calls_per_turn], and the tool calls attempted over the whole
    task, all provider round-trips together, number at most the cap;
    whatever the provider asks for.  The task always ends. *)
Theorem tool_calls_within_cap user_message stream (r : @Run World) :
  (0 ≤ cap)%Z →
  ∃ evs,
    trace (process_message agent user_message stream r).1 = trace r ++ evs
    ∧ Forall (fun c => (c ≤ cap)%Z) (counter_values evs)
    ∧ (Z.of_nat (length (executed evs)) ≤ cap)%Z
    ∧ tool_calls_this_turn
        (state (process_message agent user_message stream r).1)
      = Z.of_nat (length (executed evs))
    ∧ (process_message agent user_message stream r).2 ≠ OutOfFuel.
Proof.
  intros Hcap. unfold process_message.
  set (r0 := set_complete false _).
  assert (Ht0 : trace r0 = trace r ++ [EvCounter 0]).
  { subst r0. by destruct r as [? [? ? ? ? ?] ? ?]. }
  assert (Hc0 : tool_calls_this_turn (state r0) = 0%Z).
  { subst r0. by destruct r as [? [? ? ? ? ?] ? ?]. }
  assert (Hi0 : iteration (state r0) = 0%Z).
  { subst r0. by destruct r as [? [? ? ? ? ?] ? ?]. }
  destruct (process_loop_extends agent stream
              (S (Z.to_nat (max_iterations (config agent)))) r0)
    as [(_ & evs & Ht & Hc & Hn & Hb) Hf].
  rewrite Hc0 in Hn, Hb. specialize (Hb Hcap).
  exists (EvCounter 0 :: evs).
  rewrite Ht, Ht0, <- app_assoc.
  change (counter_values (EvCounter 0 :: evs)) with (0%Z :: counter_values evs).
  change (executed (EvCounter 0 :: evs)) with (executed evs).
  split_and!; [done|by constructor|lia|lia|].
  apply Hf. rewrite Hi0. lia.
Qed.

End TurnClaims.

Lemma tool_calls_within_cap_witness :
  ∃ evs,
    CodingAgent.trace
      (CodingAgent.process_message demo_agent "fix the bug" false demo_run).1
    = [] ++ evs
    ∧ Forall (fun c => (c ≤ 2)%Z) (CodingAgent.counter_values evs)
    ∧ (Z.of_nat (length (CodingAgent.executed evs)) ≤ 2)%Z
    ∧ CodingAgent.tool_calls_this_turn
        (CodingAgent.state
           (CodingAgent.process_message demo_agent "fix the bug" false
              demo_run).1)
      = Z.of_nat (length (CodingAgent.executed evs))
    ∧ (CodingAgent.process_message demo_agent "fix the bug" false demo_run).2
      ≠ CodingAgent.OutOfFuel.
Proof.
  apply (tool_calls_within_cap demo_agent "fix the bug" false demo_run).
  simpl. lia.
Defined.

(** ** The system prompt stays first *)

Section FirstMessage.
Import CodingAgent Compaction CompactionSpec.

Lemma head_prefix {A : Type} (l1 l2 : list A) (x : A) :
  l1 `prefix_of` l2 → head l1 = Some x → head l2 = Some x.
Proof. intros [k ->]. by destruct l1. Qed.

Lemma compacted_messages_head keep_last_n summarize m rest :
  is_system m = true →
  head (compacted_messages true keep_last_n summarize (m :: rest)) = Some m.
Proof.
  intros Hm. unfold compacted_messages.
  rewrite partition_messages_budget.
  change (drop_oldest true ?b (m :: rest))
    with (if is_system m && true then
            let '(kept, dropped) := drop_oldest true b rest in
            (m :: kept, dropped)
          else
            match b with
            | O => let '(kept, dropped) := drop_oldest true O rest in
                   (m :: kept, dropped)
            | S b' => let '(kept, dropped) := drop_oldest true b' rest in
                      (kept, m :: dropped)
            end).
  rewrite Hm. cbn [andb].
  destruct (drop_oldest true _ rest) as [kept dropped].
  destruct (summarize && nonempty dropped); [|done].
  unfold insert_idx, list_insert_at. by rewrite Hm.
Qed.

Lemma compact_session_head now session keep_last_n summarize m :
  head (session_messages session) = Some m → is_system m = true →
  head (session_messages
          (compact_session now session true keep_last_n summarize)) = Some m.
Proof.
  intros Hhead Hm.
  destruct (Z.le_gt_cases (Z.of_nat (length (session_messages session)))
              keep_last_n) as [Hle|Hgt].
  - by rewrite compact_session_noop.
  - rewrite compact_session_messages by lia.
    destruct (session_messages session) as [|m' rest]; [done|].
    injection Hhead as ->. by apply compacted_messages_head.
Qed.

(** C5, as stated, fails: [compact_session] called with
    [keep_system = False] and [summarize = False] removes the system
    prompt like any other old message and leaves a user message first. *)
Lemma compaction_can_drop_system_prompt :
  let conversation :=
    messages
      (add_context "second" "user"
         (add_context "first" "user" (initial_state demo_config))) in
  let session := mkSession demo_metadata conversation ∅ in
  let compacted :=
    compact_session "2025-01-01T10:05:00" session false 1 false in
  head conversation = Some (plain_message "system" "You are an expert.")
  ∧ head (session_messages compacted) = Some (plain_message "user" "second")
  ∧ is_system (plain_message "user" "second") = false.
Proof. vm_compute. by repeat split. Qed.

Context {World : Type}.
Variable agent : @Agent World.

(** C5 (amended): the conversation of an agent starts with the system
    prompt, [reset] puts it back, and whatever message is first stays
    first through every task (however it ends), every tool loop and every
    added context message, because these only append to the history.
    [compact_session] with [keep_system = True] (the default, and how
    [add_message] calls it) keeps a first system message first. *)
Theorem system_prompt_stays_first :
  let prompt := plain_message "system" (system_prompt (config agent)) in
  head (messages (initial_state (config agent))) = Some prompt
  ∧ is_system prompt = true
  ∧ (∀ s, head (messages (reset (config agent) s)) = Some prompt)
  ∧ (∀ (r : @Run World) m,
       head (messages (state r)) = Some m →
       (∀ user_message stream,
          head (messages
                  (state (process_message agent user_message stream r).1))
          = Some m)
       ∧ (∀ tool_calls,
            head (messages (state (_execute_tools agent tool_calls r).1))
            = Some m)
       ∧ (∀ tool_calls,
            head (messages (state (_execute_tools_sync agent tool_calls r).1))
            = Some m)
       ∧ (∀ content role,
            head (messages (add_context content role (state r))) = Some m))
  ∧ (∀ now session keep_last_n summarize m,
       head (session_messages session) = Some m → is_system m = true →
       head (session_messages
               (compact_session now session true keep_last_n summarize))
       = Some m).
Proof.
  split_and!; try done.
  - intros r m Hhead. split_and!.
    + intros user_message stream. unfold process_message.
      set (r0 := set_complete false _).
      assert (H0 : messages (state r) `prefix_of` messages (state r0)).
      { subst r0. destruct r as [? [? ? ? ? ?] ? ?]. by apply prefix_app_r. }
      destruct (process_loop_extends agent stream
                  (S (Z.to_nat (max_iterations (config agent)))) r0)
        as [[Hm _] _].
      eapply head_prefix; [|done]. by etrans.
    + intros tool_calls.
      destruct (_execute_tools_continues agent tool_calls r) as (_ & Hm & _).
      by eapply head_prefix.
    + intros tool_calls.
      destruct (_execute_tools_sync_continues agent tool_calls r)
        as (_ & Hm & _).
      by eapply head_prefix.
    + intros content role. simpl.
      eapply head_prefix; [|done]. by apply prefix_app_r.
  - intros. by apply compact_session_head.
Qed.

End FirstMessage.

(** The system prompt of [demo_agent] is still first after a task and a
    default compaction of the history it left. *)
Lemma system_prompt_stays_first_witness :
  let after :=
    (CodingAgent.process_message demo_agent "fix the bug" true demo_run).1 in
  let session :=
    mkSession demo_metadata (CodingAgent.messages (CodingAgent.state after)) ∅ in
  head (CodingAgent.messages (CodingAgent.state after)) = Some demo_system
  ∧ head (session_messages
            (Compaction.compact_session "2025-01-01T10:05:00" session true 10
               true))
    = Some demo_system.
Proof.
  intros after session.
  destruct (system_prompt_stays_first demo_agent)
    as (Hinit & Hsys & _ & Hops & Hcompact).
  destruct (Hops demo_run demo_system Hinit) as (Htask & _).
  split; [apply Htask|].
  apply Hcompact; [apply Htask|exact Hsys].
Defined.

(** ** Turn executor: what happens when the cap is reached *)

Section CapReached.
Import CodingAgent.
Context {World : Type}.
Variable agent : @Agent World.

Local Abbreviation cap := (max_tool_calls_per_turn (config agent)).
Local Abbreviation tools_return := (TurnSpec.tools_return agent).
Local Abbreviation budget := (TurnSpec.budget agent).
Local Abbreviation tool_loop_effect := (TurnSpec.tool_loop_effect agent).
Local Abbreviation turn_effect := (TurnSpec.turn_effect agent).
Local Abbreviation remaining := (TurnSpec.remaining agent).

Lemma tool_loop_effect_nil r : tool_loop_effect [] r r.
Proof.
  split_and!; [done..|]. exists []. rewrite app_nil_r, take_nil. simpl.
  split_and!; [done..|lia].
Qed.

Lemma tool_loop_effect_cap tc rest (r r' : @Run World) :
  (cap ≤ tool_calls_this_turn (state r))%Z →
  state r' = state r → trace r' = trace r ++ [EvCapReached] →
  tool_loop_effect (tc :: rest) r r'.
Proof.
  intros Hge Hs Ht. unfold TurnSpec.tool_loop_effect. rewrite Hs.
  split_and!; [done..|]. exists [EvCapReached].
  replace (budget r) with O by (unfold TurnSpec.budget; lia). simpl.
  split_and!; [done..|lia].
Qed.

Lemma tool_loop_effect_step tc rest (r r1 r' : @Run World) :
  (tool_calls_this_turn (state r) < cap)%Z →
  iteration (state r1) = iteration (state r) →
  is_complete (state r1) = is_complete (state r) →
  tool_calls_this_turn (state r1) = (tool_calls_this_turn (state r) + 1)%Z →
  trace r1
  = trace r ++ [EvCounter (tool_calls_this_turn (state r) + 1); EvExecute tc] →
  tool_loop_effect rest r1 r' →
  tool_loop_effect (tc :: rest) r r'.
Proof.
  intros Hlt Hi Hc Hn Ht (Hi' & Hc' & evs & Ht' & He & Hr & Hm & Hn').
  split_and!; [congruence..|].
  exists ([EvCounter (tool_calls_this_turn (state r) + 1); EvExecute tc] ++ evs).
  assert (Hb : budget r = S (budget r1)) by (unfold TurnSpec.budget; lia).
  rewrite Ht', Ht, <- app_assoc, Hb.
  rewrite executed_app, requests_app, cap_markers_app, He, Hr, Hm.
  simpl. split_and!; [done..| |].
  - repeat case_decide; lia.
  - rewrite Hn', Hn, He. lia.
Qed.

Hypothesis Htools : tools_return.

Lemma _execute_tools_effect tool_calls :
  ∀ r, ∃ r',
    _execute_tools agent tool_calls r = (r', None)
    ∧ tool_loop_effect tool_calls r r'.
Proof.
  induction tool_calls as [|tc rest IH]; intros r.
  { exists r. split; [done|apply tool_loop_effect_nil]. }
  cbn [_execute_tools].
  destruct (Z.leb_spec cap (tool_calls_this_turn (state r))) as [Hge|Hlt].
  - eexists. split; [done|]. by apply tool_loop_effect_cap.
  - cbv zeta.
    set (r3 := record (EvExecute tc) _).
    destruct (Htools tc (world r3)) as (w & result & ->).
    set (r5 := emit _ _).
    destruct (IH r5) as (r' & -> & Heff).
    exists r'. split; [done|].
    apply (tool_loop_effect_step tc rest r r5); try done.
    subst r5 r3. simpl. by rewrite <- app_assoc.
Qed.

Lemma _execute_tools_sync_loop_effect tool_calls :
  ∀ results r, ∃ r' results',
    _execute_tools_sync_loop agent tool_calls results r = (r', inr results')
    ∧ tool_loop_effect tool_calls r r'.
Proof.
  induction tool_calls as [|tc rest IH]; intros results r.
  { exists r, results. split; [done|apply tool_loop_effect_nil]. }
  cbn [_execute_tools_sync_loop].
  destruct (Z.leb_spec cap (tool_calls_this_turn (state r))) as [Hge|Hlt].
  - eexists _, _. split; [done|]. by apply tool_loop_effect_cap.
  - cbv zeta.
    set (r3 := record (EvExecute tc) _).
    destruct (Htools tc (world r3)) as (w & result & ->).
    set (r5 := append_message _ _).
    destruct (IH (results ++ [(if tr_success result then "✅" else "❌")
                                +:+ " " +:+ tc_name tc]) r5)
      as (r' & results' & -> & Heff).
    exists r', results'. split; [done|].
    apply (tool_loop_effect_step tc rest r r5); try done.
    subst r5 r3. simpl. by rewrite <- app_assoc.
Qed.

Lemma budget_spent (tool_calls : list ToolCall) (r : @Run World) :
  (cap ≤ tool_calls_this_turn (state r))%Z →
  tool_calls ≠ [] →
  take (budget r) tool_calls = []
  ∧ bool_decide (budget r < length tool_calls)%nat = true.
Proof.
  intros Hge Hne. replace (budget r) with O by (unfold TurnSpec.budget; lia).
  split; [done|]. apply bool_decide_eq_true. destruct tool_calls; [done|].
  simpl. lia.
Qed.

Lemma budget_left (tc : ToolCall) tool_calls (r r1 : @Run World) :
  (tool_calls_this_turn (state r) < cap)%Z →
  tool_calls_this_turn (state r1) = (tool_calls_this_turn (state r) + 1)%Z →
  take (budget r) (tc :: tool_calls) = tc :: take (budget r1) tool_calls
  ∧ bool_decide (budget r < length (tc :: tool_calls))%nat
    = bool_decide (budget r1 < length tool_calls)%nat.
Proof.
  intros Hlt Hn.
  assert (Hb : budget r = S (budget r1)) by (unfold TurnSpec.budget; lia).
  rewrite Hb. split; [done|]. apply bool_decide_ext. simpl. lia.
Qed.

(** What the streaming tool loop yields. *)
Lemma _execute_tools_output tool_calls :
  ∀ r, ∃ ran,
    ran.*1 = take (budget r) tool_calls
    ∧ yielded (_execute_tools agent tool_calls r).1
      = yielded r
          ++ TurnSpec.turn_text true [] ran
               (bool_decide (budget r < length tool_calls)%nat).
Proof.
  induction tool_calls as [|tc rest IH]; intros r.
  { exists []. rewrite take_nil. split; [done|]. cbn.
    rewrite bool_decide_eq_false_2 by lia. by rewrite app_nil_r. }
  cbn [_execute_tools].
  destruct (Z.leb_spec cap (tool_calls_this_turn (state r))) as [Hge|Hlt].
  - destruct (budget_spent (tc :: rest) r Hge) as [Htake Hcapped]; [done|].
    exists []. rewrite Htake, Hcapped. by split.
  - cbv zeta.
    set (r3 := record (EvExecute tc) _).
    destruct (Htools tc (world r3)) as (w & result & ->).
    set (r5 := emit _ _).
    destruct (IH r5) as (ran & Hran & Hy).
    destruct (budget_left tc rest r r5 Hlt) as [Htake Hcapped]; [done|].
    exists ((tc, result) :: ran). rewrite Htake, Hcapped.
    split; [by rewrite fmap_cons, Hran|].
    cbn [fst]. rewrite Hy. subst r5 r3. cbn. by rewrite <- !app_assoc.
Qed.

(** What the other tool loop returns; it yields nothing. *)
Lemma _execute_tools_sync_loop_output tool_calls :
  ∀ results r, ∃ ran,
    ran.*1 = take (budget r) tool_calls
    ∧ (_execute_tools_sync_loop agent tool_calls results r).2
      = inr (results
               ++ map (fun d => TurnSpec.sync_status d.1 d.2) ran
               ++ (if bool_decide (budget r < length tool_calls)%nat
                   then [cap_marker_sync] else []))
    ∧ yielded (_execute_tools_sync_loop agent tool_calls results r).1
      = yielded r.
Proof.
  induction tool_calls as [|tc rest IH]; intros results r.
  { exists []. rewrite take_nil. split; [done|]. cbn.
    rewrite bool_decide_eq_false_2 by lia. by rewrite app_nil_r. }
  cbn [_execute_tools_sync_loop].
  destruct (Z.leb_spec cap (tool_calls_this_turn (state r))) as [Hge|Hlt].
  - destruct (budget_spent (tc :: rest) r Hge) as [Htake Hcapped]; [done|].
    exists []. rewrite Htake, Hcapped. by split.
  - cbv zeta.
    set (r3 := record (EvExecute tc) _).
    destruct (Htools tc (world r3)) as (w & result & ->).
    set (r5 := append_message _ _).
    destruct (IH (results ++ [(if tr_success result then "✅" else "❌")
                                +:+ " " +:+ tc_name tc]) r5)
      as (ran & Hran & Hres & Hy).
    destruct (budget_left tc rest r r5 Hlt) as [Htake Hcapped]; [done|].
    exists ((tc, result) :: ran). rewrite Htake, Hcapped.
    split; [by rewrite fmap_cons, Hran|].
    rewrite Hres, Hy. split; [|done]. by rewrite <- app_assoc.
Qed.

Lemma turn_effect_intro tool_calls (r r1 r' : @Run World) h :
  iteration (state r1) = iteration (state r) →
  is_complete (state r1) = is_complete (state r) →
  tool_calls_this_turn (state r1) = tool_calls_this_turn (state r) →
  trace r1 = trace r ++ [EvRequest h] →
  tool_loop_effect tool_calls r1 r' →
  turn_effect tool_calls r r'.
Proof.
  intros Hi Hc Hn Ht (Hi' & Hc' & evs & Ht' & He & Hr & Hm & Hn').
  split_and!; [congruence..|].
  exists ([EvRequest h] ++ evs).
  assert (Hb : budget r1 = budget r) by (unfold TurnSpec.budget; lia).
  rewrite Ht', Ht, <- app_assoc.
  rewrite executed_app, requests_app, cap_markers_app, He, Hr, Hm, Hb.
  simpl. split_and!; [done..|]. rewrite Hn', He, Hb, Hn. done.
Qed.

Lemma nonempty_true {A : Type} (l : list A) : l ≠ [] → nonempty l = true.
Proof. by destruct l. Qed.

Lemma _process_turn_effect r tool_calls :
  turn_tool_calls agent false (world r) (messages (state r)) = Some tool_calls →
  tool_calls ≠ [] →
  ∃ r' response,
    _process_turn agent r = (r', inr response)
    ∧ turn_effect tool_calls r r'.
Proof.
  unfold turn_tool_calls, _process_turn. cbv zeta. intros Hturn Hne.
  change (complete (provider agent) (world (record _ r))
            (messages (state (record _ r))))
    with (complete (provider agent) (world r) (messages (state r))).
  destruct (complete (provider agent) (world r) (messages (state r)))
    as [w [e|response]]; [done|].
  injection Hturn as Hturn. rewrite Hturn, (nonempty_true _ Hne).
  set (r2 := append_message _ _).
  unfold _execute_tools_sync.
  destruct (_execute_tools_sync_loop_effect tool_calls [] r2)
    as (r' & results' & -> & Heff).
  exists r', (str_join " | " results'). split; [done|].
  by apply (turn_effect_intro tool_calls r r2 r' (messages (state r))).
Qed.

Lemma _process_turn_streaming_effect r tool_calls :
  turn_tool_calls agent true (world r) (messages (state r)) = Some tool_calls →
  tool_calls ≠ [] →
  ∃ r',
    _process_turn_streaming agent r = (r', None)
    ∧ turn_effect tool_calls r r'.
Proof.
  unfold turn_tool_calls, _process_turn_streaming. cbv zeta. intros Hturn Hne.
  change (stream (provider agent) (world (record _ r))
            (messages (state (record _ r))))
    with (stream (provider agent) (world r) (messages (state r))).
  destruct (stream (provider agent) (world r) (messages (state r)))
    as [w items]. cbn [snd] in Hturn.
  destruct (consume_stream items "" []) as [ys [e|[full_content tcs]]];
    cbn [snd] in Hturn; [done|].
  injection Hturn as ->. rewrite (nonempty_true _ Hne).
  set (r2 := append_message _ _).
  destruct (_execute_tools_effect tool_calls r2) as (r' & -> & Heff).
  exists r'. split; [done|].
  by apply (turn_effect_intro tool_calls r r2 r' (messages (state r))).
Qed.

(** What a streaming turn yields when the answer carries tool calls. *)
Lemma _process_turn_streaming_output r tool_calls :
  turn_tool_calls agent true (world r) (messages (state r)) = Some tool_calls →
  tool_calls ≠ [] →
  ∃ texts ran,
    ran.*1 = take (budget r) tool_calls
    ∧ yielded (_process_turn_streaming agent r).1
      = yielded r
          ++ TurnSpec.turn_text true texts ran
               (bool_decide (budget r < length tool_calls)%nat).
Proof.
  unfold turn_tool_calls, _process_turn_streaming. cbv zeta. intros Hturn Hne.
  change (stream (provider agent) (world (record _ r))
            (messages (state (record _ r))))
    with (stream (provider agent) (world r) (messages (state r))).
  destruct (stream (provider agent) (world r) (messages (state r)))
    as [w items]. cbn [snd] in Hturn.
  destruct (consume_stream items "" []) as [ys [e|[full_content tcs]]];
    cbn [snd] in Hturn; [done|].
  injection Hturn as ->. rewrite (nonempty_true _ Hne).
  set (r2 := append_message _ _).
  destruct (_execute_tools_output tool_calls r2) as (ran & Hran & Hy).
  exists ys, ran. split; [done|]. rewrite Hy. subst r2. cbn.
  by rewrite <- app_assoc.
Qed.

(** What the turn of the other mode returns when the answer carries tool
    calls; the turn itself yields nothing. *)
Lemma _process_turn_output r tool_calls :
  turn_tool_calls agent false (world r) (messages (state r)) = Some tool_calls →
  tool_calls ≠ [] →
  ∃ ran,
    ran.*1 = take (budget r) tool_calls
    ∧ (_process_turn agent r).2
      = inr (str_join " | "
               (map (fun d => TurnSpec.sync_status d.1 d.2) ran
                  ++ (if bool_decide (budget r < length tool_calls)%nat
                      then [cap_marker_sync] else [])))
    ∧ yielded (_process_turn agent r).1 = yielded r.
Proof.
  unfold turn_tool_calls, _process_turn. cbv zeta. intros Hturn Hne.
  change (complete (provider agent) (world (record _ r))
            (messages (state (record _ r))))
    with (complete (provider agent) (world r) (messages (state r))).
  destruct (complete (provider agent) (world r) (messages (state r)))
    as [w [e|response]]; [done|].
  injection Hturn as Hturn. rewrite Hturn, (nonempty_true _ Hne).
  set (r2 := append_message _ _).
  unfold _execute_tools_sync.
  destruct (_execute_tools_sync_loop_output tool_calls [] r2)
    as (ran & Hran & Hres & Hy).
  destruct (_execute_tools_sync_loop agent tool_calls [] r2)
    as [r' [e|results']]; [done|].
  cbn [fst snd] in *. injection Hres as ->.
  exists ran. by split_and!.
Qed.

(** The summary of a tool loop over at least one call is not empty. *)
Lemma summary_nonempty tool_calls (r : @Run World)
    (ran : list (ToolCall * ToolResult)) :
  tool_calls ≠ [] →
  ran.*1 = take (budget r) tool_calls →
  nonempty_str
    (str_join " | "
       (map (fun d => TurnSpec.sync_status d.1 d.2) ran
          ++ (if bool_decide (budget r < length tool_calls)%nat
              then [cap_marker_sync] else []))) = true.
Proof.
  intros Hne Hran.
  assert (Hhead : ∀ (x : string) l,
            nonempty_str x = true → nonempty_str (str_join " | " (x :: l)) = true).
  { intros x l Hx. destruct x; [done|]. by destruct l. }
  destruct ran as [|[tc result] ran].
  - destruct tool_calls as [|tc rest]; [done|].
    destruct (budget r) eqn:Hb; [|done].
    by rewrite bool_decide_eq_true_2 by (simpl; lia).
  - cbn [map app fst snd]. apply Hhead.
    unfold TurnSpec.sync_status. by destruct (tr_success result).
Qed.

(** A turn in either mode, as the loop of [process_message] runs it. *)
Lemma loop_turn_effect stream fuel r tool_calls :
  is_complete (state r) = false →
  (iteration (state r) < max_iterations (config agent))%Z →
  turn_tool_calls agent stream (world r) (messages (state r)) = Some tool_calls →
  tool_calls ≠ [] →
  ∃ r2,
    process_loop agent (S fuel) stream r = process_loop agent fuel stream r2
    ∧ iteration (state r2) = (iteration (state r) + 1)%Z
    ∧ is_complete (state r2) = false
    ∧ (∃ evs,
        trace r2 = trace r ++ evs
        ∧ executed evs = take (budget r) tool_calls
        ∧ requests evs = 1%nat
        ∧ cap_markers evs
          = (if decide (budget r < length tool_calls)%nat then 1%nat else 0%nat)
        ∧ tool_calls_this_turn (state r2)
          = (tool_calls_this_turn (state r)
             + Z.of_nat (length (executed evs)))%Z)
    ∧ ∃ texts ran,
        ran.*1 = take (budget r) tool_calls
        ∧ yielded r2
          = yielded r
              ++ TurnSpec.turn_text stream texts ran
                   (bool_decide (budget r < length tool_calls)%nat).
Proof.
  intros Hc Hlt Hturn Hne. rewrite process_loop_S, Hc. cbn [negb andb].
  destruct (Z.ltb_spec (iteration (state r)) (max_iterations (config agent)));
    [|lia].
  cbv zeta. set (r1 := set_iteration _ r).
  assert (Hi1 : iteration (state r1) = (iteration (state r) + 1)%Z)
    by apply iteration_set_iteration.
  assert (Hs1 : is_complete (state r1) = false
                ∧ tool_calls_this_turn (state r1) = tool_calls_this_turn (state r)
                ∧ trace r1 = trace r ∧ world r1 = world r
                ∧ messages (state r1) = messages (state r)).
  { subst r1. by destruct r as [? [? ? ? ? ?] ? ?]. }
  destruct Hs1 as (Hc1 & Hn1 & Ht1 & Hw1 & Hm1).
  assert (Hy1 : yielded r1 = yielded r) by done.
  rewrite <- Hw1, <- Hm1 in Hturn.
  assert (Hb1 : budget r1 = budget r) by (unfold TurnSpec.budget; lia).
  destruct stream.
  - destruct (_process_turn_streaming_output r1 tool_calls Hturn Hne)
      as (texts & ran & Hran & Hy).
    destruct (_process_turn_streaming_effect r1 tool_calls Hturn Hne)
      as (r2 & Hrun & Hi2 & Hc2 & evs & Ht2 & Heff).
    rewrite Hrun in Hy |- *. cbn [fst] in Hy.
    rewrite Hc2, Hc1. exists r2.
    split_and!; [done|congruence|congruence| |].
    + exists evs. rewrite Ht2, Ht1, <- Hn1, <- Hb1. done.
    + exists texts, ran. by rewrite Hy, Hy1, <- Hb1.
  - destruct (_process_turn_output r1 tool_calls Hturn Hne)
      as (ran & Hran & Hres & Hy).
    destruct (_process_turn_effect r1 tool_calls Hturn Hne)
      as (r2 & response & Hrun & Hi2 & Hc2 & evs & Ht2 & Heff).
    rewrite Hrun in Hres, Hy |- *. cbn [fst snd] in Hres, Hy.
    injection Hres as ->.
    rewrite (summary_nonempty tool_calls r1 ran Hne Hran).
    set (r3 := emit _ r2).
    change (state r3) with (state r2). rewrite Hc2, Hc1. exists r3.
    change (state r3) with (state r2). change (trace r3) with (trace r2).
    split_and!; [done|congruence|congruence| |].
    + exists evs. rewrite Ht2, Ht1, <- Hn1, <- Hb1. done.
    + exists [], ran. subst r3. cbn. by rewrite Hy, Hy1, <- Hb1.
Qed.

(** Once the budget is used up the task does not stop: as long as the
    provider keeps asking for tools, every remaining iteration sends a
    request, runs no tool and marks the cap. *)
Lemma process_loop_capped stream :
  (∀ w h, ∃ tcs, turn_tool_calls agent stream w h = Some tcs ∧ tcs ≠ []) →
  ∀ fuel r,
    budget r = O → is_complete (state r) = false →
    (remaining r < fuel)%nat →
    ∃ r' evs later,
      process_loop agent fuel stream r = (r', Finished)
      ∧ is_complete (state r') = false
      ∧ trace r' = trace r ++ evs
      ∧ executed evs = []
      ∧ requests evs = remaining r
      ∧ cap_markers evs = remaining r
      ∧ length later = remaining r
      ∧ yielded r'
        = yielded r
            ++ concat
                 (map (fun texts => TurnSpec.turn_text stream texts [] true)
                    later).
Proof.
  intros Hasks. induction fuel as [|fuel IH]; intros r Hb Hc Hfuel; [lia|].
  destruct (Z.lt_ge_cases (iteration (state r)) (max_iterations (config agent)))
    as [Hlt|Hge].
  - destruct (Hasks (world r) (messages (state r))) as (tcs & Hturn & Hne).
    destruct (loop_turn_effect stream fuel r tcs Hc Hlt Hturn Hne)
      as (r2 & -> & Hi2 & Hc2 & (evs & Ht2 & He & Hr & Hm & Hn)
          & texts & ran & Hran & Hy2).
    rewrite Hb, take_0 in He. rewrite He in Hn. simpl in Hn.
    rewrite Hb in Hm. rewrite Hb, take_0 in Hran.
    apply fmap_nil_inv in Hran as ->.
    rewrite Hb, bool_decide_eq_true_2 in Hy2
      by (destruct tcs; [done|simpl; lia]).
    destruct (decide (0 < length tcs)%nat) as [_|Hz];
      [|destruct tcs; [done|simpl in Hz; lia]].
    assert (Hrem : remaining r = S (remaining r2))
      by (unfold TurnSpec.remaining; lia).
    destruct (IH r2)
      as (r' & evs' & later & -> & Hc' & Ht' & He' & Hr' & Hm' & Hlen & Hy');
      [unfold TurnSpec.budget in *; lia|done|lia|].
    exists r', (evs ++ evs'), (texts :: later).
    rewrite Ht', Ht2, <- app_assoc, executed_app, requests_app,
      cap_markers_app, He, He', Hr, Hr', Hm, Hm', Hrem, Hy', Hy2.
    cbn [length map concat]. rewrite Hlen, <- app_assoc. done.
  - exists r, [], []. rewrite process_loop_S, Hc. cbn [negb andb].
    destruct (Z.ltb_spec (iteration (state r)) (max_iterations (config agent)));
      [lia|].
    replace (remaining r) with O by (unfold TurnSpec.remaining; lia).
    cbn. by rewrite !app_nil_r.
Qed.

End CapReached.

Section CapClaims.
Import CodingAgent TurnSpec.

(** C1, as stated, fails: with a cap of 2 and a model that asks for three
    tools, two tools run and the marker takes the place of the third, but
    the task does not stop: [is_complete] is still false, so the executor
    asks the provider again, up to [max_iterations] (20) requests, in
    either mode. *)
Lemma cap_does_not_stop_the_task :
  let sync := process_message demo_agent "fix the bug" false demo_run in
  let streaming := process_message demo_agent "fix the bug" true demo_run in
  executed (trace sync.1) = take 2 demo_calls
  ∧ head (yielded sync.1)
    = Some "✅ read_file | ❌ search_code | [Max tool calls reached]"
  ∧ requests (trace sync.1) = 20%nat
  ∧ requests (trace sync.1) ≠ 1%nat
  ∧ executed (trace streaming.1) = take 2 demo_calls
  ∧ yielded streaming.1 !! 5%nat = Some cap_marker_streaming
  ∧ requests (trace streaming.1) = 20%nat
  ∧ requests (trace streaming.1) ≠ 1%nat.
Proof. vm_compute. repeat split; discriminate. Qed.

Context {World : Type}.
Variable agent : @Agent World.

(** C1 (amended): with [max_tool_calls_per_turn = 2] and a provider whose
    every answer carries three tool calls, exactly the first two calls of
    the first answer are executed and the marker is yielded in place of
    the third: the text of the first turn reports the two calls and ends
    with the marker.  The task does not stop there but goes on
    requesting completions, each answered by the marker alone with no
    tool run, until [max_iterations] requests have been made, and ends
    with [is_complete] still false. *)
Theorem cap_reached_marks_and_goes_on user_message stream (r : @Run World) :
  max_tool_calls_per_turn (config agent) = 2%Z →
  (1 ≤ max_iterations (config agent))%Z →
  tools_return agent →
  (∀ w h, ∃ tcs,
     turn_tool_calls agent stream w h = Some tcs ∧ length tcs = 3%nat) →
  ∃ t1 t2 t3 r' evs,
    turn_tool_calls agent stream (world r)
      (messages (state r) ++ [plain_message "user" user_message])
    = Some [t1; t2; t3]
    ∧ process_message agent user_message stream r = (r', Finished)
    ∧ is_complete (state r') = false
    ∧ trace r' = trace r ++ evs
    ∧ executed evs = [t1; t2]
    ∧ cap_markers evs = Z.to_nat (max_iterations (config agent))
    ∧ requests evs = Z.to_nat (max_iterations (config agent))
    ∧ ∃ texts res1 res2 later,
        S (length later) = Z.to_nat (max_iterations (config agent))
        ∧ yielded r'
          = yielded r
              ++ turn_text stream texts [(t1, res1); (t2, res2)] true
              ++ concat (map (fun texts => turn_text stream texts [] true)
                           later).
Proof.
  intros Hcap Hmax Htools Hasks. unfold process_message.
  set (r0 := set_complete false _).
  assert (Hs0 : is_complete (state r0) = false
                ∧ iteration (state r0) = 0%Z
                ∧ tool_calls_this_turn (state r0) = 0%Z
                ∧ trace r0 = trace r ++ [EvCounter 0]
                ∧ world r0 = world r
                ∧ messages (state r0)
                  = messages (state r) ++ [plain_message "user" user_message]).
  { subst r0. by destruct r as [? [? ? ? ? ?] ? ?]. }
  destruct Hs0 as (Hc0 & Hi0 & Hn0 & Ht0 & Hw0 & Hm0).
  assert (Hy0 : yielded r0 = yielded r) by done.
  destruct (Hasks (world r0) (messages (state r0))) as (tcs & Hturn & Hlen).
  destruct tcs as [|t1 [|t2 [|t3 [|]]]]; try done.
  exists t1, t2, t3.
  destruct (loop_turn_effect agent Htools stream
              (Z.to_nat (max_iterations (config agent))) r0 [t1; t2; t3])
    as (r2 & -> & Hi2 & Hc2 & (evs & Ht2 & He & Hr & Hm & Hn)
        & texts & ran & Hran & Hy2);
    [done|lia|done|done|].
  assert (Hb0 : budget agent r0 = 2%nat) by (unfold budget; lia).
  rewrite Hb0 in He, Hm, Hran, Hy2. simpl in He, Hm, Hran, Hy2.
  rewrite He in Hn. simpl in Hn.
  destruct ran as [|[c1 res1] [|[c2 res2] [|]]]; try done.
  injection Hran as -> ->.
  destruct (process_loop_capped agent Htools stream) with
    (fuel := Z.to_nat (max_iterations (config agent))) (r := r2)
    as (r' & evs' & later & -> & Hc' & Ht' & He' & Hr' & Hm' & Hlater & Hy').
  - intros w h. destruct (Hasks w h) as (tcs & ? & ?).
    exists tcs. split; [done|]. by destruct tcs.
  - unfold budget. lia.
  - done.
  - unfold remaining. lia.
  - exists r', ([EvCounter 0] ++ evs ++ evs').
    assert (Hrem : S (remaining agent r2)
                   = Z.to_nat (max_iterations (config agent)))
      by (unfold remaining; lia).
    rewrite <- Hw0, <- Hm0, Ht', Ht2, Ht0, <- !app_assoc.
    rewrite !executed_app, !requests_app, !cap_markers_app,
      He, He', Hr, Hr', Hm, Hm', <- Hrem.
    split_and!; try done.
    exists texts, res1, res2, later.
    split; [by rewrite Hlater|]. by rewrite Hy', Hy2, ?Hy0, <- app_assoc.
Qed.

End CapClaims.

(** The demonstration tools return or raise an exception that [execute]
    catches, so [tools.execute] returns. *)
Lemma demo_tools_return : TurnSpec.tools_return demo_agent.
Proof.
  intros tc w. unfold CodingAgent.call_tool, execute. simpl.
  destruct (demo_tools !! tc_name tc) as [tool|] eqn:Htool; [|eauto].
  unfold demo_tools in Htool.
  apply lookup_insert_Some in Htool as [[_ <-]|[_ Htool]].
  - cbn. eauto.
  - apply lookup_singleton_Some in Htool as [_ <-]. cbn. eauto.
Qed.

Lemma cap_reached_marks_and_goes_on_witness :
  ∃ t1 t2 t3 r' evs,
    CodingAgent.turn_tool_calls demo_agent true tt
      (CodingAgent.messages (CodingAgent.state demo_run)
         ++ [plain_message "user" "fix the bug"])
    = Some [t1; t2; t3]
    ∧ CodingAgent.process_message demo_agent "fix the bug" true demo_run
      = (r', CodingAgent.Finished)
    ∧ CodingAgent.is_complete (CodingAgent.state r') = false
    ∧ CodingAgent.trace r' = [] ++ evs
    ∧ CodingAgent.executed evs = [t1; t2]
    ∧ CodingAgent.cap_markers evs = 20%nat
    ∧ CodingAgent.requests evs = 20%nat
    ∧ ∃ texts res1 res2 later,
        S (length later) = 20%nat
        ∧ CodingAgent.yielded r'
          = []
              ++ TurnSpec.turn_text true texts [(t1, res1); (t2, res2)] true
              ++ concat
                   (map (fun texts => TurnSpec.turn_text true texts [] true)
                      later).
Proof.
  apply (cap_reached_marks_and_goes_on demo_agent "fix the bug" true demo_run).
  - reflexivity.
  - simpl. lia.
  - apply demo_tools_return.
  - intros w h. exists demo_calls. by destruct w.
Defined.

(** ** Sequential orchestration *)

Section SequentialClaims.
Import AsyncOrchestrator OrchestratorSpec.
Context {World : Type}.
Variable str_format : string -> gmap string PyValue -> Exception + string.
Variable agents : list (string * @AgentRole World).

Local Abbreviation loop := (sequential_loop str_format agents).





(** C7 (amended): the [final_output] of a sequential run is the content
    of its last Execution Result if that one succeeded, which is then the
    last successful agent's content, and the empty string otherwise: a
    run that ends with a failed result reports no final output, whatever
    succeeded before. *)
Theorem sequential_final_output w task agent_order context w' calls wr :
  execute_sequential str_format agents w task agent_order context
  = (w', calls, inr wr) →
  wr_final_output wr = last_content_if_success (wr_results wr)
  ∧ (∀ r, last (wr_results wr) = Some r → er_success r = true →
       last (filter (fun r => er_success r = true) (wr_results wr)) = Some r
       ∧ wr_final_output wr = er_content r)
  ∧ (∀ r, last (wr_results wr) = Some r → er_success r = false →
       wr_final_output wr = "")
  ∧ (wr_results wr = [] → wr_final_output wr = "").
Proof.
  unfold execute_sequential. intros Hrun.
  assert (Hwr : wr_final_output wr = last_content_if_success (wr_results wr)).
  { destruct (sequential_loop _ _ _ _ _) as [st [| |e]];
      [injection Hrun as _ _ <-; done..|done]. }
  split; [exact Hwr|]. rewrite Hwr. unfold last_content_if_success.
  split_and!.
  - intros r Hlast Hok. rewrite Hlast, Hok. split; [|done].
    apply last_Some in Hlast as [l' ->].
    rewrite filter_app, filter_cons_True by done.
    by rewrite filter_nil, last_snoc.
  - intros r Hlast Hfail. by rewrite Hlast, Hfail.
  - by intros ->.
Qed.

End SequentialClaims.

Section SequentialExamples.
Import AsyncOrchestrator.



(** C7, as stated, fails: after a success, a run that ends with a failed
    result has an empty [final_output], not the content of the last
    successful agent. *)
Lemma final_output_empty_after_late_failure :
  let '(_, _, outcome) :=
    execute_sequential simple_format demo_agents tt "add tests"
      ["coder"; "ghost"] None in
  ∃ wr,
    outcome = inr wr
    ∧ (er_content <$> last (filter (fun r => er_success r = true) (wr_results wr)))
      = Some "CODE for Implement: add tests"
    ∧ wr_final_output wr = ""
    ∧ wr_final_output wr ≠ "CODE for Implement: add tests".
Proof. vm_compute. eexists. repeat split; discriminate. Qed.

Lemma demo_late_failure_run :
  execute_sequential simple_format demo_agents tt "add tests"
    ["coder"; "ghost"] None
  = (tt, [("coder", "Implement: add tests")], inr demo_late_failure).
Proof. vm_compute. reflexivity. Qed.

Lemma sequential_final_output_witness :
  last (wr_results demo_late_failure) = Some (not_found_result "ghost")
  ∧ wr_final_output demo_late_failure = "".
Proof.
  destruct (sequential_final_output simple_format demo_agents tt "add tests"
              ["coder"; "ghost"] None tt _ _ demo_late_failure_run)
    as (_ & _ & Hfail & _).
  split; [reflexivity|].
  apply (Hfail (not_found_result "ghost")); reflexivity.
Defined.

End SequentialExamples.

(** ** Parallel orchestration *)

Section ParallelClaims.
Import AsyncOrchestrator OrchestratorSpec.
Context {World : Type}.
Variable str_format : string -> gmap string PyValue -> Exception + string.
Variable agents : list (string * @AgentRole World).

Lemma start_all_names task agent_names :
  ∀ slots,
    start_all str_format agents task agent_names = inr slots →
    map slot_name slots = agent_names.
Proof.
  induction agent_names as [|name rest IH]; intros slots; simpl.
  { by intros [= <-]. }
  unfold run_agent_start.
  destruct (dict_get agents name) as [agent|].
  - destruct (format_call _ _ _ _) as [e|prompt]; [done|].
    destruct (start_all _ _ _ rest) as [e|ss]; [done|].
    intros [= <-]. simpl. by rewrite IH.
  - destruct (start_all _ _ _ rest) as [e|ss]; [done|].
    intros [= <-]. simpl. by rewrite IH.
Qed.

Lemma start_all_raises task agent_names e :
  start_all str_format agents task agent_names = inl e →
  ∃ name agent,
    name ∈ agent_names ∧ dict_get agents name = Some agent
    ∧ format_call str_format (ar_prompt_template agent) [("task", PStr task)] ∅
      = inl e.
Proof.
  induction agent_names as [|name rest IH]; simpl; [done|].
  unfold run_agent_start.
  destruct (dict_get agents name) as [agent|] eqn:Hname.
  - destruct (format_call _ _ _ _) as [e'|prompt] eqn:Hfmt.
    + intros [= <-]. exists name, agent. split_and!; [left|done..].
    + destruct (start_all _ _ _ rest) as [e'|ss]; [|done].
      intros [= <-]. destruct IH as (n & a & Hin & Ha & Hf); [done|].
      exists n, a. split_and!; [by right|done..].
  - destruct (start_all _ _ _ rest) as [e'|ss]; [|done].
    intros [= <-]. destruct IH as (n & a & Hin & Ha & Hf); [done|].
    exists n, a. split_and!; [by right|done..].
Qed.

Lemma run_agent_finish_name w name agent prompt :
  er_agent_name (@run_agent_finish World w name agent prompt).2 = name.
Proof.
  unfold run_agent_finish. by destruct (complete _ _ _) as [w' [e|response]].
Qed.

(** Serving the coroutines in any order leaves every result at the
    position of its agent, keeps what had finished, and finishes every
    coroutine the schedule lists. *)
Lemma gather_slots schedule :
  ∀ w (slots : list (@Slot World)) calls,
    let slots' := (gather schedule w slots calls).1.2 in
    map slot_name slots' = map slot_name slots
    ∧ (∀ i r, slots !! i = Some (Ready r) → slots' !! i = Some (Ready r))
    ∧ (∀ i, i ∈ schedule → (i < length slots)%nat →
         ∃ r, slots' !! i = Some (Ready r)).
Proof.
  induction schedule as [|j rest IH]; intros w slots calls; cbn zeta.
  { split_and!; [done|done|]. intros i Hi. by apply elem_of_nil in Hi. }
  cbn [gather].
  destruct (slots !! j) as [[r|name agent prompt]|] eqn:Hj.
  - destruct (IH w slots calls) as (Hn & Hr & Hs).
    split_and!; [done|done|].
    intros i [->|Hi]%elem_of_cons Hlt; [eauto|by apply Hs].
  - pose proof (run_agent_finish_name w name agent prompt) as Hfin.
    destruct (run_agent_finish w name agent prompt) as [w' r]. simpl in Hfin.
    destruct (IH w' (<[j := Ready r]> slots) (calls ++ [(name, prompt)]))
      as (Hn & Hr & Hs).
    assert (Hjlt : (j < length slots)%nat) by (by eapply lookup_lt_Some).
    split_and!.
    + rewrite Hn, list_fmap_insert. apply list_insert_id.
      rewrite list_lookup_fmap, Hj. simpl. by rewrite Hfin.
    + intros i r' Hi. apply Hr.
      rewrite list_lookup_insert_ne; [done|]. intros ->. congruence.
    + intros i [->|Hi]%elem_of_cons Hlt.
      * exists r. apply Hr. by apply list_lookup_insert_eq.
      * apply Hs; [done|]. by rewrite length_insert.
  - destruct (IH w slots calls) as (Hn & Hr & Hs).
    split_and!; [done|done|].
    intros i [->|Hi]%elem_of_cons Hlt; [|by apply Hs].
    apply lookup_ge_None in Hj. lia.
Qed.

Lemma collect_names (slots : list (@Slot World)) :
  ∀ results,
    collect slots = Some results →
    map er_agent_name results = map slot_name slots.
Proof.
  induction slots as [|[r|name agent prompt] rest IH]; intros results; simpl.
  - by intros [= <-].
  - destruct (collect rest) as [rs|]; [|done]. simpl.
    intros [= <-]. simpl. by rewrite IH.
  - done.
Qed.

Lemma collect_all_ready (slots : list (@Slot World)) :
  (∀ i, (i < length slots)%nat → ∃ r, slots !! i = Some (Ready r)) →
  ∃ results, collect slots = Some results.
Proof.
  induction slots as [|s rest IH]; intros Hall; [by eexists|].
  destruct (Hall O) as [r Hr]; [simpl; lia|]. injection Hr as ->.
  destruct IH as [rs Hrs].
  { intros i Hi. apply (Hall (S i)). simpl. lia. }
  exists (r :: rs). simpl. by rewrite Hrs.
Qed.

(** C8: whenever [execute_parallel] returns, its result list has one
    Execution Result per input name, each under the name at its position,
    in the order of the input, whichever agents are unknown or fail and in
    whichever order the provider calls complete.  It returns as soon as
    every started call has completed, unless a prompt template could not
    be filled, in which case the exception of [str.format] leaves it. *)
Theorem parallel_results_follow_input
    schedule w task agent_names merge_strategy :
  match
    (execute_parallel str_format agents schedule w task agent_names
       merge_strategy).2
  with
  | Returned wr =>
      map er_agent_name (wr_results wr) = agent_names
      ∧ length (wr_results wr) = length agent_names
  | Raises e =>
      ∃ name agent,
        name ∈ agent_names ∧ dict_get agents name = Some agent
        ∧ format_call str_format (ar_prompt_template agent)
            [("task", PStr task)] ∅ = inl e
  | Pending => ¬ ∀ i, (i < length agent_names)%nat → i ∈ schedule
  end
  ∧ ((∀ i, (i < length agent_names)%nat → i ∈ schedule) →
     (∀ name agent,
        name ∈ agent_names → dict_get agents name = Some agent →
        ∃ prompt,
          format_call str_format (ar_prompt_template agent)
            [("task", PStr task)] ∅ = inr prompt) →
     ∃ wr,
       (execute_parallel str_format agents schedule w task agent_names
          merge_strategy).2 = Returned wr).
Proof.
  assert (Hmain :
    match
      (execute_parallel str_format agents schedule w task agent_names
         merge_strategy).2
    with
    | Returned wr =>
        map er_agent_name (wr_results wr) = agent_names
        ∧ length (wr_results wr) = length agent_names
    | Raises e =>
        ∃ name agent,
          name ∈ agent_names ∧ dict_get agents name = Some agent
          ∧ format_call str_format (ar_prompt_template agent)
              [("task", PStr task)] ∅ = inl e
    | Pending => ¬ ∀ i, (i < length agent_names)%nat → i ∈ schedule
    end).
  { unfold execute_parallel.
    destruct (start_all str_format agents task agent_names) as [e|slots] eqn:Hs.
    { simpl. by apply start_all_raises. }
    apply start_all_names in Hs.
    destruct (gather_slots schedule w slots []) as (Hn & _ & Hserved).
    destruct (gather schedule w slots []) as [[w' slots'] calls].
    cbn [fst snd] in Hn, Hserved.
    assert (Hlen : length slots = length agent_names)
      by (by rewrite <- Hs, length_map).
    destruct (collect slots') as [results|] eqn:Hc; cbn [snd].
    - apply collect_names in Hc. simpl.
      assert (Hnames : map er_agent_name results = agent_names) by congruence.
      split; [done|]. by rewrite <- Hnames, length_map.
    - intros Hall.
      destruct (collect_all_ready slots') as [rs Hrs]; [|congruence].
      intros i Hi. apply Hserved; [apply Hall|]; rewrite <- ?Hlen.
      + assert (length slots' = length slots)
          by (by rewrite <- (length_map slot_name slots'), Hn, length_map).
        lia.
      + assert (length slots' = length slots)
          by (by rewrite <- (length_map slot_name slots'), Hn, length_map).
        lia. }
  split; [exact Hmain|].
  intros Hall Hfmt.
  destruct (execute_parallel _ _ _ _ _ _ _).2 as [wr|e|]; [by eexists|..].
  - destruct Hmain as (name & agent & Hin & Ha & He).
    destruct (Hfmt name agent Hin Ha) as [prompt Hp]. congruence.
  - done.
Qed.

End ParallelClaims.

(** Four names, one unknown and one whose provider fails, served in the
    order third, first, second, fourth. *)
Lemma parallel_results_follow_input_witness :
  ∃ wr,
    (AsyncOrchestrator.execute_parallel simple_format demo_agents
       [2; 0; 1; 3]%nat tt "add tests" ["coder"; "ghost"; "flaky"; "reviewer"]
       "combine").2 = AsyncOrchestrator.Returned wr
    ∧ map AsyncOrchestrator.er_agent_name (AsyncOrchestrator.wr_results wr)
      = ["coder"; "ghost"; "flaky"; "reviewer"]
    ∧ map AsyncOrchestrator.er_success (AsyncOrchestrator.wr_results wr)
      = [true; false; false; true].
Proof.
  pose proof (parallel_results_follow_input simple_format demo_agents
                [2; 0; 1; 3]%nat tt "add tests"
                ["coder"; "ghost"; "flaky"; "reviewer"] "combine")
    as [Hnames Hret].
  destruct Hret as [wr Hwr].
  - intros i Hi. simpl in Hi.
    destruct i as [|[|[|[|i]]]]; try lia;
      repeat first [apply list_elem_of_here | apply list_elem_of_further].
  - intros name agent Hin Ha.
    repeat (apply elem_of_cons in Hin as [-> | Hin]);
      [..|by apply elem_of_nil in Hin];
      vm_compute in Ha; try discriminate; injection Ha as <-;
      eexists; vm_compute; reflexivity.
  - exists wr. rewrite Hwr in Hnames. split; [exact Hwr|].
    split; [apply Hnames|].
    vm_compute in Hwr. injection Hwr as <-. reflexivity.
Defined.

(** ** Continuous orchestration *)

Section ContinuousClaims.
Import AsyncOrchestrator OrchestratorSpec.
Context {World : Type}.
Variable str_format : string -> gmap string PyValue -> Exception + string.
Variable agents : list (string * @AgentRole World).
Variable max_iterations : Z.
Variable stop_condition : ExecutionResult -> bool.

Local Abbreviation run_queue :=
  (process_queue str_format agents max_iterations stop_condition).
Local Abbreviation hands_over :=
  (OrchestratorSpec.hands_over str_format agents).

Lemma nonempty_str_true s : s ≠ "" → nonempty_str s = true.
Proof. by destruct s. Qed.

Lemma iterations_from (k : Z) (n : nat) :
  map (fun i => (k + Z.of_nat i)%Z) (seq 0 (S n))
  = k :: map (fun i => (k + 1 + Z.of_nat i)%Z) (seq 0 n).
Proof.
  cbn [seq map]. f_equal; [lia|].
  rewrite <- seq_shift, map_map. apply map_ext. intros i. lia.
Qed.

(** One pass of the consumer loop over a queue that holds a single item
    for [x]. *)
Lemma process_queue_pass x X y polls st t k :
  hands_over x X y →
  (∀ r, stop_condition r = false) →
  cont_queue st = [mkQueueItem t x k] →
  ∃ st' r,
    run_queue (S polls) st = run_queue polls st'
    ∧ cont_results st' = cont_results st ++ [r]
    ∧ er_agent_name r = x ∧ er_iteration r = k ∧ er_success r = true
    ∧ length (cont_calls st') = S (length (cont_calls st))
    ∧ cont_queue st'
      = if (k <? max_iterations)%Z then
          [mkQueueItem (er_content r) y (k + 1)]
        else [].
Proof.
  intros (Hx & Hnext & Hy & Hanswers & Hprompt) Hstop Hq.
  cbn [process_queue]. rewrite Hq. cbn [item_target_agent]. rewrite Hx.
  cbn [item_task item_iteration].
  destruct (Hprompt t k) as [prompt ->].
  destruct (Hanswers (cont_world st) [plain_message "user" prompt])
    as (w & response & ->).
  rewrite Hstop, Hnext. simpl (from_option _ _ _).
  rewrite (nonempty_str_true _ Hy).
  cbn [andb]. eexists _, _. split; [reflexivity|]. cbn.
  split_and!; try done.
  all: rewrite length_app; simpl; lia.
Qed.

(** A two-agent cycle started at iteration [k] runs until the item of
    iteration [max_iterations] has been served, and then finds its queue
    empty. *)
Lemma cycle_runs n :
  ∀ x X y Y polls st t k,
    hands_over x X y → hands_over y Y x →
    (∀ r, stop_condition r = false) →
    cont_queue st = [mkQueueItem t x k] →
    Z.of_nat n = (max_iterations - k)%Z →
    (n + 2 ≤ polls)%nat →
    ∃ st' rs,
      run_queue polls st = (st', QueueDrained)
      ∧ cont_results st' = cont_results st ++ rs
      ∧ map er_iteration rs = map (fun i => (k + Z.of_nat i)%Z) (seq 0 (S n))
      ∧ map er_agent_name rs = alternate x y (S n)
      ∧ Forall (fun r => er_success r = true) rs
      ∧ length (cont_calls st') = (length (cont_calls st) + S n)%nat
      ∧ cont_queue st' = [].
Proof.
  induction n as [|n IH]; intros x X y Y polls st t k Hxy Hyx Hstop Hq Hn Hpolls.
  - destruct polls as [|[|polls]]; [lia..|].
    destruct (process_queue_pass x X y (S polls) st t k Hxy Hstop Hq)
      as (st' & r & -> & Hres & Hname & Hiter & Hok & Hcalls & Hq').
    destruct (Z.ltb_spec k max_iterations); [lia|].
    exists st', [r]. cbn [process_queue]. rewrite Hq'.
    split_and!; try done.
    + rewrite iterations_from. simpl. by rewrite Hiter.
    + simpl. by rewrite Hname.
    + by constructor.
    + lia.
  - destruct polls as [|polls]; [lia|].
    destruct (process_queue_pass x X y polls st t k Hxy Hstop Hq)
      as (st1 & r & -> & Hres & Hname & Hiter & Hok & Hcalls & Hq1).
    destruct (Z.ltb_spec k max_iterations); [|lia].
    destruct (IH y Y x X polls st1 (er_content r) (k + 1)%Z Hyx Hxy Hstop Hq1)
      as (st' & rs & -> & Hres' & Hiters & Hnames & Hoks & Hcalls' & Hq');
      [lia..|].
    exists st', (r :: rs). rewrite Hres', Hres, <- app_assoc.
    split_and!; try done.
    + rewrite (iterations_from k (S n)). cbn [map]. by rewrite Hiter, Hiters.
    + cbn [map alternate]. by rewrite Hname, Hnames.
    + by constructor.
    + lia.
Qed.

End ContinuousClaims.

Section ContinuousCycle.
Import AsyncOrchestrator OrchestratorSpec.
Context {World : Type}.
Variable str_format : string -> gmap string PyValue -> Exception + string.
Variable agents : list (string * @AgentRole World).

(** C9: a cycle of two agents, [a] handing over to [b] and [b] to [a],
    run in continuous mode from [a] on an orchestrator with
    [max_iterations = 3] and an empty task queue, with every provider call
    succeeding and no stop condition ever matching, produces exactly four
    Execution Results, from four provider calls, with the iteration
    indices 0, 1, 2, 3: the item of iteration 3 is served but enqueues no
    successor, and the next poll finds the queue empty.  The time limit
    must leave room for these five passes of the consumer loop. *)
Theorem two_agent_cycle_yields_four_results
    a A b B w initial_task stop_condition polls :
  first_agent agents = inr a →
  hands_over str_format agents a A b →
  hands_over str_format agents b B a →
  (∀ r, stop_condition r = false) →
  (5 ≤ polls)%nat →
  ∃ st wr,
    execute_continuous str_format agents 3 w [] initial_task stop_condition
      polls = (st, inr wr)
    ∧ map er_iteration (wr_results wr) = [0; 1; 2; 3]%Z
    ∧ map er_agent_name (wr_results wr) = [a; b; a; b]
    ∧ Forall (fun r => er_success r = true) (wr_results wr)
    ∧ length (wr_results wr) = 4%nat
    ∧ wr_total_iterations wr = 4%Z
    ∧ length (cont_calls st) = 4%nat
    ∧ cont_queue st = [].
Proof.
  intros Hfirst Hab Hba Hstop Hpolls. unfold execute_continuous.
  rewrite Hfirst. cbn [app].
  destruct (cycle_runs str_format agents 3 stop_condition 3 a A b B polls
              (mkContState w [mkQueueItem initial_task a 0] [] [])
              initial_task 0%Z Hab Hba Hstop eq_refl eq_refl)
    as (st & rs & -> & Hres & Hiters & Hnames & Hoks & Hcalls & Hq); [lia|].
  cbn [cont_results app] in Hres.
  assert (Hlen : length rs = 4%nat)
    by (by rewrite <- (length_map er_iteration), Hiters).
  eexists _, _. split; [reflexivity|]. cbn. rewrite Hres.
  split_and!; try done. by rewrite Hlen.
Qed.

End ContinuousCycle.

Lemma format_call_no_extra
    (str_format : string → gmap string PyValue → Exception + string)
    template explicit :
  AsyncOrchestrator.format_call str_format template explicit ∅
  = str_format template (list_to_map explicit).
Proof.
  unfold AsyncOrchestrator.format_call.
  assert (Hfind :
    List.find (fun kv : string * PyValue =>
                 bool_decide (is_Some ((∅ : gmap string PyValue) !! kv.1)))
      explicit = None).
  { induction explicit as [|kv rest IH]; [done|]. simpl.
    rewrite lookup_empty, bool_decide_eq_false_2; [done|]. by intros [? ?]. }
  rewrite Hfind. by rewrite (right_id_L ∅ (∪)).
Qed.

(** The templates of the demo agents can be filled whenever [task] is
    given. *)
Lemma simple_format_task template kwargs v :
  kwargs !! "task" = Some v →
  template = "Implement: {task}" ∨ template = "Review: {task}" →
  ∃ prompt, simple_format template kwargs = inr prompt.
Proof.
  intros H [-> | ->]; unfold simple_format; simpl; rewrite H; by eexists.
Qed.

Lemma two_agent_cycle_yields_four_results_witness :
  ∃ st wr,
    AsyncOrchestrator.execute_continuous simple_format demo_cycle 3 tt []
      "add tests" (fun _ => false) 5 = (st, inr wr)
    ∧ map AsyncOrchestrator.er_iteration (AsyncOrchestrator.wr_results wr)
      = [0; 1; 2; 3]%Z
    ∧ map AsyncOrchestrator.er_agent_name (AsyncOrchestrator.wr_results wr)
      = ["coder"; "reviewer"; "coder"; "reviewer"]
    ∧ Forall (fun r => AsyncOrchestrator.er_success r = true)
        (AsyncOrchestrator.wr_results wr)
    ∧ length (AsyncOrchestrator.wr_results wr) = 4%nat
    ∧ AsyncOrchestrator.wr_total_iterations wr = 4%Z
    ∧ length (AsyncOrchestrator.cont_calls st) = 4%nat
    ∧ AsyncOrchestrator.cont_queue st = [].
Proof.
  apply (two_agent_cycle_yields_four_results simple_format demo_cycle
           "coder" demo_coder "reviewer" demo_reviewer tt "add tests"
           (fun _ => false) 5).
  - reflexivity.
  - split_and!;
      [reflexivity|reflexivity|discriminate|intros; by eexists _, _|].
    intros t i. rewrite format_call_no_extra.
    eapply simple_format_task; [apply lookup_insert_eq|auto].
  - split_and!;
      [reflexivity|reflexivity|discriminate|intros; by eexists _, _|].
    intros t i. rewrite format_call_no_extra.
    eapply simple_format_task; [apply lookup_insert_eq|auto].
  - done.
  - lia.
Defined.

(** * Further properties *)

(** ** Sequential orchestration: the context passed to [str.format] *)

Section SequentialContext.
Import AsyncOrchestrator RunSpec.
Context {World : Type}.
Variable str_format : string -> gmap string PyValue -> Exception + string.
Variable agents : list (string * @AgentRole World).

Local Abbreviation loop := (sequential_loop str_format agents).

Lemma succeeded_snoc_failed results r :
  er_success r = false → succeeded (results ++ [r]) = succeeded results.
Proof.
  intros Hr. unfold succeeded.
  rewrite filter_app, filter_cons_False, filter_nil, app_nil_r; [done|].
  congruence.
Qed.

Lemma succeeded_snoc_ok results r :
  er_success r = true → succeeded (results ++ [r]) = succeeded results ++ [r].
Proof.
  intros Hr. unfold succeeded.
  by rewrite filter_app, filter_cons_True, filter_nil.
Qed.

(** Once the context holds ["previous_output"], the prompt of a known
    agent cannot be built: the keyword is passed twice. *)
Lemma format_call_previous_output_twice template task previous ctx :
  is_Some (ctx !! "previous_output") →
  ∃ e,
    format_call str_format template
      [("task", task); ("previous_output", previous)] ctx = inl e.
Proof.
  intros Hctx. unfold format_call. cbn [List.find fst].
  destruct (bool_decide (is_Some (ctx !! "task"))); [by eexists|].
  rewrite bool_decide_eq_true_2 by done. by eexists.
Qed.

(** From then on the loop calls no provider and records no success. *)
Lemma sequential_loop_after_success agent_order :
  ∀ i st,
    is_Some (seq_ctx st !! "previous_output") →
    seq_calls (loop i agent_order st).1 = seq_calls st
    ∧ succeeded (seq_results (loop i agent_order st).1)
      = succeeded (seq_results st)
    ∧ (loop i agent_order st).2 ≠ SeqBroke.
Proof.
  induction agent_order as [|name rest IH]; intros i st Hctx; [done|].
  cbn [sequential_loop].
  destruct (dict_get agents name) as [agent|].
  - destruct (format_call_previous_output_twice (ar_prompt_template agent)
                (PStr (seq_current_input st))
                (default (PStr "") (seq_ctx st !! "previous_output"))
                (seq_ctx st) Hctx) as [e ->].
    done.
  - match goal with |- context [loop (S i) rest ?s] =>
      destruct (IH (S i) s Hctx) as (Hc & Hs & He) end.
    split_and!; [done| |done].
    rewrite Hs. by apply succeeded_snoc_failed.
Qed.

Lemma sequential_loop_one_call agent_order :
  ∀ i st,
    seq_calls st = [] → succeeded (seq_results st) = [] →
    (length (seq_calls (loop i agent_order st).1) ≤ 1)%nat
    ∧ (length (succeeded (seq_results (loop i agent_order st).1)) ≤ 1)%nat.
Proof.
  induction agent_order as [|name rest IH]; intros i st Hcalls Hok.
  { cbn. rewrite Hcalls, Hok. simpl. lia. }
  cbn [sequential_loop].
  destruct (dict_get agents name) as [agent|].
  - destruct (format_call _ _ _ _) as [e|prompt].
    { cbn. rewrite Hcalls, Hok. simpl. lia. }
    destruct (complete _ _ _) as [w [e|response]].
    + cbn. rewrite Hcalls, succeeded_snoc_failed, Hok by done. simpl. lia.
    + match goal with |- context [loop (S i) rest ?s] =>
        destruct (sequential_loop_after_success rest (S i) s)
          as (Hc & Hs & _) end.
      { cbn. rewrite lookup_insert_eq. by eexists. }
      rewrite Hc, Hs. cbn.
      rewrite Hcalls, succeeded_snoc_ok, Hok by done. simpl. lia.
  - apply IH; [done|]. cbn. by rewrite succeeded_snoc_failed.
Qed.

(** X1: a run of [execute_sequential] sends at most one prompt to a
    provider and records at most one successful result, whatever the
    agents, the order and the context: after the first success the context
    holds ["previous_output"], and the next prompt cannot be built. *)
Theorem sequential_makes_at_most_one_call w task agent_order context :
  let '(_, calls, outcome) :=
    execute_sequential str_format agents w task agent_order context in
  (length calls ≤ 1)%nat
  ∧ match outcome with
    | inr wr => (length (succeeded (wr_results wr)) ≤ 1)%nat
    | inl _ => True
    end.
Proof.
  unfold execute_sequential.
  destruct (sequential_loop_one_call agent_order 0
              (mkSeqState w [] task (default ∅ context) []))
    as [Hc Hs]; [done..|].
  destruct (sequential_loop _ _ _ _ _) as [st [| |e]]; cbn in *; done.
Qed.

Lemma sequential_raises_after_success
    w task a A b B rest context prompt w' response :
  dict_get agents a = Some A →
  dict_get agents b = Some B →
  format_call str_format (ar_prompt_template A)
    [("task", PStr task);
     ("previous_output",
      default (PStr "") (default ∅ context !! "previous_output"))]
    (default ∅ context) = inr prompt →
  complete (ar_provider A) w [plain_message "user" prompt]
  = (w', inr response) →
  ∃ e,
    execute_sequential str_format agents w task (a :: b :: rest) context
    = (w', [(a, prompt)], inl e).
Proof.
  intros Ha Hb Hprompt Hcall. unfold execute_sequential.
  cbn [sequential_loop seq_current_input seq_ctx seq_world seq_calls
       seq_results].
  rewrite Ha, Hprompt, Hcall, Hb.
  destruct (format_call_previous_output_twice (ar_prompt_template B)
              (PStr (resp_content response))
              (default (PStr "")
                 (<["previous_output" := PStr (resp_content response)]>
                    (default ∅ context) !! "previous_output"))
              (<["previous_output" := PStr (resp_content response)]>
                 (default ∅ context)))
    as [e He].
  { rewrite lookup_insert_eq. by eexists. }
  rewrite He. by exists e.
Qed.

(** X2: when the agent listed first succeeds and the agent listed second
    is known, [execute_sequential] does not return: building the second
    prompt raises, after exactly one provider call. *)
Theorem second_known_agent_raises
    w task a A b B rest context prompt w' response :
  dict_get agents a = Some A →
  dict_get agents b = Some B →
  format_call str_format (ar_prompt_template A)
    [("task", PStr task);
     ("previous_output",
      default (PStr "") (default ∅ context !! "previous_output"))]
    (default ∅ context) = inr prompt →
  complete (ar_provider A) w [plain_message "user" prompt]
  = (w', inr response) →
  ∃ e,
    execute_sequential str_format agents w task (a :: b :: rest) context
    = (w', [(a, prompt)], inl e).
Proof. apply sequential_raises_after_success. Qed.

End SequentialContext.

Lemma second_known_agent_raises_witness :
  ∃ e,
    AsyncOrchestrator.execute_sequential simple_format demo_agents tt
      "add tests" ["coder"; "reviewer"] None
    = (tt, [("coder", "Implement: add tests")], inl e).
Proof.
  apply (second_known_agent_raises simple_format demo_agents tt "add tests"
           "coder" demo_coder "reviewer" demo_reviewer [] None
           "Implement: add tests" tt
           (mkCompletionResponse "CODE for Implement: add tests" [] "stop"));
    reflexivity.
Defined.

Section StopFacts.
Import AsyncOrchestrator RoundRobin RunSpec.
Variable stop_condition : option (ExecutionResult -> StopOutcome).

Lemma stop_failures_cons r results :
  stop_failures stop_condition (r :: results)
  = ((if stop_raises stop_condition r then 1 else 0)
     + stop_failures stop_condition results)%nat.
Proof.
  unfold stop_failures. rewrite filter_cons.
  destruct (stop_raises stop_condition r) eqn:E.
  - by rewrite decide_True.
  - by rewrite decide_False.
Qed.

Lemma stop_failures_snoc results r :
  stop_failures stop_condition (results ++ [r])
  = (stop_failures stop_condition results
     + (if stop_raises stop_condition r then 1 else 0))%nat.
Proof.
  induction results as [|x xs IH].
  - simpl. rewrite stop_failures_cons. unfold stop_failures. simpl. lia.
  - simpl. rewrite !stop_failures_cons, IH. lia.
Qed.

Lemma stop_raises_failed r :
  er_success r = false → stop_raises stop_condition r = false.
Proof. unfold stop_raises. by intros ->. Qed.

Lemma succeeded_cons r results :
  succeeded (r :: results)
  = if er_success r then r :: succeeded results else succeeded results.
Proof.
  unfold succeeded. rewrite filter_cons.
  destruct (er_success r); [by rewrite decide_True|by rewrite decide_False].
Qed.

Lemma succeeded_lookup results i r :
  results !! i = Some r → er_success r = true →
  (1 ≤ length (succeeded results))%nat.
Proof.
  revert i. induction results as [|x xs IH]; intros [|i] Hi Hok;
    simpl in Hi; try done; rewrite succeeded_cons.
  - injection Hi as ->. rewrite Hok. simpl. lia.
  - specialize (IH i Hi Hok). destruct (er_success x); simpl; lia.
Qed.

End StopFacts.

(** ** Continuous orchestration: the chain of results *)

Section ContinuousChain.
Import AsyncOrchestrator Pipeline RunSpec.
Context {World : Type}.
Variable str_format : string -> gmap string PyValue -> Exception + string.
Variable agents : list (string * @AgentRole World).
Variable max_iterations : Z.
Variable stop_condition : ExecutionResult -> StopOutcome.

Local Abbreviation run_queue :=
  (Pipeline.process_queue str_format agents max_iterations stop_condition).
Local Abbreviation chain_effect :=
  (@RunSpec.chain_effect World max_iterations stop_condition).

Lemma process_queue_empty polls calls_in_time (st : @ContState World) :
  cont_queue st = [] → (run_queue polls calls_in_time st).1 = st.
Proof. intros Hq. destruct polls; cbn; by rewrite ?Hq. Qed.

Lemma stop_raises_eq r :
  stop_raises (Some stop_condition) r
  = er_success r
    && match stop_condition r with StopRaises _ => true | _ => false end.
Proof. done. Qed.

(** The loop ends in [st'], having recorded the results [rs] of [k]
    provider calls, one at most. *)
Lemma chain_effect_end (st st' : @ContState World) item rs k :
  cont_queue st = [item] →
  cont_results st' = cont_results st ++ rs →
  length (cont_calls st') = (length (cont_calls st) + k)%nat →
  (k ≤ 1)%nat →
  (length (succeeded rs) ≤ k)%nat →
  (length rs ≤ k + stop_failures (Some stop_condition) rs)%nat →
  (k + stop_failures (Some stop_condition) rs ≤ S (length rs))%nat →
  (stop_failures (Some stop_condition) rs ≤ 1)%nat →
  (∀ i r, rs !! i = Some r → (S i < length rs)%nat →
          er_success r = true ∧ i = O) →
  (∀ r, head rs = Some r → er_success r = true →
        er_iteration r = item_iteration item) →
  (length (cont_queue st') ≤ 1)%nat →
  chain_effect st st'.
Proof.
  intros Hq Hr Hc Hk Hs Hf1 Hf2 Hf3 Hinit Hiter Hq'.
  exists rs, k. rewrite Hq. cbn [chain_budget].
  split_and!; [done|done|lia|done|done|done|done| | |done].
  - intros i r Hi Hlt. by destruct (Hinit i r Hi Hlt).
  - intros i r item0 [= <-] Hi Hok.
    destruct i as [|i].
    + rewrite (Hiter r); [lia| |done]. by destruct rs.
    + destruct rs as [|r0 rs0]; [done|].
      assert (Hlen : (1 < length (r0 :: rs0))%nat).
      { apply lookup_lt_Some in Hi. simpl in *. lia. }
      destruct (Hinit O r0 eq_refl Hlen) as [Hok0 _].
      rewrite succeeded_cons, Hok0 in Hs. simpl in Hs, Hi.
      pose proof (succeeded_lookup rs0 i r Hi Hok). lia.
Qed.

Lemma chain_effect_done (st st' : @ContState World) :
  cont_results st' = cont_results st →
  length (cont_calls st') = length (cont_calls st) →
  (length (cont_queue st') ≤ 1)%nat →
  chain_effect st st'.
Proof.
  intros Hr Hc Hq. exists [], O. rewrite Hr, Hc, app_nil_r.
  unfold stop_failures. simpl.
  split_and!; try done; try lia; intros i r; by rewrite lookup_nil.
Qed.

(** One successful result [r0], on which the stop condition returns, is
    recorded and one call made on the way from [st] to [st1]; the chain
    goes on from [st1]. *)
Lemma chain_effect_step (st st1 st' : @ContState World) item r0 :
  cont_queue st = [item] →
  cont_results st1 = cont_results st ++ [r0] →
  length (cont_calls st1) = S (length (cont_calls st)) →
  er_success r0 = true →
  stop_raises (Some stop_condition) r0 = false →
  er_iteration r0 = item_iteration item →
  (chain_budget max_iterations (cont_queue st1)
   < chain_budget max_iterations (cont_queue st))%nat →
  (∀ item', head (cont_queue st1) = Some item' →
            item_iteration item' = (item_iteration item + 1)%Z) →
  chain_effect st1 st' →
  chain_effect st st'.
Proof.
  intros Hq Hr1 Hc1 Hok0 Hnr Hit Hbudget Hnext
    (rs & k & Hr & Hc & Hk & Hs & Hf1 & Hf2 & Hf3 & Hinit & Hiter & Hq').
  exists (r0 :: rs), (S k).
  rewrite Hr, Hr1, <- app_assoc, Hc, Hc1, stop_failures_cons, Hnr,
    succeeded_cons, Hok0.
  cbn [length app].
  split_and!; [done|lia|lia|lia|lia|lia|lia| | |done].
  - intros [|i] r Hi Hlt; simpl in Hi.
    + by injection Hi as <-.
    + apply (Hinit i r Hi). lia.
  - intros [|i] r item0 Hhead Hi Hok; rewrite Hq in Hhead;
      injection Hhead as <-; simpl in Hi.
    + injection Hi as <-. rewrite Hit. lia.
    + pose proof (succeeded_lookup rs i r Hi Hok) as Hsome.
      destruct (cont_queue st1) as [|item' q] eqn:E.
      { simpl in Hk. lia. }
      rewrite (Hiter i r item' eq_refl Hi Hok), (Hnext item' eq_refl). lia.
Qed.

Lemma process_queue_chain polls :
  ∀ calls_in_time st,
    (length (cont_queue st) ≤ 1)%nat →
    chain_effect st (run_queue polls calls_in_time st).1.
Proof.
  induction polls as [|polls IH]; intros calls_in_time st Hq.
  { by apply chain_effect_done. }
  cbn [process_queue].
  destruct (cont_queue st) as [|item [|item2 queue]] eqn:Eq;
    [apply chain_effect_done; cbn [fst]; rewrite ?Eq; simpl; (done || lia)|
     |simpl in Hq; lia].
  destruct (dict_get agents (item_target_agent item)) as [agent|].
  2:{ rewrite process_queue_empty by done.
      apply chain_effect_done; simpl; (done || lia). }
  destruct (format_call _ _ _ _) as [e|prompt].
  { apply chain_effect_done; cbn; [done|done|lia]. }
  cbv zeta.
  destruct calls_in_time as [|calls_in_time].
  { cbn [fst]. apply (chain_effect_end _ _ item [] 1); cbn;
      rewrite ?app_nil_r, ?length_app; unfold stop_failures; simpl;
      try done; try lia; intros i r; by rewrite ?lookup_nil. }
  destruct (complete _ _ _) as [w [e|response]].
  - rewrite process_queue_empty by done.
    apply (chain_effect_end _ _ item
             [mkExecutionResult (item_target_agent item) (ar_role agent)
                false "" (Some e) 0] 1);
      cbn; rewrite ?length_app, ?stop_failures_cons, ?stop_raises_failed;
      unfold stop_failures; simpl; try done; try lia.
    by intros r [= <-].
  - set (result := mkExecutionResult _ _ true _ None _).
    assert (Hone : ∀ i r, [result] !! i = Some r →
                          (S i < length [result])%nat →
                          er_success r = true ∧ i = O).
    { intros [|i] r Hi Hlt; simpl in *; lia. }
    destruct (stop_condition result) as [[|]|e|e] eqn:Hs.
    + cbn [fst].
      apply (chain_effect_end _ _ item [result] 1);
        cbn [cont_results cont_calls cont_queue];
        rewrite ?length_app, ?stop_failures_cons, ?succeeded_cons,
          ?stop_raises_eq, ?Hs;
        unfold stop_failures; simpl; try done; try lia.
      by intros r [= <-].
    + match goal with |- chain_effect _ (run_queue polls _ ?s).1 =>
        apply (chain_effect_step st s _ item result) end;
        cbn [cont_results cont_calls cont_queue];
        rewrite ?Eq, ?length_app, ?stop_raises_eq, ?Hs; simpl; try done;
        try lia.
      * destruct (nonempty_str _ && _) eqn:Hnext; simpl; [|lia].
        apply andb_true_iff in Hnext as [_ Hlt%Z.ltb_lt]. lia.
      * intros item'. destruct (nonempty_str _ && _); simpl; [|done].
        by intros [= <-].
      * apply IH. cbn. destruct (nonempty_str _ && _); simpl; lia.
    + rewrite process_queue_empty by done.
      apply (chain_effect_end _ _ item
               [result;
                mkExecutionResult (item_target_agent item) (ar_role agent)
                  false "" (Some e) 0] 1);
        cbn [cont_results cont_calls cont_queue];
        rewrite ?length_app, ?stop_failures_cons, ?succeeded_cons,
          ?stop_raises_eq, ?Hs, <- ?app_assoc;
        unfold stop_failures; simpl; try done; try lia.
      * intros [|[|i]] r Hi Hlt; simpl in *; try lia.
        by injection Hi as <-.
      * by intros r [= <-].
    + cbn [fst].
      apply (chain_effect_end _ _ item [result] 1);
        cbn [cont_results cont_calls cont_queue];
        rewrite ?length_app, ?stop_failures_cons, ?succeeded_cons,
          ?stop_raises_eq, ?Hs;
        unfold stop_failures; simpl; try done; try lia.
      by intros r [= <-].
Qed.

(** X3: started on an empty task queue, [execute_continuous] makes at
    most [max_iterations + 1] provider calls (one, if [max_iterations] is
    negative), whatever the agents, the stop condition and the time
    limit.  Every successful result comes from one of them.  Besides
    these results there is at most one more, recording an exception of
    the stop condition, which is called inside the [try] block after the
    result has been appended; and at most one call, cancelled by the time
    limit, is left without a result.  Every result but the last is a
    success, and the successful results carry the iteration indices 0, 1,
    2, ... of their positions: a failure ends the chain. *)
Theorem continuous_chain_is_bounded w initial_task polls calls_in_time :
  let st :=
    (Pipeline.execute_continuous str_format agents max_iterations w []
       initial_task stop_condition polls calls_in_time).1 in
  (length (cont_calls st) ≤ S (Z.to_nat max_iterations))%nat
  ∧ (length (succeeded (cont_results st)) ≤ length (cont_calls st))%nat
  ∧ (length (cont_results st)
     ≤ length (cont_calls st)
       + stop_failures (Some stop_condition) (cont_results st))%nat
  ∧ (length (cont_calls st)
     + stop_failures (Some stop_condition) (cont_results st)
     ≤ S (length (cont_results st)))%nat
  ∧ (stop_failures (Some stop_condition) (cont_results st) ≤ 1)%nat
  ∧ (∀ i r, cont_results st !! i = Some r →
            (S i < length (cont_results st))%nat → er_success r = true)
  ∧ (∀ i r, cont_results st !! i = Some r → er_success r = true →
            er_iteration r = Z.of_nat i)
  ∧ (length (cont_queue st) ≤ 1)%nat.
Proof.
  unfold Pipeline.execute_continuous.
  destruct (first_agent agents) as [e|first].
  { cbn. unfold stop_failures. simpl.
    split_and!; try done; try lia; intros i r; by rewrite lookup_nil. }
  cbn [app].
  destruct (process_queue_chain polls calls_in_time
              (mkContState w [mkQueueItem initial_task first 0] [] []))
    as (rs & k & Hr & Hc & Hk & Hs & Hf1 & Hf2 & Hf3 & Hinit & Hiter & Hq);
    [simpl; lia|].
  cbn in Hr, Hc, Hk, Hiter. rewrite Z.sub_0_r in Hk.
  assert (Hst :
    (let (st, e) :=
       Pipeline.process_queue str_format agents max_iterations stop_condition
         polls calls_in_time
         (mkContState w [mkQueueItem initial_task first 0] [] []) in
     match e with
     | LoopRaised e0 => (st, inl e0)
     | _ =>
         (st,
          inr (mkWorkflowResult (existsb er_success (cont_results st))
                 (cont_results st) (last_content_if_success (cont_results st))
                 (Z.of_nat (length (cont_results st)))))
     end).1
    = (Pipeline.process_queue str_format agents max_iterations stop_condition
         polls calls_in_time
         (mkContState w [mkQueueItem initial_task first 0] [] [])).1).
  { by destruct (Pipeline.process_queue _ _ _ _ _ _ _) as [st []]. }
  cbv zeta. rewrite Hst, Hr, Hc.
  split_and!; [lia|lia|lia|lia|done|done| |done].
  intros i r Hi Hok.
  rewrite (Hiter i r (mkQueueItem initial_task first 0) eq_refl Hi Hok).
  simpl. lia.
Qed.

(** With a stop condition that returns and provider calls that all come
    back in time, the loop is the one of [AsyncOrchestrator]. *)
Lemma process_queue_in_time (stop : ExecutionResult -> bool) polls :
  ∀ calls_in_time st,
    (polls ≤ calls_in_time)%nat →
    Pipeline.process_queue str_format agents max_iterations
      (fun r => StopReturns (stop r)) polls calls_in_time st
    = AsyncOrchestrator.process_queue str_format agents max_iterations stop
        polls st.
Proof.
  induction polls as [|polls IH]; intros calls_in_time st Hle; [done|].
  cbn [Pipeline.process_queue AsyncOrchestrator.process_queue].
  destruct (cont_queue st) as [|item queue]; [done|].
  destruct (dict_get agents (item_target_agent item)) as [agent|];
    [|apply IH; lia].
  destruct (format_call _ _ _ _) as [e|prompt]; [done|].
  destruct calls_in_time as [|calls_in_time]; [lia|].
  cbv zeta.
  destruct (complete _ _ _) as [w [e|response]]; [apply IH; lia|].
  destruct (stop _); [done|]. apply IH. lia.
Qed.

End ContinuousChain.

(** ** Round-robin orchestration *)

Section RoundRobinFacts.
Import AsyncOrchestrator RoundRobin RunSpec.
Context {World : Type}.
Variable str_format : string -> gmap string PyValue -> Exception + string.
Variable agents : list (string * @AgentRole World).
Variable task : string.
Variable stop_condition : option (ExecutionResult -> StopOutcome).

Local Abbreviation one_round := (round_loop str_format agents task stop_condition).
Local Abbreviation all_rounds := (rounds_loop str_format agents task stop_condition).
Local Abbreviation rr_inv := (@RunSpec.rr_inv World task stop_condition).
Local Abbreviation stop_failures := (RunSpec.stop_failures stop_condition).
Local Abbreviation stop_raises := (RunSpec.stop_raises stop_condition).
Local Abbreviation stop_matches := (RunSpec.stop_matches stop_condition).

(** The state after one more provider call that added the result [r],
    and [extra] after it when the stop condition raised on [r]. *)
Lemma rr_inv_snoc stopped w (st : @RRState World) r input history calls :
  rr_inv false st →
  length calls = S (length (rr_calls st)) →
  stop_raises r = false →
  (er_success r = true →
   er_iteration r = Z.of_nat (length (rr_results st))
   ∧ input = er_content r
   ∧ stop_matches r = stopped) →
  (er_success r = false → input = rr_current_input st) →
  rr_inv stopped (mkRRState w (rr_results st ++ [r]) input history calls).
Proof.
  intros (Hc & Hit & Hstop & Hin) Hcalls Hnr Hok Hfail.
  unfold RunSpec.rr_inv. cbn [rr_results rr_calls rr_current_input].
  rewrite stop_failures_snoc, Hnr, length_app. cbn [length].
  split_and!; [lia|..].
  - intros i r' [Hi|[Hlen Hi]]%lookup_app_Some Hr'; [by apply (Hit i)|].
    apply list_lookup_singleton_Some in Hi as [Hi <-].
    destruct (Hok Hr') as [-> _]. f_equal. lia.
  - intros i r' [Hi|[Hlen Hi]]%lookup_app_Some Hr' Hs.
    + by destruct (Hstop i r' Hi Hr' Hs).
    + apply list_lookup_singleton_Some in Hi as [Hi <-].
      destruct (Hok Hr') as (_ & _ & <-). split; [done|lia].
  - destruct (er_success r) eqn:E.
    + rewrite succeeded_snoc_ok, last_snoc by done. simpl.
      by destruct (Hok eq_refl) as (_ & -> & _).
    + rewrite succeeded_snoc_failed by done. by rewrite Hfail.
Qed.

Lemma rr_inv_snoc_raised w (st : @RRState World) r extra history calls :
  rr_inv false st →
  length calls = S (length (rr_calls st)) →
  er_success r = true →
  stop_raises r = true →
  er_iteration r = Z.of_nat (length (rr_results st)) →
  er_success extra = false →
  rr_inv false
    (mkRRState w ((rr_results st ++ [r]) ++ [extra]) (er_content r) history
       calls).
Proof.
  intros (Hc & Hit & Hstop & Hin) Hcalls Hok Hr Hiter Hextra.
  assert (Hnm : stop_matches r = false).
  { unfold RunSpec.stop_raises in Hr. unfold RunSpec.stop_matches.
    rewrite Hok in Hr. by destruct (check_stop stop_condition r). }
  unfold RunSpec.rr_inv. cbn [rr_results rr_calls rr_current_input].
  rewrite !stop_failures_snoc, Hr, (stop_raises_failed _ extra Hextra),
    !length_app. cbn [length].
  split_and!; [lia|..].
  - intros i r' [[Hi|[Hlen Hi]]%lookup_app_Some|[Hlen Hi]]%lookup_app_Some Hr'.
    + by apply (Hit i).
    + apply list_lookup_singleton_Some in Hi as [Hi <-].
      rewrite Hiter. f_equal. lia.
    + apply list_lookup_singleton_Some in Hi as [Hi <-]. congruence.
  - intros i r' [[Hi|[Hlen Hi]]%lookup_app_Some|[Hlen Hi]]%lookup_app_Some
      Hr' Hs.
    + by destruct (Hstop i r' Hi Hr' Hs).
    + apply list_lookup_singleton_Some in Hi as [Hi <-]. congruence.
    + apply list_lookup_singleton_Some in Hi as [Hi <-]. congruence.
  - rewrite succeeded_snoc_failed by done.
    by rewrite succeeded_snoc_ok, last_snoc by done.
Qed.

Lemma round_loop_inv round_num agent_order :
  ∀ st,
    rr_inv false st →
    rr_inv (is_stopped (one_round round_num agent_order st).2)
      (one_round round_num agent_order st).1
    ∧ (length (rr_calls (one_round round_num agent_order st).1)
       ≤ length (rr_calls st) + length agent_order)%nat
    ∧ (∀ final, (one_round round_num agent_order st).2 = RRStopped final →
         final = rr_current_input (one_round round_num agent_order st).1
         ∧ existsb er_success
             (rr_results (one_round round_num agent_order st).1) = true).
Proof.
  induction agent_order as [|name rest IH]; intros st Hinv.
  { cbn. split_and!; [done|lia|done]. }
  cbn [round_loop length].
  destruct (dict_get agents name) as [agent|].
  2:{ destruct (IH st Hinv) as (H1 & H2 & H3). split_and!; [done|lia|done]. }
  destruct (format_call _ _ _ _) as [e|prompt].
  { cbn. split_and!; [done|lia|done]. }
  destruct (complete _ _ _) as [w [e|response]].
  - match goal with |- context [one_round round_num rest ?s] =>
      destruct (IH s) as (H1 & H2 & H3) end.
    { apply rr_inv_snoc; cbn; rewrite ?length_app; simpl; try done; lia. }
    cbn in H2. rewrite length_app in H2. simpl in H2.
    split_and!; [done|lia|done].
  - cbv zeta.
    set (result := mkExecutionResult _ _ true _ None _).
    destruct (check_stop stop_condition result) as [[|]|e|e] eqn:Hs.
    + cbn [fst snd is_stopped]. split_and!.
      * apply rr_inv_snoc; cbn; rewrite ?length_app; simpl; try done;
          unfold RunSpec.stop_raises, RunSpec.stop_matches;
          rewrite ?Hs; try done; lia.
      * cbn. rewrite length_app. simpl. lia.
      * intros final [= <-]. split; [done|]. cbn.
        by rewrite existsb_app, orb_true_r.
    + match goal with |- context [one_round round_num rest ?s] =>
        destruct (IH s) as (H1 & H2 & H3) end.
      { apply rr_inv_snoc; cbn; rewrite ?length_app; simpl; try done;
          unfold RunSpec.stop_raises, RunSpec.stop_matches;
          rewrite ?Hs; try done; lia. }
      cbn in H2. rewrite length_app in H2. simpl in H2.
      split_and!; [done|lia|done].
    + cbn [rr_results rr_current_input rr_history].
      match goal with |- context [one_round round_num rest ?s] =>
        destruct (IH s) as (H1 & H2 & H3) end.
      { apply (rr_inv_snoc_raised w st result); cbn; rewrite ?length_app;
          simpl; try done; unfold RunSpec.stop_raises; rewrite ?Hs;
          try done; lia. }
      cbn in H2. rewrite length_app in H2. simpl in H2.
      split_and!; [done|lia|done].
    + cbn [fst snd is_stopped]. split_and!.
      * apply rr_inv_snoc; cbn; rewrite ?length_app; simpl; try done;
          unfold RunSpec.stop_raises, RunSpec.stop_matches;
          rewrite ?Hs; try done; lia.
      * cbn. rewrite length_app. simpl. lia.
      * done.
Qed.

Lemma rounds_loop_inv agent_order n :
  ∀ round_num st,
    rr_inv false st →
    rr_inv (is_stopped (all_rounds n round_num agent_order st).2)
      (all_rounds n round_num agent_order st).1
    ∧ (length (rr_calls (all_rounds n round_num agent_order st).1)
       ≤ length (rr_calls st) + n * length agent_order)%nat
    ∧ (∀ final, (all_rounds n round_num agent_order st).2 = RRStopped final →
         final = rr_current_input (all_rounds n round_num agent_order st).1
         ∧ existsb er_success
             (rr_results (all_rounds n round_num agent_order st).1) = true).
Proof.
  induction n as [|n IH]; intros round_num st Hinv.
  { cbn. split_and!; [done|lia|done]. }
  cbn [rounds_loop].
  destruct (round_loop_inv round_num agent_order st Hinv) as (H1 & H2 & H3).
  destruct (one_round round_num agent_order st) as [st1 [|final|e]];
    cbn [fst snd is_stopped] in *.
  - destruct (IH (S round_num) st1 H1) as (H1' & H2' & H3').
    split_and!; [done|lia|done].
  - split_and!; [done|lia|done].
  - split_and!; [done|lia|done].
Qed.

End RoundRobinFacts.

Section RoundRobinClaims.
Import AsyncOrchestrator RoundRobin RunSpec.
Context {World : Type}.
Variable str_format : string -> gmap string PyValue -> Exception + string.
Variable agents : list (string * @AgentRole World).

(** X4: whenever [execute_round_robin] returns, its [final_output] is
    the content of the last successful result, or the task itself if no
    agent succeeded, and [success] tells whether one did.  Successful
    results carry their position as iteration index; a result matched by
    the stop condition is the last one, so no agent is invoked after a
    match.  There is one result for every provider call and one more for
    every successful result on which the stop condition raised an
    exception that the handler catches: the stop condition is called
    inside the [try] block, after the result has been appended.  There
    are at most [max_rounds] times the length of [agent_order] provider
    calls. *)
Theorem round_robin_result
    w task agent_order max_rounds stop_condition st wr :
  execute_round_robin str_format agents w task agent_order max_rounds
    stop_condition = (st, inr wr) →
  wr_results wr = rr_results st
  ∧ wr_final_output wr
    = default task (er_content <$> last (succeeded (wr_results wr)))
  ∧ wr_success wr = existsb er_success (wr_results wr)
  ∧ wr_total_iterations wr = Z.of_nat (length (wr_results wr))
  ∧ (∀ i r, wr_results wr !! i = Some r → er_success r = true →
            er_iteration r = Z.of_nat i)
  ∧ (∀ i r, wr_results wr !! i = Some r → er_success r = true →
            stop_matches stop_condition r = true →
            S i = length (wr_results wr))
  ∧ length (wr_results wr)
    = (length (rr_calls st)
       + stop_failures stop_condition (wr_results wr))%nat
  ∧ (length (rr_calls st) ≤ Z.to_nat max_rounds * length agent_order)%nat.
Proof.
  unfold execute_round_robin.
  destruct (rounds_loop_inv str_format agents task stop_condition agent_order
              (Z.to_nat max_rounds) 0 (mkRRState w [] task [] []))
    as ((Hc & Hit & Hstop & Hin) & Hlen & Hfinal).
  { unfold rr_inv. cbn. split_and!; try done; intros i r; by rewrite lookup_nil. }
  destruct (rounds_loop _ _ _ _ _ _ _ _) as [st' [|final|e]];
    cbn [fst snd is_stopped] in *; intros [= <- <-]; cbn [wr_results
      wr_final_output wr_success wr_total_iterations].
  - split_and!; try done.
    all: try (intros i r Hi Hr Hs; by destruct (Hstop i r Hi Hr Hs)).
    all: cbn in Hlen; lia.
  - destruct (Hfinal final eq_refl) as [-> Hsome].
    split_and!; try done.
    all: try (intros i r Hi Hr Hs; by destruct (Hstop i r Hi Hr Hs)).
    all: cbn in Hlen; lia.
Qed.

End RoundRobinClaims.

(** ** Parallel orchestration: provider calls and merging *)

Section ParallelMore.
Import AsyncOrchestrator OrchestratorSpec RunSpec.
Context {World : Type}.
Variable str_format : string -> gmap string PyValue -> Exception + string.
Variable agents : list (string * @AgentRole World).

Local Abbreviation known := (@RunSpec.known World agents).

Lemma awaiting_ready r (slots : list (@Slot World)) :
  awaiting (Ready r :: slots) = awaiting slots.
Proof. reflexivity. Qed.

Lemma awaiting_awaiting name agent prompt (slots : list (@Slot World)) :
  awaiting (Awaiting name agent prompt :: slots) = name :: awaiting slots.
Proof. reflexivity. Qed.

Lemma start_all_awaiting task agent_names :
  ∀ slots,
    start_all str_format agents task agent_names = inr slots →
    awaiting slots = filter (fun n => known n = true) agent_names.
Proof.
  induction agent_names as [|name rest IH]; intros slots; simpl.
  { by intros [= <-]. }
  unfold run_agent_start, known at 1.
  destruct (dict_get agents name) as [agent|] eqn:Hname.
  - destruct (format_call _ _ _ _) as [e|prompt]; [done|].
    destruct (start_all _ _ _ rest) as [e|ss]; [done|].
    intros [= <-]. rewrite filter_cons_True by (unfold known; by rewrite Hname).
    by rewrite awaiting_awaiting, (IH ss).
  - destruct (start_all _ _ _ rest) as [e|ss]; [done|].
    intros [= <-]. rewrite filter_cons_False
      by (unfold known; rewrite Hname; congruence).
    unfold not_found_result. by rewrite awaiting_ready, (IH ss).
Qed.

Lemma awaiting_insert_ready (slots : list (@Slot World)) :
  ∀ i name agent prompt r,
    slots !! i = Some (Awaiting name agent prompt) →
    awaiting slots ≡ₚ name :: awaiting (<[i := Ready r]> slots).
Proof.
  induction slots as [|s rest IH]; intros [|i] name agent prompt r Hi;
    simpl in Hi; try done.
  - injection Hi as ->. done.
  - change (<[S i := Ready r]> (s :: rest))
      with (s :: <[i := Ready r]> rest).
    destruct s as [r0|n0 a0 p0].
    + rewrite !awaiting_ready. by apply (IH i name agent prompt r).
    + rewrite !awaiting_awaiting, (IH i name agent prompt r Hi).
      apply Permutation_swap.
Qed.

Lemma gather_calls schedule :
  ∀ w (slots : list (@Slot World)) calls,
    let '(_, slots', calls') := gather schedule w slots calls in
    calls'.*1 ++ awaiting slots' ≡ₚ calls.*1 ++ awaiting slots.
Proof.
  induction schedule as [|j rest IH]; intros w slots calls; cbn [gather]; [done|].
  destruct (slots !! j) as [[r|name agent prompt]|] eqn:Hj; [apply IH| |apply IH].
  destruct (run_agent_finish w name agent prompt) as [w' r].
  specialize (IH w' (<[j := Ready r]> slots) (calls ++ [(name, prompt)])).
  destruct (gather rest w' _ _) as [[w'' slots'] calls'].
  rewrite IH, fmap_app, <- app_assoc. cbn.
  by rewrite <- (awaiting_insert_ready slots j name agent prompt r Hj).
Qed.

Lemma collect_awaiting (slots : list (@Slot World)) results :
  collect slots = Some results → awaiting slots = [].
Proof.
  revert results.
  induction slots as [|[r|name agent prompt] rest IH]; intros results;
    cbn [collect]; [done| |done].
  destruct (collect rest) as [rs|] eqn:E; [|done]. intros _.
  rewrite awaiting_ready. by eapply IH.
Qed.

(** X5: when [execute_parallel] returns, every known agent of the input
    list has been sent its prompt exactly once, whichever agents failed:
    the agents of the provider calls are, up to their order, the known
    names of the input list.  No call is made for an unknown name and none
    is cancelled. *)
Theorem parallel_calls_every_known_agent
    schedule w task agent_names merge_strategy w' calls wr :
  execute_parallel str_format agents schedule w task agent_names
    merge_strategy = (w', calls, Returned wr) →
  calls.*1 ≡ₚ filter (fun n => known n = true) agent_names.
Proof.
  unfold execute_parallel.
  destruct (start_all str_format agents task agent_names) as [e|slots] eqn:Hs;
    [done|].
  apply start_all_awaiting in Hs.
  pose proof (gather_calls schedule w slots []) as Hg.
  destruct (gather schedule w slots []) as [[w1 slots'] calls'].
  destruct (collect slots') as [results|] eqn:Hc; [|done].
  intros [= <- <- <-].
  rewrite (collect_awaiting _ _ Hc), app_nil_r in Hg. cbn in Hg.
  by rewrite Hg, Hs.
Qed.

Lemma longest_spec (rs : list ExecutionResult) :
  ∀ best,
    longest best rs ∈ best :: rs
    ∧ ∀ r, r ∈ best :: rs →
           (String.length (er_content r)
            ≤ String.length (er_content (longest best rs)))%nat.
Proof.
  induction rs as [|r0 rs IH]; intros best; cbn [longest].
  { split; [left|]. by intros r ->%list_elem_of_singleton. }
  destruct (Nat.ltb_spec (String.length (er_content best))
              (String.length (er_content r0))) as [Hlt|Hge].
  - destruct (IH r0) as [Hin Hmax]. split; [by right|].
    intros r [->|Hr]%elem_of_cons; [|by apply Hmax].
    specialize (Hmax r0 ltac:(left)). lia.
  - destruct (IH best) as [Hin Hmax]. split.
    + apply elem_of_cons in Hin as [->|Hin]; [left|right; by right].
    + intros r [->|[->|Hr]%elem_of_cons]%elem_of_cons.
      * apply Hmax. left.
      * specialize (Hmax best ltac:(left)). lia.
      * apply Hmax. by right.
Qed.

(** X6: when [execute_parallel] returns, [success] tells whether some
    agent succeeded.  With the strategy ["best"] the final output is the
    content of a successful result and no successful result has a longer
    content; with a strategy other than ["combine"] and ["best"] it is
    the content of the first successful result in input order; with no
    successful result both are the empty string. *)
Theorem parallel_merge_best_and_first
    schedule w task agent_names merge_strategy w' calls wr :
  execute_parallel str_format agents schedule w task agent_names
    merge_strategy = (w', calls, Returned wr) →
  wr_success wr = existsb er_success (wr_results wr)
  ∧ (merge_strategy = "best" →
     match succeeded (wr_results wr) with
     | [] => wr_final_output wr = ""
     | _ :: _ =>
         ∃ r, r ∈ succeeded (wr_results wr)
              ∧ wr_final_output wr = er_content r
              ∧ ∀ r', r' ∈ succeeded (wr_results wr) →
                      (String.length (er_content r')
                       ≤ String.length (wr_final_output wr))%nat
     end)
  ∧ (merge_strategy ≠ "combine" → merge_strategy ≠ "best" →
     wr_final_output wr
     = default "" (er_content <$> head (succeeded (wr_results wr)))).
Proof.
  unfold execute_parallel.
  destruct (start_all str_format agents task agent_names) as [e|slots];
    [done|].
  destruct (gather schedule w slots []) as [[w1 slots'] calls'].
  destruct (collect slots') as [results|]; [|done].
  intros [= <- <- <-]. cbn [wr_success wr_results wr_final_output].
  fold (succeeded results). split_and!.
  - unfold succeeded. induction results as [|r rs IH]; [done|].
    cbn [existsb]. destruct (er_success r) eqn:E.
    + by rewrite filter_cons_True.
    + by rewrite filter_cons_False by congruence.
  - intros ->. unfold merge. cbn [String.eqb Ascii.eqb Bool.eqb andb].
    destruct (succeeded results) as [|r rs]; [done|].
    destruct (longest_spec rs r) as [Hin Hmax]. by exists (longest r rs).
  - intros Hc Hb. unfold merge.
    destruct (String.eqb_spec merge_strategy "combine"); [done|].
    destruct (String.eqb_spec merge_strategy "best"); [done|].
    by destruct (succeeded results).
Qed.

End ParallelMore.

(** ** Turn executor: requests and iterations *)

Section TurnRequests.
Import CodingAgent TaskSpec.
Context {World : Type}.
Variable agent : @Agent World.

Local Abbreviation asks := (@TaskSpec.asks World).

Lemma asks_refl r : asks 0 r r.
Proof. split; [done|]. exists []. by rewrite app_nil_r. Qed.

Lemma asks_trans n m r1 r2 r3 :
  asks n r1 r2 → asks m r2 r3 → asks (n + m) r1 r3.
Proof.
  intros (Hi1 & evs1 & Ht1 & Hn1) (Hi2 & evs2 & Ht2 & Hn2).
  split; [congruence|]. exists (evs1 ++ evs2).
  rewrite Ht2, Ht1, <- app_assoc, requests_app, Hn1, Hn2. done.
Qed.

Lemma asks_same_trace n (r r' r'' : @Run World) :
  asks n r r' →
  iteration (state r'') = iteration (state r') → trace r'' = trace r' →
  asks n r r''.
Proof.
  intros (Hi & evs & Ht & Hn) Hi' Ht'. split; [congruence|].
  exists evs. by rewrite Ht'.
Qed.

Lemma asks_event n (r r' r'' : @Run World) (e : Event) :
  asks n r r' →
  iteration (state r'') = iteration (state r') →
  trace r'' = trace r' ++ [e] →
  asks (n + (if is_request e then 1 else 0)) r r''.
Proof.
  intros (Hi & evs & Ht & Hn) Hi' Ht'. split; [congruence|].
  exists (evs ++ [e]). rewrite Ht', Ht, <- app_assoc, requests_app, Hn.
  split; [done|]. by destruct e.
Qed.

Lemma asks_quiet n (r r' r'' : @Run World) (e : Event) :
  asks n r r' →
  is_request e = false →
  iteration (state r'') = iteration (state r') →
  trace r'' = trace r' ++ [e] →
  asks n r r''.
Proof.
  intros H He Hi Ht. pose proof (asks_event n r r' r'' e H Hi Ht) as H'.
  rewrite He, Nat.add_0_r in H'. done.
Qed.

Lemma asks_request (r r'' : @Run World) history :
  iteration (state r'') = iteration (state r) →
  trace r'' = trace r ++ [EvRequest history] →
  asks 1 r r''.
Proof.
  intros Hi Ht.
  apply (asks_event 0 r r r'' (EvRequest history) (asks_refl r) Hi Ht).
Qed.

Lemma _execute_tools_asks tool_calls :
  ∀ r, asks 0 r (_execute_tools agent tool_calls r).1.
Proof.
  induction tool_calls as [|tc rest IH]; intros r; cbn [_execute_tools];
    [apply asks_refl|].
  destruct (_ <=? _)%Z.
  - cbn [fst]. apply (asks_same_trace 0 r (record EvCapReached r)); [|done..].
    by eapply (asks_quiet 0 r r _ EvCapReached (asks_refl r)).
  - cbv zeta.
    set (r1 := set_counter _ r). set (r2 := emit _ r1).
    set (r3 := record (EvExecute tc) r2).
    assert (H3 : asks 0 r r3).
    { eapply (asks_quiet 0 r r2 r3 (EvExecute tc)); [|done..].
      apply (asks_same_trace 0 r r1); [|done..].
      by eapply (asks_quiet 0 r r r1 (EvCounter _) (asks_refl r)). }
    destruct (call_tool agent tc (world r3)) as [w [e|result]]; cbn [fst].
    + by apply (asks_same_trace 0 r r3).
    + eapply (asks_trans 0 0 r); [|apply IH].
      by apply (asks_same_trace 0 r r3).
Qed.

Lemma _execute_tools_sync_asks tool_calls r :
  asks 0 r (_execute_tools_sync agent tool_calls r).1.
Proof.
  unfold _execute_tools_sync.
  assert (H : ∀ results r,
            asks 0 r (_execute_tools_sync_loop agent tool_calls results r).1).
  { clear r. induction tool_calls as [|tc rest IH]; intros results r;
      cbn [_execute_tools_sync_loop]; [apply asks_refl|].
    destruct (_ <=? _)%Z.
    - cbn [fst]. by eapply (asks_quiet 0 r r _ EvCapReached (asks_refl r)).
    - cbv zeta.
      set (r1 := set_counter _ r). set (r3 := record (EvExecute tc) r1).
      assert (H3 : asks 0 r r3).
      { eapply (asks_quiet 0 r r1 r3 (EvExecute tc)); [|done..].
        by eapply (asks_quiet 0 r r r1 (EvCounter _) (asks_refl r)). }
      destruct (call_tool agent tc (world r3)) as [w [e|result]]; cbn [fst].
      + by apply (asks_same_trace 0 r r3).
      + eapply (asks_trans 0 0 r); [|apply IH].
        by apply (asks_same_trace 0 r r3). }
  specialize (H [] r).
  by destruct (_execute_tools_sync_loop agent tool_calls [] r) as [r' [e|rs]].
Qed.

Lemma _process_turn_asks r : asks 1 r (_process_turn agent r).1.
Proof.
  unfold _process_turn. cbv zeta.
  set (r1 := record (EvRequest (messages (state r))) r).
  assert (H1 : asks 1 r r1)
    by (by eapply asks_request).
  destruct (complete (provider agent) (world r1) (messages (state r1)))
    as [w [e|response]]; cbn [fst].
  - by apply (asks_same_trace 1 r r1).
  - set (r2 := append_message _ _).
    assert (H2 : asks 1 r r2) by (by apply (asks_same_trace 1 r r1)).
    destruct (nonempty (resp_tool_calls response)).
    + apply (asks_trans 1 0 r r2); [done|apply _execute_tools_sync_asks].
    + cbn [fst]. by apply (asks_same_trace 1 r r2).
Qed.

Lemma _process_turn_streaming_asks r :
  asks 1 r (_process_turn_streaming agent r).1.
Proof.
  unfold _process_turn_streaming. cbv zeta.
  set (r1 := record (EvRequest (messages (state r))) r).
  assert (H1 : asks 1 r r1)
    by (by eapply asks_request).
  destruct (stream (provider agent) (world r1) (messages (state r1)))
    as [w items].
  destruct (consume_stream items "" []) as [ys [e|[full_content tcs]]];
    cbn [fst].
  - by apply (asks_same_trace 1 r r1).
  - set (r2 := append_message _ _).
    assert (H2 : asks 1 r r2) by (by apply (asks_same_trace 1 r r1)).
    destruct (nonempty tcs).
    + apply (asks_trans 1 0 r r2); [done|apply _execute_tools_asks].
    + cbn [fst]. by apply (asks_same_trace 1 r r2).
Qed.

(** The loop of [process_message] sends one request per iteration it
    starts, and starts none beyond [max_iterations]. *)
Lemma process_loop_requests stream fuel :
  ∀ r,
    ∃ evs,
      trace (process_loop agent fuel stream r).1 = trace r ++ evs
      ∧ Z.of_nat (requests evs)
        = (iteration (state (process_loop agent fuel stream r).1)
           - iteration (state r))%Z
      ∧ (iteration (state (process_loop agent fuel stream r).1)
         ≤ Z.max (iteration (state r)) (max_iterations (config agent)))%Z.
Proof.
  induction fuel as [|fuel IH]; intros r.
  { exists []. cbn. rewrite app_nil_r. split_and!; [done|lia|lia]. }
  rewrite process_loop_S.
  destruct (negb (is_complete (state r))); cbn [andb].
  2:{ exists []. cbn. rewrite app_nil_r. split_and!; [done|lia|lia]. }
  destruct (Z.ltb_spec (iteration (state r)) (max_iterations (config agent)))
    as [Hlt|Hge].
  2:{ exists []. cbn. rewrite app_nil_r. split_and!; [done|lia|lia]. }
  cbv zeta. set (r1 := set_iteration (iteration (state r) + 1) r).
  assert (Hi1 : iteration (state r1) = (iteration (state r) + 1)%Z)
    by apply iteration_set_iteration.
  assert (Ht1 : trace r1 = trace r) by done.
  assert (Hturn : ∀ r2 : @Run World, asks 1 r1 r2 →
            ∃ evs, trace r2 = trace r ++ evs
                   ∧ Z.of_nat (requests evs)
                     = (iteration (state r2) - iteration (state r))%Z
                   ∧ (iteration (state r2)
                      ≤ Z.max (iteration (state r))
                          (max_iterations (config agent)))%Z).
  { intros r2 (Hi & evs & Ht & Hn). exists evs. rewrite Ht, Ht1, Hn, Hi, Hi1.
    split_and!; [done|lia|lia]. }
  assert (Hrest : ∀ r2 : @Run World, asks 1 r1 r2 →
            ∃ evs, trace (process_loop agent fuel stream r2).1 = trace r ++ evs
                   ∧ Z.of_nat (requests evs)
                     = (iteration (state (process_loop agent fuel stream r2).1)
                        - iteration (state r))%Z
                   ∧ (iteration (state (process_loop agent fuel stream r2).1)
                      ≤ Z.max (iteration (state r))
                          (max_iterations (config agent)))%Z).
  { intros r2 (Hi & evs & Ht & Hn).
    destruct (IH r2) as (evs' & Ht' & Hn' & Hb').
    exists (evs ++ evs'). rewrite Ht', Ht, Ht1, <- app_assoc, requests_app.
    split_and!; [done|lia|lia]. }
  destruct stream.
  - pose proof (_process_turn_streaming_asks r1) as H2.
    destruct (_process_turn_streaming agent r1) as [r2 [e|]]; cbn [fst] in *.
    + by apply Hturn.
    + destruct (is_complete (state r2)); cbn [fst]; [by apply Hturn|].
      by apply Hrest.
  - pose proof (_process_turn_asks r1) as H2.
    destruct (_process_turn agent r1) as [r2 [e|response]]; cbn [fst] in *.
    + by apply Hturn.
    + set (r3 := if nonempty_str response then emit response r2 else r2).
      assert (H3 : asks 1 r1 r3).
      { apply (asks_same_trace 1 r1 r2); [done|..];
          subst r3; by destruct (nonempty_str response). }
      destruct (is_complete (state r3)); cbn [fst]; [by apply Hturn|].
      by apply Hrest.
Qed.

(** X7: a task sends the provider at most [max_iterations] requests
    (none if [max_iterations] is not positive), one per iteration: when
    the task ends, however it ends, [iteration] is the number of requests
    made. *)
Theorem requests_bounded_by_max_iterations user_message stream (r : @Run World) :
  ∃ evs,
    trace (process_message agent user_message stream r).1 = trace r ++ evs
    ∧ Z.of_nat (requests evs)
      = iteration (state (process_message agent user_message stream r).1)
    ∧ (requests evs ≤ Z.to_nat (max_iterations (config agent)))%nat.
Proof.
  unfold process_message. set (r0 := set_complete false _).
  assert (Hs0 : iteration (state r0) = 0%Z
                ∧ trace r0 = trace r ++ [EvCounter 0]).
  { subst r0. by destruct r as [? [? ? ? ? ?] ? ?]. }
  destruct Hs0 as [Hi0 Ht0].
  destruct (process_loop_requests stream
              (S (Z.to_nat (max_iterations (config agent)))) r0)
    as (evs & Ht & Hn & Hb).
  exists ([EvCounter 0] ++ evs).
  rewrite Ht, Ht0, <- app_assoc, requests_app.
  change (requests [EvCounter 0]) with O.
  rewrite Hi0 in Hn, Hb. split_and!; [done|lia|lia].
Qed.

End TurnRequests.

(** ** Tool registry: when [execute] raises and when it succeeds *)

Section RegistryFacts.
Import RegistrySpec.
Context {World : Type}.
Implicit Types (reg : gmap string (ToolDefinition World)).

Lemma run_handler_returns reg name tool w arguments :
  contained reg → reg !! name = Some tool →
  ∃ w' result, run_handler tool w arguments = (w', inr result).
Proof.
  intros Hreg Htool. unfold run_handler.
  destruct (tool_handler tool w arguments) as [w' [ret|e|e]] eqn:Hh.
  - by eexists _, _.
  - by eexists _, _.
  - by destruct (Hreg name tool w arguments w' e Htool).
Qed.

Lemma execute_without_callback reg w name arguments :
  contained reg →
  ∃ w' result, execute reg w name arguments None = (w', inr result).
Proof.
  intros Hreg. unfold execute.
  destruct (reg !! name) as [tool|] eqn:Htool; [|by eexists _, _].
  destruct (tool_requires_confirmation tool);
    by apply (run_handler_returns reg name).
Qed.

Lemma execute_callback_returns reg w name arguments cb :
  contained reg →
  (∀ w name arguments, ∃ w' answer, cb w name arguments = (w', inr answer)) →
  ∃ w' result, execute reg w name arguments (Some cb) = (w', inr result).
Proof.
  intros Hreg Hcb. unfold execute.
  destruct (reg !! name) as [tool|] eqn:Htool; [|by eexists _, _].
  destruct (tool_requires_confirmation tool).
  - destruct (Hcb w name arguments) as (w' & [|] & ->); [|by eexists _, _].
    by apply (run_handler_returns reg name).
  - by apply (run_handler_returns reg name).
Qed.

(** X8: [execute] raises in exactly two cases, both for a registered
    tool: the confirmation callback it consults raises, and the exception
    is the callback's; or the handler, once started, raises an exception
    that [except Exception] does not catch ([SystemExit],
    [KeyboardInterrupt], [asyncio.CancelledError]), and the exception is
    the handler's.  Every other exception of a handler becomes a failed
    result. *)
Theorem execute_raises_from_callback_or_escape
    reg w name arguments cb w' e :
  execute reg w name arguments cb = (w', inl e)
  ↔ ∃ tool,
      reg !! name = Some tool
      ∧ ((∃ c, consulted tool cb = Some c
               ∧ c w name arguments = (w', inl e))
         ∨ (∃ w0, handler_starts tool cb w name arguments w0
                  ∧ tool_handler tool w0 arguments
                    = (w', RaisesBaseException e))).
Proof.
  assert (Hrun : ∀ (tool : ToolDefinition World) w0,
            run_handler tool w0 arguments = (w', inl e)
            ↔ tool_handler tool w0 arguments = (w', RaisesBaseException e)).
  { intros tool w0. unfold run_handler.
    destruct (tool_handler tool w0 arguments) as [w1 [ret|e1|e1]];
      split; intros H; try done; by injection H as <- <-. }
  unfold execute, handler_starts, consulted. split.
  - destruct (reg !! name) as [tool|]; [|done].
    intros Hex. exists tool. split; [done|].
    destruct (tool_requires_confirmation tool).
    + destruct cb as [c|].
      * destruct (c w name arguments) as [w1 [e1|[|]]] eqn:Hc.
        -- injection Hex as <- <-. left. by exists c.
        -- right. exists w1. split; [done|]. by apply Hrun.
        -- done.
      * right. exists w. split; [done|]. by apply Hrun.
    + right. exists w. split; [done|]. by apply Hrun.
  - intros (tool & -> & [(c & Hcons & Hc)|(w0 & Hstart & Hh)]).
    + destruct (tool_requires_confirmation tool); [|done].
      cbn in Hcons. subst cb. by rewrite Hc.
    + apply Hrun in Hh.
      destruct (tool_requires_confirmation tool).
      * destruct cb as [c|]; [by rewrite Hstart|by subst w0].
      * by subst w0.
Qed.

(** X9: a successful result comes from a registered tool whose handler
    returned; it is the handler's value normalised, the world is the one
    the handler left, and a tool that requires confirmation ran only after
    the callback, if there is one, answered yes. *)
Theorem execute_success_means_handler_returned
    reg w name arguments cb w' result :
  execute reg w name arguments cb = (w', inr result) →
  tr_success result = true →
  ∃ tool w0 ret,
    reg !! name = Some tool
    ∧ tool_handler tool w0 arguments = (w', Returns ret)
    ∧ result = normalize ret
    ∧ match cb with
      | Some c =>
          if tool_requires_confirmation tool
          then c w name arguments = (w0, inr true)
          else w0 = w
      | None => w0 = w
      end.
Proof.
  assert (Hrun : ∀ (tool : ToolDefinition World) w0,
            run_handler tool w0 arguments = (w', inr result) →
            tr_success result = true →
            ∃ ret, tool_handler tool w0 arguments = (w', Returns ret)
                   ∧ result = normalize ret).
  { intros tool w0. unfold run_handler.
    destruct (tool_handler tool w0 arguments) as [w1 [ret|e1|e1]];
      intros H Hok; [|by injection H as <- <-|done].
    injection H as <- <-. by exists ret. }
  unfold execute. intros Hex Hok.
  destruct (reg !! name) as [tool|]; [|by injection Hex as <- <-].
  destruct (tool_requires_confirmation tool) eqn:Hreq.
  - destruct cb as [c|].
    + destruct (c w name arguments) as [w1 [e1|[|]]] eqn:Hc; [done|..].
      * destruct (Hrun tool w1 Hex Hok) as (ret & Hh & ->).
        exists tool, w1, ret. by rewrite Hreq.
      * by injection Hex as <- <-.
    + destruct (Hrun tool w Hex Hok) as (ret & Hh & ->).
      by exists tool, w, ret.
  - destruct (Hrun tool w Hex Hok) as (ret & Hh & ->).
    exists tool, w, ret. split_and!; [done..|].
    destruct cb; [by rewrite Hreq|done].
Qed.

End RegistryFacts.

(** ** Turn executor: what a task adds to the history *)

Section TaskSteps.
Import CodingAgent TaskSpec.
Context {World : Type}.
Variable agent : @Agent World.

Local Abbreviation steps := (@TaskSpec.steps World).
Local Abbreviation step := (@TaskSpec.step World).

Lemma steps_trans (r1 r2 r3 : @Run World) :
  steps r1 r2 → steps r2 r3 → steps r1 r3.
Proof. intros H1 H2. by etrans. Qed.

Ltac last_step := eapply rtc_r; [|constructor].

Lemma _execute_tools_steps tool_calls :
  ∀ r, steps r (_execute_tools agent tool_calls r).1.
Proof.
  induction tool_calls as [|tc rest IH]; intros r; cbn [_execute_tools];
    [apply rtc_refl|].
  destruct (_ <=? _)%Z; cbn [fst].
  { last_step. apply rtc_once. constructor. }
  cbv zeta.
  set (r3 := record (EvExecute tc) _).
  assert (H3 : steps r r3).
  { subst r3. last_step. last_step. apply rtc_once. constructor. }
  destruct (call_tool agent tc (world r3)) as [w [e|result]]; cbn [fst].
  - last_step. done.
  - eapply steps_trans; [|apply IH].
    last_step. last_step. last_step. done.
Qed.

Lemma _execute_tools_sync_steps tool_calls r :
  steps r (_execute_tools_sync agent tool_calls r).1.
Proof.
  unfold _execute_tools_sync.
  assert (H : ∀ results r,
            steps r (_execute_tools_sync_loop agent tool_calls results r).1).
  { clear r. induction tool_calls as [|tc rest IH]; intros results r;
      cbn [_execute_tools_sync_loop]; [apply rtc_refl|].
    destruct (_ <=? _)%Z; cbn [fst]; [apply rtc_once; constructor|].
    cbv zeta.
    set (r3 := record (EvExecute tc) _).
    assert (H3 : steps r r3).
    { subst r3. last_step. apply rtc_once. constructor. }
    destruct (call_tool agent tc (world r3)) as [w [e|result]]; cbn [fst].
    - last_step. done.
    - eapply steps_trans; [|apply IH].
      last_step. last_step. done. }
  specialize (H [] r).
  by destruct (_execute_tools_sync_loop agent tool_calls [] r) as [r' [e|rs]].
Qed.

Lemma _process_turn_steps r : steps r (_process_turn agent r).1.
Proof.
  unfold _process_turn. cbv zeta.
  set (r1 := record (EvRequest (messages (state r))) r).
  assert (H1 : steps r r1) by (apply rtc_once; constructor).
  destruct (complete (provider agent) (world r1) (messages (state r1)))
    as [w [e|response]]; cbn [fst].
  - last_step. done.
  - set (r2 := append_message _ _).
    assert (H2 : steps r r2) by (subst r2; last_step; last_step; done).
    destruct (nonempty (resp_tool_calls response)).
    + eapply steps_trans; [done|apply _execute_tools_sync_steps].
    + cbn [fst]. last_step. last_step. done.
Qed.

Lemma _process_turn_streaming_steps r :
  steps r (_process_turn_streaming agent r).1.
Proof.
  unfold _process_turn_streaming. cbv zeta.
  set (r1 := record (EvRequest (messages (state r))) r).
  assert (H1 : steps r r1) by (apply rtc_once; constructor).
  destruct (stream (provider agent) (world r1) (messages (state r1)))
    as [w items].
  destruct (consume_stream items "" []) as [ys [e|[full_content tcs]]];
    cbn [fst].
  - last_step. last_step. done.
  - set (r2 := append_message _ _).
    assert (H2 : steps r r2)
      by (subst r2; last_step; last_step; last_step; done).
    destruct (nonempty tcs).
    + eapply steps_trans; [done|apply _execute_tools_steps].
    + cbn [fst]. last_step. last_step. done.
Qed.

Lemma process_loop_steps stream fuel :
  ∀ r, steps r (process_loop agent fuel stream r).1.
Proof.
  induction fuel as [|fuel IH]; intros r; [apply rtc_refl|].
  rewrite process_loop_S.
  destruct (_ && _); [|apply rtc_refl]. cbv zeta.
  set (r1 := set_iteration _ r).
  assert (H1 : steps r r1) by (apply rtc_once; constructor).
  destruct stream.
  - pose proof (_process_turn_streaming_steps r1) as H2.
    destruct (_process_turn_streaming agent r1) as [r2 [e|]]; cbn [fst] in *.
    + by eapply steps_trans.
    + destruct (is_complete (state r2)); cbn [fst].
      * by eapply steps_trans.
      * eapply steps_trans; [done|]. eapply steps_trans; [done|apply IH].
  - pose proof (_process_turn_steps r1) as H2.
    destruct (_process_turn agent r1) as [r2 [e|response]]; cbn [fst] in *.
    + by eapply steps_trans.
    + set (r3 := if nonempty_str response then emit response r2 else r2).
      assert (H3 : steps r2 r3).
      { subst r3. destruct (nonempty_str response); [|apply rtc_refl].
        apply rtc_once. constructor. }
      destruct (is_complete (state r3)); cbn [fst].
      * eapply steps_trans; [done|]. by eapply steps_trans.
      * eapply steps_trans; [done|]. eapply steps_trans; [done|].
        eapply steps_trans; [done|apply IH].
Qed.

Lemma replies_added_refl (r : @Run World) : replies_added r r.
Proof.
  split_and!; [|done..]. exists []. by rewrite app_nil_r.
Qed.

Lemma replies_added_trans (r1 r2 r3 : @Run World) :
  replies_added r1 r2 → replies_added r2 r3 → replies_added r1 r3.
Proof.
  intros ((m1 & Hm1 & Hf1) & Hy1 & Ht1) ((m2 & Hm2 & Hf2) & Hy2 & Ht2).
  split_and!; [|by etrans..].
  exists (m1 ++ m2). rewrite Hm2, Hm1, <- app_assoc.
  split; [done|by apply Forall_app].
Qed.

Lemma step_replies_added (r r' : @Run World) : step r r' → replies_added r r'.
Proof.
  assert (Hq : ∀ (r r' : @Run World),
            messages (state r') = messages (state r) →
            yielded r `prefix_of` yielded r' →
            trace r `prefix_of` trace r' → replies_added r r').
  { intros a b Hm Hy Ht. split_and!; [|done..].
    exists []. by rewrite app_nil_r. }
  assert (Ha : ∀ (r : @Run World) m,
            is_reply m → replies_added r (append_message m r)).
  { intros a m Hm. split_and!; [|done..]. exists [m]. split; [done|].
    by constructor. }
  destruct 1 as [s r|ys r|w r|e r|c r|i r|b r|c r|content tcs r|tc result r].
  - apply Hq; [done| |done]. by apply prefix_app_r.
  - apply Hq; [done| |done]. by apply prefix_app_r.
  - by apply Hq.
  - apply Hq; [done..|]. by apply prefix_app_r.
  - apply Hq; [done..|]. by apply prefix_app_r.
  - by apply Hq.
  - by apply Hq.
  - by apply Hq.
  - apply Ha. by left.
  - apply Ha. by right.
Qed.

Lemma steps_replies_added (r r' : @Run World) : steps r r' → replies_added r r'.
Proof.
  induction 1 as [|a b c Hab _ IH]; [apply replies_added_refl|].
  eapply replies_added_trans; [by apply step_replies_added|done].
Qed.

(** X10: a task leaves the earlier history as it was and appends the
    user's message followed by messages of the assistant and of tools
    only; what was yielded and recorded before stays. *)
Theorem task_appends_user_then_replies user_message stream (r : @Run World) :
  let r' := (process_message agent user_message stream r).1 in
  (∃ replies,
     messages (state r')
     = messages (state r) ++ plain_message "user" user_message :: replies
     ∧ Forall is_reply replies)
  ∧ yielded r `prefix_of` yielded r'
  ∧ trace r `prefix_of` trace r'.
Proof.
  unfold process_message. cbv zeta. set (r0 := set_complete false _).
  destruct (steps_replies_added r0 _
              (process_loop_steps stream
                 (S (Z.to_nat (max_iterations (config agent)))) r0))
    as ((replies & Hm & Hf) & Hy & Ht).
  split_and!.
  - exists replies. split; [|done]. rewrite Hm.
    change (messages (state r0))
      with (messages (state r) ++ [plain_message "user" user_message]).
    by rewrite <- app_assoc.
  - done.
  - etrans; [|done]. by apply prefix_app_r.
Qed.

End TaskSteps.

(** ** Turn executor: the two tool loops *)

Section ToolLoops.
Import CodingAgent TaskSpec.
Context {World : Type}.
Variable agent : @Agent World.

Lemma tool_loops_agree tool_calls :
  ∀ (ra rb : @Run World) results,
    agree ra rb →
    agree (_execute_tools agent tool_calls ra).1
          (_execute_tools_sync_loop agent tool_calls results rb).1
    ∧ (_execute_tools agent tool_calls ra).2
      = raised (_execute_tools_sync_loop agent tool_calls results rb).2.
Proof.
  induction tool_calls as [|tc rest IH];
    intros [wa sa ya ta] [wb sb yb tb] results (Hw & Hs & Ht);
    cbn in Hw, Hs, Ht; subst wb sb tb;
    cbn [_execute_tools _execute_tools_sync_loop]; [done|].
  cbn [state]. destruct (_ <=? _)%Z; [done|].
  cbv zeta. cbn [world record emit set_counter set_state state yielded trace].
  destruct (call_tool agent tc wa) as [w [e|result]]; [done|].
  apply IH. done.
Qed.

(** X11: whenever the streaming tool loop runs to its end, the
    non-streaming loop started from the same state runs to its end too
    and does the same to the agent: same world, same state (history,
    counter) and the same events.  The two differ only in the text they
    yield or return. *)
Theorem sync_tool_loop_follows_streaming_loop tool_calls (r : @Run World) :
  (_execute_tools agent tool_calls r).2 = None →
  agree (_execute_tools agent tool_calls r).1
        (_execute_tools_sync agent tool_calls r).1
  ∧ raised (_execute_tools_sync agent tool_calls r).2 = None.
Proof.
  intros Hdone.
  destruct (tool_loops_agree tool_calls r r [] ltac:(done)) as [Ha He].
  rewrite Hdone in He. unfold _execute_tools_sync.
  by destruct (_execute_tools_sync_loop agent tool_calls [] r) as [r' [e|rs]].
Qed.

(** What [_execute_tools] adds to the history: one tool message for each
    call that [tools.execute] returned from, in order of execution. *)
Lemma _execute_tools_messages tool_calls :
  ∀ r : @Run World,
    ∃ evs results,
      trace (_execute_tools agent tool_calls r).1 = trace r ++ evs
      ∧ messages (state (_execute_tools agent tool_calls r).1)
        = messages (state r) ++ zip_with tool_message (executed evs) results
      ∧ length (executed evs)
        = (length results
           + match (_execute_tools agent tool_calls r).2 with
             | Some _ => 1
             | None => 0
             end)%nat
      ∧ executed evs `prefix_of` tool_calls.
Proof.
  induction tool_calls as [|tc rest IH]; intros r; cbn [_execute_tools].
  { exists [], []. cbn. rewrite !app_nil_r. split_and!; done. }
  destruct (_ <=? _)%Z.
  { exists [EvCapReached], []. cbn. rewrite app_nil_r.
    split_and!; [done..|]. apply prefix_nil. }
  cbv zeta.
  set (r3 := record (EvExecute tc) _).
  assert (Ht3 : trace r3
                = trace r ++ [EvCounter (tool_calls_this_turn (state r) + 1);
                              EvExecute tc]).
  { subst r3. cbn. by rewrite <- app_assoc. }
  assert (Hm3 : messages (state r3) = messages (state r)) by done.
  destruct (call_tool agent tc (world r3)) as [w [e|result]]; cbn [fst snd].
  - exists [EvCounter (tool_calls_this_turn (state r) + 1); EvExecute tc], [].
    cbn. rewrite app_nil_r. split_and!; [done..|].
    by apply prefix_cons, prefix_nil.
  - set (r5 := emit _ _).
    destruct (IH r5) as (evs & results & Ht & Hm & Hl & Hp).
    exists ([EvCounter (tool_calls_this_turn (state r) + 1); EvExecute tc]
            ++ evs), (result :: results).
    rewrite Ht, Hm, executed_app.
    change (trace r5) with (trace r3). rewrite Ht3, <- app_assoc.
    change (messages (state r5))
      with (messages (state r3) ++ [tool_message tc result]).
    rewrite Hm3, <- app_assoc. cbn. split_and!; [done..|lia|].
    by apply prefix_cons.
Qed.

Lemma zip_with_tool_message_answers (results : list ToolResult) :
  ∀ tcs : list ToolCall,
    (length results ≤ length tcs)%nat →
    Forall2 answers (take (length results) tcs)
      (zip_with tool_message tcs results).
Proof.
  induction results as [|x xs IH]; intros [|tc tcs] Hlen; cbn in *;
    [constructor|constructor|lia|].
  constructor; [done|]. apply IH. lia.
Qed.

Lemma _execute_tools_replies tool_calls (r : @Run World) :
  tool_replies tool_calls r (_execute_tools agent tool_calls r).1
    (bool_decide (is_Some (_execute_tools agent tool_calls r).2))
  ∧ (is_Some (_execute_tools agent tool_calls r).2 →
     ∃ evs msgs,
       trace (_execute_tools agent tool_calls r).1 = trace r ++ evs
       ∧ messages (state (_execute_tools agent tool_calls r).1)
         = messages (state r) ++ msgs
       ∧ length (executed evs) = S (length msgs)).
Proof.
  destruct (_execute_tools_messages tool_calls r)
    as (evs & results & Ht & Hm & Hl & Hp).
  assert (Hlen : length (zip_with tool_message (executed evs) results)
                 = length results).
  { rewrite length_zip_with. lia. }
  split.
  - exists evs, (zip_with tool_message (executed evs) results).
    rewrite Hlen. split_and!; [done|done|done| | | |].
    + apply zip_with_tool_message_answers. lia.
    + destruct ((_execute_tools agent tool_calls r).2); lia.
    + destruct ((_execute_tools agent tool_calls r).2); lia.
    + intros Hraised.
      destruct ((_execute_tools agent tool_calls r).2) as [e|]; [|lia].
      rewrite bool_decide_eq_true_2 in Hraised by by eexists. done.
  - intros [e He]. rewrite He in Hl.
    exists evs, (zip_with tool_message (executed evs) results).
    rewrite Hlen. split_and!; [done|done|lia].
Qed.

(** X12: both tool loops leave the earlier history as it was and add
    tool messages only, one for each executed call in order of
    execution, carrying that call's name and id; only the last executed
    call may be without a message, and only when the loop raised; the
    executed calls are the first of the calls asked for.  When the
    non-streaming loop raises, the call that raised is the last executed
    one and has no message. *)
Theorem tool_messages_pair_with_executed_calls tool_calls (r : @Run World) :
  let a := _execute_tools agent tool_calls r in
  let b := _execute_tools_sync agent tool_calls r in
  tool_replies tool_calls r a.1 (bool_decide (is_Some a.2))
  ∧ tool_replies tool_calls r b.1 (bool_decide (is_Some (raised b.2)))
  ∧ (is_Some (raised b.2) →
     ∃ evs msgs,
       trace b.1 = trace r ++ evs
       ∧ messages (state b.1) = messages (state r) ++ msgs
       ∧ length (executed evs) = S (length msgs)).
Proof.
  cbv zeta.
  destruct (_execute_tools_replies tool_calls r) as [Ha Hraised].
  destruct (tool_loops_agree tool_calls r r [] ltac:(done))
    as [(_ & Hs & Htr) He].
  assert (Hsync : state (_execute_tools_sync agent tool_calls r).1
                  = state (_execute_tools_sync_loop agent tool_calls [] r).1
                  ∧ trace (_execute_tools_sync agent tool_calls r).1
                    = trace (_execute_tools_sync_loop agent tool_calls [] r).1
                  ∧ raised (_execute_tools_sync agent tool_calls r).2
                    = raised
                        (_execute_tools_sync_loop agent tool_calls [] r).2).
  { unfold _execute_tools_sync.
    by destruct (_execute_tools_sync_loop agent tool_calls [] r)
      as [r' [e|rs]]. }
  destruct Hsync as (Hs' & Htr' & Hr').
  split; [done|]. unfold tool_replies.
  rewrite Hr', <- He, Htr', <- Htr, Hs', <- Hs. done.
Qed.

End ToolLoops.

(** ** Turn executor: the streamed text *)

Section StreamedText.
Import CodingAgent TaskSpec.

Lemma str_append_nil_r (s : string) : s +:+ "" = s.
Proof.
  induction s as [|a s IH]; [done|].
  change (String a (s +:+ "") = String a s). by rewrite IH.
Qed.

Lemma str_append_assoc (s t u : string) : (s +:+ t) +:+ u = s +:+ (t +:+ u).
Proof.
  induction s as [|a s IH]; [done|].
  change (String a ((s +:+ t) +:+ u) = String a (s +:+ (t +:+ u))).
  by rewrite IH.
Qed.

Lemma str_join_empty_cons (x : string) (l : list string) :
  str_join "" (x :: l) = x +:+ str_join "" l.
Proof.
  unfold str_join. destruct l as [|y l]; cbn [String.concat].
  - by rewrite str_append_nil_r.
  - done.
Qed.

Lemma consume_stream_content items :
  ∀ full_content all_tool_calls ys content tcs,
    consume_stream items full_content all_tool_calls
    = (ys, inr (content, tcs)) →
    content = full_content +:+ str_join "" ys ∧ Forall (fun y => y ≠ "") ys.
Proof.
  induction items as [|[e|chunk] rest IH];
    intros full_content all_tool_calls ys content tcs; cbn [consume_stream].
  - intros [= <- <- <-]. by rewrite str_append_nil_r.
  - done.
  - cbv zeta.
    destruct (nonempty_str (default "" (chunk_finish_reason chunk))).
    + destruct (chunk_content chunk) as [|a s] eqn:Hc; cbn [nonempty_str].
      * intros [= <- <- <-]. by rewrite str_append_nil_r.
      * intros [= <- <- <-]. split; [|by repeat constructor].
        by rewrite str_join_empty_cons, str_append_nil_r.
    + destruct (consume_stream rest _ _) as [ys' res] eqn:Hrest.
      intros [= <- ->].
      destruct (IH _ _ _ _ _ Hrest) as [-> Hne].
      destruct (chunk_content chunk) as [|a s] eqn:Hc; cbn [nonempty_str].
      * done.
      * split; [|by constructor].
        by rewrite str_join_empty_cons, str_append_assoc.
Qed.


(** X14: the stream is read up to the first item that raises or
    carries a finish reason; what the provider would send after it has no
    effect. *)
Theorem stream_is_cut_at_finish_reason before item after after' :
  ends_stream item = true →
  ∀ full_content all_tool_calls,
    consume_stream (before ++ item :: after) full_content all_tool_calls
    = consume_stream (before ++ item :: after') full_content all_tool_calls.
Proof.
  intros Hend. induction before as [|[e|chunk] before IH];
    intros full_content all_tool_calls; cbn [app consume_stream].
  - destruct item as [e|chunk]; [done|]. cbn in Hend.
    cbv zeta. by rewrite Hend.
  - done.
  - cbv zeta.
    destruct (nonempty_str (default "" (chunk_finish_reason chunk))); [done|].
    by rewrite IH.
Qed.

End StreamedText.

(** ** Turn executor: how a task ends *)

Section TaskEnd.
Import CodingAgent TaskSpec RegistrySpec.
Context {World : Type}.
Variable agent : @Agent World.

Lemma callback_returns_tools_return :
  contained (tools agent) → callback_returns agent →
  TurnSpec.tools_return agent.
Proof.
  intros Hreg Hcb tc w. unfold call_tool.
  destruct (confirm_dangerous_tools (config agent)) eqn:Hc;
    [|by apply execute_without_callback].
  destruct (confirm_callback agent) as [cb|] eqn:Hcb';
    [|by apply execute_without_callback].
  apply execute_callback_returns; [done|]. by apply Hcb.
Qed.

Lemma _process_turn_returns r :
  contained (tools agent) → callback_returns agent →
  provider_returns agent false →
  raised (_process_turn agent r).2 = None.
Proof.
  intros Hreg Hcb Hprov. unfold _process_turn. cbv zeta.
  set (r1 := record _ r).
  pose proof (Hprov (world r1) (messages (state r1))) as Hp.
  unfold turn_answer in Hp.
  destruct (complete (provider agent) (world r1) (messages (state r1)))
    as [w [e|response]]; cbn [snd] in Hp; [done|].
  destruct (nonempty (resp_tool_calls response)); [|done].
  set (r2 := append_message _ _). unfold _execute_tools_sync.
  by destruct (_execute_tools_sync_loop_effect agent
                 (callback_returns_tools_return Hreg Hcb)
                 (resp_tool_calls response) [] r2) as (r' & rs & -> & _).
Qed.

Lemma process_loop_never_raises fuel :
  contained (tools agent) → callback_returns agent →
  provider_returns agent false →
  ∀ r e, (process_loop agent fuel false r).2 ≠ Raised e.
Proof.
  intros Hreg Hcb Hprov. induction fuel as [|fuel IH]; intros r e; [done|].
  rewrite process_loop_S. destruct (_ && _); [|done]. cbv zeta.
  set (r1 := set_iteration _ r).
  pose proof (_process_turn_returns r1 Hreg Hcb Hprov) as H.
  destruct (_process_turn agent r1) as [r2 [e'|response]]; [done|].
  cbv zeta. destruct (is_complete (state _)); [done|apply IH].
Qed.

(** X15: without streaming, if the provider answers every request, the
    confirmation callback, where the agent consults one, answers, and no
    tool handler raises an exception that [except Exception] does not
    catch, a task runs to its end: no exception leaves
    [process_message], whatever else the tool handlers do (unknown tools
    and failing handlers included). *)
Theorem task_ends_without_exception user_message (r : @Run World) :
  contained (tools agent) → callback_returns agent →
  provider_returns agent false →
  (process_message agent user_message false r).2 = Finished.
Proof.
  intros Hreg Hcb Hprov. unfold process_message. cbv zeta.
  set (r0 := set_complete false _).
  pose proof (process_loop_never_raises
                (S (Z.to_nat (max_iterations (config agent)))) Hreg Hcb Hprov r0)
    as Hraise.
  destruct (process_loop_extends agent false
              (S (Z.to_nat (max_iterations (config agent)))) r0) as [_ Hfuel].
  assert (Hi0 : iteration (state r0) = 0%Z)
    by (subst r0; by destruct r as [? [? ? ? ? ?] ? ?]).
  specialize (Hfuel ltac:(rewrite Hi0; lia)).
  destruct (process_loop agent _ false r0) as [r' [|e|]]; cbn [snd] in *.
  - done.
  - by destruct (Hraise e).
  - done.
Qed.

(** X16: when the provider's first answer carries no tool call, the
    task is one request long: the history gains the user's message and the
    assistant's answer, the task is complete with that answer as
    [last_response], no tool runs, and the text yielded is the answer. *)
Theorem plain_answer_completes_in_one_turn
    user_message stream (r : @Run World) content :
  (0 < max_iterations (config agent))%Z →
  turn_answer agent stream (world r)
    (messages (state r) ++ [plain_message "user" user_message])
  = Some (content, []) →
  ∃ r' ys,
    process_message agent user_message stream r = (r', Finished)
    ∧ state r'
      = mkAgentState
          (messages (state r)
           ++ [plain_message "user" user_message;
               mkMessage "assistant" content None None None])
          1 0 true (Some content)
    ∧ trace r'
      = trace r
        ++ [EvCounter 0;
            EvRequest (messages (state r)
                       ++ [plain_message "user" user_message])]
    ∧ yielded r' = yielded r ++ ys
    ∧ str_join "" ys = content.
Proof.
  intros Hmax Hans. unfold process_message. cbv zeta.
  set (r0 := set_complete false _).
  assert (H0 : world r0 = world r
               ∧ state r0
                 = mkAgentState
                     (messages (state r)
                      ++ [plain_message "user" user_message])
                     0 0 false (last_response (state r))
               ∧ trace r0 = trace r ++ [EvCounter 0]
               ∧ yielded r0 = yielded r)
    by (subst r0; by destruct r as [? [? ? ? ? ?] ? ?]).
  destruct H0 as (Hw0 & Hs0 & Ht0 & Hy0).
  rewrite process_loop_S, Hs0. cbn [is_complete iteration negb andb].
  destruct (Z.ltb_spec 0 (max_iterations (config agent))) as [_|?]; [|lia].
  cbv zeta. destruct r0 as [w0 s0 y0 t0]. cbn in Hw0, Hs0, Ht0, Hy0. subst.
  unfold turn_answer in Hans. destruct stream.
  - unfold _process_turn_streaming. cbv zeta.
    cbn [world state record set_iteration set_state messages].
    destruct (stream (provider agent) (world r) _) as [w items].
    cbn [snd] in Hans.
    destruct (consume_stream items "" []) as [ys [e|[c tcs]]] eqn:Hcs;
      cbn [snd] in Hans; [done|].
    injection Hans as -> ->. cbn [nonempty].
    destruct (consume_stream_content _ _ _ _ _ _ Hcs) as [Hc _].
    eexists _, ys. cbn. split_and!; [done| | |done|by rewrite Hc].
    + cbn. by rewrite <- app_assoc.
    + cbn. by rewrite <- app_assoc.
  - unfold _process_turn. cbv zeta.
    cbn [world state record set_iteration set_state messages].
    destruct (complete (provider agent) (world r) _) as [w [e|response]];
      cbn [snd] in Hans; [done|].
    injection Hans as Hc Htc. rewrite Htc. cbn [nonempty].
    rewrite Hc. destruct (nonempty_str content) eqn:Hne.
    + eexists _, [content]. cbn.
      split_and!; [done| | |done|done]; cbn; by rewrite <- app_assoc.
    + eexists _, []. cbn.
      split_and!; [done| | | |by destruct content]; cbn;
        by rewrite <- ?app_assoc, ?app_nil_r.
Qed.

End TaskEnd.

(** ** Compaction: what is removed *)

Section CompactionPartition.
Import Compaction CompactionSpec SessionSpec.

Lemma removable_false keep_system m :
  removable keep_system m = false ↔ is_system m && keep_system = true.
Proof. unfold removable. by destruct (is_system m && keep_system). Qed.

Lemma drop_oldest_partition keep_system budget l :
  ∀ kept dropped,
    drop_oldest keep_system budget l = (kept, dropped) →
    dropped = take budget (filter (fun m => removable keep_system m = true) l)
    ∧ filter (fun m => removable keep_system m = true) kept
      = drop budget (filter (fun m => removable keep_system m = true) l)
    ∧ filter (fun m => removable keep_system m = false) kept
      = filter (fun m => removable keep_system m = false) l
    ∧ sublist kept l
    ∧ kept ++ dropped ≡ₚ l.
Proof.
  revert budget. induction l as [|m rest IH]; intros budget kept dropped;
    cbn [drop_oldest].
  { intros [= <- <-]. rewrite filter_nil, take_nil, drop_nil. by split_and!. }
  destruct (is_system m && keep_system) eqn:Hsys.
  - destruct (drop_oldest keep_system budget rest) as [k d] eqn:Hrest.
    intros [= <- <-]. destruct (IH _ _ _ Hrest) as (Hd & Hr & Hk & Hs & Hp).
    assert (Hm : removable keep_system m = false) by by apply removable_false.
    rewrite !(filter_cons_False (fun m => removable keep_system m = true))
      by congruence.
    rewrite !(filter_cons_True (fun m => removable keep_system m = false))
      by done.
    split_and!; [done|done|by f_equal|by constructor|].
    cbn. by f_equiv.
  - assert (Hm : removable keep_system m = true)
      by (unfold removable; by rewrite Hsys).
    destruct budget as [|b].
    + destruct (drop_oldest keep_system 0 rest) as [k d] eqn:Hrest.
      intros [= <- <-]. destruct (IH _ _ _ Hrest) as (Hd & Hr & Hk & Hs & Hp).
      rewrite !(filter_cons_True (fun m => removable keep_system m = true))
        by done.
      rewrite !(filter_cons_False (fun m => removable keep_system m = false))
        by congruence.
      rewrite take_0, drop_0 in *. subst d.
      split_and!; [done| |done|by constructor|cbn; by f_equiv].
      by f_equal.
    + destruct (drop_oldest keep_system b rest) as [k d] eqn:Hrest.
      intros [= <- <-]. destruct (IH _ _ _ Hrest) as (Hd & Hr & Hk & Hs & Hp).
      rewrite !(filter_cons_True (fun m => removable keep_system m = true))
        by done.
      rewrite !(filter_cons_False (fun m => removable keep_system m = false))
        by congruence.
      cbn [take drop]. split_and!; [by f_equal|done|done|by constructor|].
      rewrite <- Hp. by rewrite <- Permutation_middle.
Qed.

Lemma partition_messages_spec keep_system keep_last_n messages :
  let b := Z.to_nat (Z.of_nat (length messages) - keep_last_n) in
  let kept := retained keep_system keep_last_n messages in
  let dropped := removed keep_system keep_last_n messages in
  dropped = take b (filter (fun m => removable keep_system m = true) messages)
  ∧ filter (fun m => removable keep_system m = true) kept
    = drop b (filter (fun m => removable keep_system m = true) messages)
  ∧ filter (fun m => removable keep_system m = false) kept
    = filter (fun m => removable keep_system m = false) messages
  ∧ sublist kept messages
  ∧ kept ++ dropped ≡ₚ messages.
Proof.
  cbv zeta. unfold retained, removed.
  rewrite partition_messages_budget.
  destruct (drop_oldest keep_system _ messages) as [kept dropped] eqn:H.
  by apply drop_oldest_partition.
Qed.

(** X17: the loop of [compact_session] splits the history in two without
    losing or repeating a message: removed are the oldest removable
    messages, as many as the history exceeds [keep_last_n] by (all of
    them if there are fewer); everything else is kept in its order.  When
    the session is compacted, [context["removed_messages"]] is the number
    removed. *)
Theorem compaction_removes_the_oldest
    now session keep_system keep_last_n summarize :
  let messages := session_messages session in
  let b := Z.to_nat (Z.of_nat (length messages) - keep_last_n) in
  let kept := retained keep_system keep_last_n messages in
  let dropped := removed keep_system keep_last_n messages in
  dropped = take b (filter (fun m => removable keep_system m = true) messages)
  ∧ filter (fun m => removable keep_system m = true) kept
    = drop b (filter (fun m => removable keep_system m = true) messages)
  ∧ filter (fun m => removable keep_system m = false) kept
    = filter (fun m => removable keep_system m = false) messages
  ∧ sublist kept messages
  ∧ kept ++ dropped ≡ₚ messages
  ∧ ((keep_last_n < Z.of_nat (length messages))%Z →
     session_context
       (compact_session now session keep_system keep_last_n summarize)
     !! "removed_messages"
     = Some (PInt (Z.of_nat (length dropped)))).
Proof.
  cbv zeta.
  destruct (partition_messages_spec keep_system keep_last_n
              (session_messages session)) as (Hd & Hr & Hk & Hs & Hp).
  split_and!; [done..|].
  intros Hn. unfold compact_session.
  destruct (Z.leb_spec (Z.of_nat (length (session_messages session)))
              keep_last_n); [lia|].
  cbn. by rewrite lookup_insert_eq.
Qed.

Lemma compacted_length keep_system keep_last_n summarize messages :
  let dropped := removed keep_system keep_last_n messages in
  (length (compacted_messages keep_system keep_last_n summarize messages)
   + length dropped
   = length messages
     + if summarize && nonempty dropped then 1 else 0)%nat.
Proof.
  cbv zeta. rewrite compacted_messages_unfold.
  destruct (partition_messages_spec keep_system keep_last_n messages)
    as (_ & _ & _ & _ & Hp).
  apply Permutation_length in Hp. rewrite length_app in Hp.
  destruct (summarize && nonempty _); [|lia].
  unfold list_insert_at.
  rewrite length_app. cbn [length].
  rewrite length_take, length_drop. lia.
Qed.

Lemma filter_removable_all (l : list Message) :
  filter (fun m => removable false m = true) l = l.
Proof.
  induction l as [|m l IH]; [done|].
  rewrite filter_cons_True, IH; [done|].
  unfold removable. by rewrite andb_false_r.
Qed.

Lemma retained_length keep_system keep_last_n messages :
  (keep_last_n < Z.of_nat (length messages))%Z →
  length (retained keep_system keep_last_n messages)
  = (if keep_system
     then Nat.max (Z.to_nat keep_last_n) (count_system messages)
     else Z.to_nat keep_last_n).
Proof.
  intros Hn.
  destruct (partition_messages_spec keep_system keep_last_n messages)
    as (Hd & _ & _ & _ & Hp).
  apply Permutation_length in Hp. rewrite length_app in Hp.
  apply (f_equal length) in Hd. rewrite length_take in Hd.
  pose proof (count_split messages) as Hsplit.
  destruct keep_system.
  - assert (Hf : length (filter (fun m => removable true m = true) messages)
                 = count_non_system messages).
    { unfold count_non_system. f_equal. apply list_filter_iff.
      intros m. unfold removable, non_system.
      by rewrite andb_true_r. }
    rewrite Hf in Hd. lia.
  - rewrite filter_removable_all in Hd. lia.
Qed.

(** X18: a compaction never makes the history longer, and it need not make
    it shorter: the stored list has the length of the history, less the
    messages removed, plus one if a summary is inserted.  With
    [keep_system = true] the messages kept number [keep_last_n] or the
    number of system messages, whichever is larger; with
    [keep_system = false] they number [keep_last_n] (none if that is
    negative). *)
Theorem compacted_history_length now session keep_system keep_last_n summarize :
  let messages := session_messages session in
  let dropped := removed keep_system keep_last_n messages in
  let stored :=
    session_messages
      (compact_session now session keep_system keep_last_n summarize) in
  (keep_last_n < Z.of_nat (length messages))%Z →
  (length stored + length dropped
   = length messages + if summarize && nonempty dropped then 1 else 0)%nat
  ∧ (length stored ≤ length messages)%nat
  ∧ length (retained keep_system keep_last_n messages)
    = (if keep_system
       then Nat.max (Z.to_nat keep_last_n) (count_system messages)
       else Z.to_nat keep_last_n).
Proof.
  cbv zeta. intros Hn. rewrite compact_session_messages by done.
  pose proof (compacted_length keep_system keep_last_n summarize
                (session_messages session)) as Hlen. cbv zeta in Hlen.
  split_and!; [done| |by apply retained_length].
  destruct (removed keep_system keep_last_n (session_messages session));
    [rewrite andb_false_r in Hlen|]; cbn [length] in *;
    destruct summarize; cbn in Hlen; lia.
Qed.

End CompactionPartition.

(** ** The token estimate *)

Section TokenEstimate.
Import Compaction CompactionSpec SessionSpec.
Variable repr_tool_calls : list ToolCall -> string.

Local Abbreviation cost := (token_cost repr_tool_calls).

Lemma sum_Z_cons x l : sum_Z (x :: l) = (x + sum_Z l)%Z.
Proof. reflexivity. Qed.

Lemma estimate_tokens_from (messages : list Message) :
  ∀ total,
    foldl (fun total msg =>
             let total :=
               (total + Z.of_nat (String.length (msg_content msg)) / 4)%Z in
             match msg_tool_calls msg with
             | Some (tc :: tcs) =>
                 (total
                  + Z.of_nat (String.length (repr_tool_calls (tc :: tcs))) / 4)%Z
             | _ => total
             end) total messages
    = (total + sum_Z (map cost messages))%Z.
Proof.
  induction messages as [|m rest IH]; intros total; cbn [foldl map].
  - unfold sum_Z. cbn. lia.
  - rewrite IH, sum_Z_cons. generalize (sum_Z (map cost rest)) as others.
    intros others. unfold token_cost.
    destruct (msg_tool_calls m) as [[|tc tcs]|]; lia.
Qed.

Lemma estimate_tokens_sum messages :
  estimate_tokens repr_tool_calls messages = sum_Z (map cost messages).
Proof. unfold estimate_tokens. by rewrite estimate_tokens_from. Qed.

Lemma cost_nonneg m : (0 ≤ cost m)%Z.
Proof.
  unfold token_cost.
  assert (H : ∀ n : nat, (0 ≤ Z.of_nat n / 4)%Z)
    by (intros n; apply Z.div_pos; lia).
  pose proof (H (String.length (msg_content m))).
  destruct (msg_tool_calls m) as [[|tc tcs]|]; [lia| |lia].
  pose proof (H (String.length (repr_tool_calls (tc :: tcs)))). lia.
Qed.

Lemma sum_Z_app a b : sum_Z (a ++ b) = (sum_Z a + sum_Z b)%Z.
Proof.
  induction a as [|x a IH]; [done|].
  rewrite <- app_comm_cons, !sum_Z_cons, IH. lia.
Qed.

Lemma sum_Z_perm a b : a ≡ₚ b → sum_Z a = sum_Z b.
Proof.
  induction 1 as [|x a b _ IH|x y a|a b c _ IH1 _ IH2];
    rewrite ?sum_Z_cons; lia.
Qed.

Lemma estimate_tokens_nonneg messages :
  (0 ≤ estimate_tokens repr_tool_calls messages)%Z.
Proof.
  rewrite estimate_tokens_sum.
  induction messages as [|m rest IH]; [done|].
  cbn [map]. rewrite sum_Z_cons. pose proof (cost_nonneg m). lia.
Qed.

(** X19: the token estimate is a sum over the messages, so it does not
    depend on their order; a compaction splits it between the messages
    kept and the messages removed, and without a summary the estimate of
    the compacted session is never larger than before. *)
Theorem compaction_splits_token_estimate now session keep_system keep_last_n :
  let messages := session_messages session in
  let estimate := estimate_tokens repr_tool_calls in
  (∀ a b, estimate (a ++ b) = (estimate a + estimate b)%Z)
  ∧ (∀ a b, a ≡ₚ b → estimate a = estimate b)
  ∧ estimate messages
    = (estimate (retained keep_system keep_last_n messages)
       + estimate (removed keep_system keep_last_n messages))%Z
  ∧ (estimate
       (session_messages
          (compact_session now session keep_system keep_last_n false))
     ≤ estimate messages)%Z.
Proof.
  cbv zeta.
  assert (Happ : ∀ a b,
            estimate_tokens repr_tool_calls (a ++ b)
            = (estimate_tokens repr_tool_calls a
               + estimate_tokens repr_tool_calls b)%Z).
  { intros a b. by rewrite !estimate_tokens_sum, map_app, sum_Z_app. }
  assert (Hperm : ∀ a b, a ≡ₚ b →
            estimate_tokens repr_tool_calls a
            = estimate_tokens repr_tool_calls b).
  { intros a b Hab. rewrite !estimate_tokens_sum.
    apply sum_Z_perm. by apply fmap_Permutation. }
  destruct (partition_messages_spec keep_system keep_last_n
              (session_messages session)) as (_ & _ & _ & _ & Hp).
  assert (Hsplit : estimate_tokens repr_tool_calls (session_messages session)
                   = (estimate_tokens repr_tool_calls
                        (retained keep_system keep_last_n
                           (session_messages session))
                      + estimate_tokens repr_tool_calls
                          (removed keep_system keep_last_n
                             (session_messages session)))%Z).
  { by rewrite <- Happ, (Hperm _ _ Hp). }
  split_and!; [done..|].
  unfold compact_session. destruct (_ <=? _)%Z; [lia|].
  cbn [session_messages]. rewrite compacted_messages_unfold. cbn [andb].
  pose proof (estimate_tokens_nonneg
                (removed keep_system keep_last_n (session_messages session))).
  lia.
Qed.

End TokenEstimate.

(** ** Adding a message *)

Section AddMessageFacts.
Import Compaction CompactionSpec SessionSpec AutoCompact.
Variable should_compact : Session -> bool.

Lemma keep_system_and_recent_last k l m :
  (is_system m = true ∨ 0 < k)%nat →
  keep_system_and_recent k (l ++ [m])
  = keep_system_and_recent (if is_system m then k else k - 1) l ++ [m].
Proof.
  intros Hm. induction l as [|x l IH]; cbn [app keep_system_and_recent].
  - destruct (is_system m) eqn:Hs; [done|].
    destruct Hm as [?|Hk]; [done|].
    change (count_non_system []) with O.
    by destruct (Nat.ltb_spec 0 k); [|lia].
  - rewrite IH.
    assert (Hc : count_non_system (l ++ [m])
                 = (count_non_system l + if is_system m then 0 else 1)%nat).
    { unfold count_non_system. rewrite filter_app, length_app. f_equal.
      destruct (is_system m) eqn:Hs.
      - rewrite filter_cons_False; [done|]. rewrite non_system_true.
        congruence.
      - rewrite filter_cons_True; [done|]. by rewrite non_system_true. }
    rewrite Hc. destruct (is_system x); [done|].
    destruct (is_system m) eqn:Hs.
    + rewrite Nat.add_0_r. by destruct (_ <? _)%nat.
    + destruct Hm as [?|Hk]; [done|].
      destruct (Nat.ltb_spec (count_non_system l + 1) k),
               (Nat.ltb_spec (count_non_system l) (k - 1)); (done || lia).
Qed.

Lemma last_list_insert_at {A : Type} (i : nat) (x : A) (l : list A) :
  (i < length l)%nat → last (list_insert_at i x l) = last l.
Proof.
  intros Hi. unfold list_insert_at.
  rewrite <- (take_drop i l) at 3.
  assert (Hd : drop i l ≠ []).
  { intros Hnil. apply (f_equal length) in Hnil.
    rewrite length_drop in Hnil. cbn in Hnil. lia. }
  destruct (drop i l) as [|y rest]; [done|].
  by rewrite !last_app_cons, !last_cons_cons.
Qed.

(** X20: [add_message] leaves the message it was given at the end of the
    history, whether or not it compacts, provided the message is a system
    message or the history had at most nine system messages before. *)
Theorem add_message_keeps_the_message_last now session message auto_compact :
  (is_system message = true
   ∨ count_system (session_messages session) ≤ 9)%nat →
  last (session_messages
          (add_message should_compact now session message auto_compact))
  = Some message.
Proof.
  intros Hm. unfold add_message. cbv zeta.
  destruct (auto_compact && should_compact _);
    [|cbn [session_messages]; by rewrite last_snoc].
  unfold compact_session. cbn [session_messages].
  destruct (Z.leb_spec (Z.of_nat (length (session_messages session ++ [message])))
              10) as [Hle|Hgt]; [cbn [session_messages]; by rewrite last_snoc|].
  cbn [session_messages]. rewrite compacted_messages_unfold.
  rewrite (retained_keep_system _ _ Hgt).
  set (k := Z.to_nat _).
  assert (Hcs : count_system (session_messages session ++ [message])
                = (count_system (session_messages session)
                   + if is_system message then 1 else 0)%nat).
  { unfold count_system. rewrite filter_app, length_app. f_equal.
    destruct (is_system message) eqn:Hs.
    - by rewrite filter_cons_True.
    - rewrite filter_cons_False; [done|]. congruence. }
  assert (Hk : (is_system message = true ∨ 0 < k)%nat).
  { destruct (is_system message) eqn:Hs; [by left|right].
    destruct Hm as [?|Hm]; [done|]. subst k. rewrite Hcs. lia. }
  rewrite (keep_system_and_recent_last k _ _ Hk).
  destruct (_ && _); [|by rewrite last_snoc].
  rewrite last_list_insert_at; [by rewrite last_snoc|].
  pose proof (retained_keep_system 10 (session_messages session ++ [message])
                Hgt) as Hret.
  fold k in Hret. rewrite (keep_system_and_recent_last k _ _ Hk) in Hret.
  rewrite <- Hret.
  assert (Hlen : length (retained true 10 (session_messages session ++ [message]))
                 = Nat.max (Z.to_nat 10)
                     (count_system (session_messages session ++ [message]))).
  { by apply (retained_length true). }
  rewrite Hlen.
  assert (insert_idx (retained true 10 (session_messages session ++ [message]))
          ≤ 1)%nat.
  { unfold insert_idx. destruct (retained _ _ _) as [|x ?]; [lia|].
    destruct (is_system x); lia. }
  lia.
Qed.

(** X21: once the history holds ten system messages, a compaction keeps
    nothing else: a message that is not a system message, added when the
    compaction is due, is not retained, and the stored history consists
    of system messages only (the ones there were, and the summary). *)
Theorem add_message_drops_the_message now session message :
  (10 ≤ count_system (session_messages session))%nat →
  is_system message = false →
  should_compact
    (mkSession (session_metadata session)
       (session_messages session ++ [message]) (session_context session))
  = true →
  let stored :=
    session_messages (add_message should_compact now session message true) in
  Forall (fun m => is_system m = true) stored
  ∧ length stored = S (count_system (session_messages session)).
Proof.
  intros Hten Hm Hshould. cbv zeta. unfold add_message. cbv zeta.
  rewrite Hshould. cbn [andb].
  pose proof (count_split (session_messages session)) as Hsplit.
  assert (Hgt : (10 < Z.of_nat (length (session_messages session ++ [message])))%Z)
    by (rewrite length_app; cbn; lia).
  rewrite compact_session_messages by done. cbn [session_messages].
  rewrite compacted_messages_unfold.
  destruct (partition_messages_spec true 10
              (session_messages session ++ [message]))
    as (Hd & Hr & Hk & Hs & Hp).
  set (kept := retained true 10 _) in *. set (dropped := removed true 10 _) in *.
  assert (Hrem : filter (fun m => removable true m = true)
                   (session_messages session ++ [message])
                 = filter (fun m => non_system m = true)
                     (session_messages session) ++ [message]).
  { rewrite filter_app. f_equal.
    - apply list_filter_iff. intros m. unfold removable, non_system.
      by rewrite andb_true_r.
    - rewrite filter_cons_True; [done|]. unfold removable. by rewrite Hm. }
  assert (Hnum : length (filter (fun m => removable true m = true)
                           (session_messages session ++ [message]))
                 = S (count_non_system (session_messages session))).
  { rewrite Hrem, length_app. unfold count_non_system. cbn. lia. }
  assert (Hall : dropped
                 = filter (fun m => removable true m = true)
                     (session_messages session ++ [message])).
  { rewrite Hd. apply take_ge. rewrite Hnum, length_app. cbn. lia. }
  assert (Hnone : filter (fun m => removable true m = true) kept = []).
  { rewrite Hr. apply drop_ge. rewrite Hnum, length_app. cbn. lia. }
  assert (Hsys : Forall (fun m => is_system m = true) kept).
  { apply Forall_forall. intros m Hin.
    destruct (is_system m) eqn:Hsm; [done|].
    assert (Hin' : m ∈ filter (fun m => removable true m = true) kept).
    { apply list_elem_of_filter. split; [|done].
      unfold removable. by rewrite Hsm. }
    rewrite Hnone in Hin'. by apply elem_of_nil in Hin'. }
  assert (Hdne : nonempty dropped = true).
  { rewrite Hall, Hrem. by destruct (filter _ (session_messages session)). }
  rewrite Hdne. cbn [andb].
  assert (Hklen : length kept = count_system (session_messages session)).
  { apply Permutation_length in Hp. rewrite length_app in Hp.
    rewrite Hall, Hnum, length_app in Hp. cbn in Hp. lia. }
  split.
  - unfold list_insert_at. apply Forall_app. split.
    + by apply Forall_take.
    + constructor; [done|by apply Forall_drop].
  - unfold list_insert_at. rewrite length_app. cbn [length].
    rewrite length_take, length_drop. lia.
Qed.

End AddMessageFacts.

(** ** Session store: saving, reading back, deleting *)

Section SessionStoreMore.
Import SessionManager.

(** X22: a session saved is the one read back, by [load] and by [get],
    with [updated_at] and [message_count] brought up to date and the rest
    as it was; [delete] then reports it deleted, and afterwards neither
    the file nor the cache holds it, so [get] finds nothing. *)
Theorem saved_session_round_trip (m : t) (disk : Disk) now session :
  let '(m1, disk1, path) := save m disk now session in
  let session_id := meta_id (session_metadata session) in
  let saved :=
    mkSession
      (mkSessionMetadata session_id
         (meta_created_at (session_metadata session)) now
         (meta_provider (session_metadata session))
         (meta_model (session_metadata session))
         (meta_title (session_metadata session))
         (Z.of_nat (length (session_messages session)))
         (meta_total_tokens (session_metadata session)))
      (session_messages session) (session_context session) in
  path = _get_session_path m session_id
  ∧ (load m1 disk1 session_id).2 = Some saved
  ∧ (get m1 disk1 session_id).2 = Some saved
  ∧ (get (init (storage_dir m) (max_tokens m)) disk1 session_id).2 = Some saved
  ∧ let '(m2, disk2, deleted) := delete m1 disk1 session_id in
    deleted = true
    ∧ disk2 !! path = None
    ∧ (get m2 disk2 session_id).2 = None.
Proof.
  unfold save. cbv zeta. cbn [meta_id session_metadata].
  set (session_id := meta_id (session_metadata session)).
  set (saved := mkSession _ _ _).
  set (m1 := with_sessions m _).
  assert (Hpath : ∀ c, _get_session_path (with_sessions m c) session_id
                       = _get_session_path m session_id) by done.
  assert (Hload : load m1 (<[_get_session_path m session_id := saved]> disk)
                    session_id
                  = (with_sessions m1 (<[session_id := saved]> (_sessions m1)),
                     Some saved)).
  { unfold load. subst m1. by rewrite Hpath, lookup_insert_eq. }
  split_and!.
  - done.
  - by rewrite Hload.
  - unfold get. subst m1. cbn [_sessions with_sessions].
    by rewrite lookup_insert_eq.
  - unfold get, init, load. cbn [_sessions].
    rewrite lookup_empty.
    change (_get_session_path (mk (storage_dir m) (max_tokens m) ∅) session_id)
      with (_get_session_path m session_id).
    by rewrite !lookup_insert_eq.
  - unfold delete. cbv zeta. subst m1. rewrite Hpath.
    cbn [_sessions with_sessions]. rewrite !lookup_insert_eq.
    split_and!; [done|by rewrite lookup_delete_eq|].
    unfold get. cbn [_sessions with_sessions].
    rewrite lookup_delete_eq.
    change (_get_session_path (mk (storage_dir m) (max_tokens m) _) session_id)
      with (_get_session_path m session_id).
    by rewrite lookup_delete_eq.
Qed.

End SessionStoreMore.

(** ** Workflow engine: the roles built from the steps *)

Section WorkflowRoles.
Import AsyncOrchestrator Workflow WorkflowSpec.
Context {World : Type}.
Variable str_lower : string -> string.
Variable providers : list (string * BaseProvider World).

Local Abbreviation find_provider :=
  (Workflow.find_provider str_lower providers).
Local Abbreviation build_roles_loop :=
  (Workflow.build_roles_loop str_lower providers).
Local Abbreviation _build_agent_roles :=
  (Workflow._build_agent_roles str_lower providers).

Lemma dict_get_set {V : Type} (d : list (string * V)) k v k' :
  dict_get (dict_set d k v) k'
  = if String.eqb k k' then Some v else dict_get d k'.
Proof.
  induction d as [|[k0 v0] d IH]; cbn [dict_set dict_get]; [done|].
  destruct (String.eqb_spec k0 k) as [->|Hne]; cbn [dict_get].
  - by destruct (String.eqb k k').
  - rewrite IH. destruct (String.eqb_spec k k') as [->|Hne'].
    + by destruct (String.eqb_spec k0 k').
    + done.
Qed.

Lemma dict_set_keys {V : Type} (d : list (string * V)) k v :
  NoDup d.*1 →
  NoDup (dict_set d k v).*1 ∧ d.*1 `prefix_of` (dict_set d k v).*1
  ∧ ∀ k', k' ∈ (dict_set d k v).*1 ↔ k' = k ∨ k' ∈ d.*1.
Proof.
  induction d as [|[k0 v0] d IH]; cbn [dict_set fmap list_fmap fst].
  - intros _. split_and!; [by apply NoDup_singleton|apply prefix_nil|].
    intros k'. rewrite list_elem_of_singleton, elem_of_nil. tauto.
  - intros [Hk0 Hd]%NoDup_cons.
    destruct (String.eqb_spec k0 k) as [->|Hne]; cbn [fmap list_fmap fst].
    + split_and!; [by apply NoDup_cons|done|].
      intros k'. rewrite elem_of_cons. tauto.
    + destruct (IH Hd) as (Hnd & Hpre & Hin).
      split_and!.
      * apply NoDup_cons. split; [|done]. rewrite Hin.
        intros [->|?]; [by apply Hne|by apply Hk0].
      * by apply prefix_cons.
      * intros k'. rewrite !elem_of_cons, Hin. tauto.
Qed.

Lemma build_roles_loop_get workflow name steps :
  ∀ i roles,
    dict_get (build_roles_loop workflow i steps roles) name
    = match last_step_named name i steps, find_provider name with
      | Some (j, step), Some provider =>
          Some (mkAgentRole name provider (step_role step)
                  (step_prompt_template step) (next_agent_of workflow j))
      | _, _ => dict_get roles name
      end.
Proof.
  induction steps as [|step rest IH]; intros i roles;
    cbn [build_roles_loop last_step_named].
  { by destruct (find_provider name). }
  destruct (Workflow.find_provider str_lower providers (step_agent step))
    as [provider|] eqn:Hp; rewrite IH.
  - destruct (last_step_named name (S i) rest) as [[j found]|].
    + destruct (find_provider name) eqn:Hn; [done|].
      rewrite dict_get_set.
      destruct (String.eqb_spec (step_agent step) name) as [Heq|]; [|done].
      congruence.
    + rewrite dict_get_set.
      destruct (String.eqb_spec (step_agent step) name) as [<-|].
      * by rewrite Hp.
      * by destruct (find_provider name).
  - destruct (last_step_named name (S i) rest) as [[j found]|]; [done|].
    destruct (String.eqb_spec (step_agent step) name) as [<-|];
      [by rewrite Hp|].
    by destruct (find_provider name).
Qed.

Lemma build_roles_loop_keys workflow steps :
  ∀ i roles,
    NoDup roles.*1 →
    NoDup (build_roles_loop workflow i steps roles).*1
    ∧ roles.*1 `prefix_of` (build_roles_loop workflow i steps roles).*1.
Proof.
  induction steps as [|step rest IH]; intros i roles Hnd;
    cbn [build_roles_loop]; [done|].
  destruct (Workflow.find_provider str_lower providers (step_agent step))
    as [provider|]; [|by apply IH].
  destruct (dict_set_keys roles (step_agent step)
              (mkAgentRole (step_agent step) provider (step_role step)
                 (step_prompt_template step) (next_agent_of workflow i)) Hnd)
    as (Hnd' & Hpre & _).
  destruct (IH (S i) _ Hnd') as [Hnd'' Hpre'].
  split; [done|by etrans].
Qed.

Lemma build_roles_loop_head workflow steps :
  ∀ i,
    head (build_roles_loop workflow i steps []).*1
    = step_agent
        <$> List.find (fun step =>
                         bool_decide (is_Some (find_provider (step_agent step))))
              steps.
Proof.
  induction steps as [|step rest IH]; intros i;
    cbn [build_roles_loop List.find]; [done|].
  destruct (Workflow.find_provider str_lower providers (step_agent step))
    as [provider|] eqn:Hp.
  - rewrite bool_decide_eq_true_2 by by eexists.
    destruct (build_roles_loop_keys workflow rest (S i)
                [(step_agent step,
                  mkAgentRole (step_agent step) provider (step_role step)
                    (step_prompt_template step) (next_agent_of workflow i))])
      as [_ [tail Htail]]; [by apply NoDup_singleton|].
    cbn [dict_set]. by rewrite Htail.
  - rewrite bool_decide_eq_false_2 by (by intros [? ?]). apply IH.
Qed.

Lemma str_contains_empty hay : str_contains "" hay = true.
Proof. by destruct hay. Qed.

(** X23: the roles [_build_agent_roles] returns, by name.  A name has a role
    exactly when some step names it and a provider is found for it; the
    role is then built from the last such step (its role, its template,
    the agent of the step after it as [next_agent], or the first step's
    agent for the last step of a continuous workflow) and carries the
    name as its own.  No name occurs twice, and the first role is the one
    of the first step that has a provider.  A step without an agent name
    is given the first provider, if there is any. *)
Theorem build_agent_roles_by_name workflow :
  let roles := _build_agent_roles workflow in
  (∀ name,
     dict_get roles name
     = match last_step_named name 0 (wf_steps workflow), find_provider name with
       | Some (j, step), Some provider =>
           Some (mkAgentRole name provider (step_role step)
                   (step_prompt_template step) (next_agent_of workflow j))
       | _, _ => None
       end)
  ∧ NoDup roles.*1
  ∧ head roles.*1
    = step_agent
        <$> List.find (fun step =>
                         bool_decide (is_Some (find_provider (step_agent step))))
              (wf_steps workflow)
  ∧ (str_lower "" = "" → providers ≠ [] → is_Some (find_provider "")).
Proof.
  cbv zeta. unfold Workflow._build_agent_roles. split_and!.
  - intros name. rewrite build_roles_loop_get.
    by destruct (last_step_named name 0 (wf_steps workflow)) as [[j step]|],
                (find_provider name).
  - apply build_roles_loop_keys. constructor.
  - apply build_roles_loop_head.
  - intros Hlow Hne. unfold Workflow.find_provider.
    destruct (dict_get providers "") as [p|]; [by eexists|].
    destruct providers as [|[pname p] rest]; [done|].
    cbn [List.find fst]. rewrite Hlow, str_contains_empty. by eexists.
Qed.

Lemma build_agent_roles_spec workflow name :
  is_Some (last_step_named name 0 (wf_steps workflow)) →
  is_Some (find_provider name) →
  is_Some (dict_get (_build_agent_roles workflow) name).
Proof.
  intros [[j step] Hs] [p Hp]. unfold Workflow._build_agent_roles.
  rewrite build_roles_loop_get, Hs, Hp. by eexists.
Qed.

End WorkflowRoles.

(** ** Workflow engine: stop conditions *)

Section StopConditions.
Import AsyncOrchestrator Workflow.
Variable str_lower : string -> string.

Local Abbreviation check := (Workflow.check str_lower).
Local Abbreviation check_stop := (Workflow.check_stop str_lower).



End StopConditions.

(** ** Workflow engine: sequential workflows *)

Section SequentialWorkflow.
Import AsyncOrchestrator Workflow WorkflowSpec.
Context {World : Type}.
Variable str_format : string -> gmap string PyValue -> Exception + string.
Variable str_lower : string -> string.
Variable providers : list (string * BaseProvider World).

Local Abbreviation find_provider :=
  (Workflow.find_provider str_lower providers).
Local Abbreviation _build_agent_roles :=
  (Workflow._build_agent_roles str_lower providers).

Lemma last_step_named_found name step rest i :
  step_agent step = name →
  is_Some (last_step_named name i (step :: rest)).
Proof.
  intros <-. cbn [last_step_named].
  destruct (last_step_named _ _ rest); [by eexists|].
  rewrite String.eqb_refl. by eexists.
Qed.

Lemma last_step_named_later name step rest i :
  is_Some (last_step_named name (S i) rest) →
  is_Some (last_step_named name i (step :: rest)).
Proof.
  intros [found Hf]. cbn [last_step_named]. rewrite Hf. by eexists.
Qed.

(** X25: a sequential workflow whose first two steps both have a
    provider does not survive a success of the first: the call
    [execute_workflow] makes, [execute_sequential] on the roles built
    from the steps and on the agents of the steps in order, raises when
    it builds the second prompt, after one provider call. *)
Theorem sequential_workflow_raises_after_first_success
    workflow first second rest w task context A prompt w' response :
  wf_steps workflow = first :: second :: rest →
  dict_get (_build_agent_roles workflow) (step_agent first) = Some A →
  is_Some (find_provider (step_agent second)) →
  format_call str_format (ar_prompt_template A)
    [("task", PStr task);
     ("previous_output",
      default (PStr "") (default ∅ context !! "previous_output"))]
    (default ∅ context) = inr prompt →
  complete (ar_provider A) w [plain_message "user" prompt]
  = (w', inr response) →
  ∃ e,
    execute_sequential str_format (_build_agent_roles workflow) w task
      (map step_agent (wf_steps workflow)) context
    = (w', [(step_agent first, prompt)], inl e).
Proof.
  intros Hsteps HA [p Hp] Hprompt Hcall. rewrite Hsteps. cbn [map].
  destruct (build_agent_roles_spec str_lower providers workflow
              (step_agent second)) as [B HB].
  { rewrite Hsteps. apply last_step_named_later, last_step_named_found. done. }
  { by eexists. }
  by apply (sequential_raises_after_success str_format _ w task
              (step_agent first) A (step_agent second) B
              (map step_agent rest) context prompt w' response).
Qed.

End SequentialWorkflow.

(** ** Claude provider: the system prompt that is sent *)

Section ClaudeSystem.
Import Compaction CompactionSpec ClaudeProvider.

Lemma last_cons_default {A : Type} (x : A) (l : list A) :
  last (x :: l) = Some (default x (last l)).
Proof.
  revert x. induction l as [|y l IH]; intros x; [done|].
  by rewrite last_cons_cons, !IH.
Qed.

Lemma convert_step_cases system out m :
  ∃ extra,
    convert_step (system, out) m
    = (if is_system m then msg_content m else system, out ++ extra)
    ∧ Forall (fun a => am_role a = "user" ∨ am_role a = "assistant") extra
    ∧ (length extra ≤ 1)%nat.
Proof.
  unfold convert_step, is_system.
  destruct (String.eqb (msg_role m) "system").
  { exists []. rewrite app_nil_r. split_and!; [done|constructor|cbn; lia]. }
  destruct (String.eqb (msg_role m) "user").
  { eexists [_]. split_and!; [done| |done]. constructor; [by left|done]. }
  destruct (String.eqb (msg_role m) "assistant").
  { eexists [_]. split_and!; [done| |done]. constructor; [by right|done]. }
  destruct (String.eqb (msg_role m) "tool").
  { eexists [_]. split_and!; [done| |done]. constructor; [by left|done]. }
  exists []. rewrite app_nil_r. split_and!; [done|constructor|cbn; lia].
Qed.

Lemma convert_from messages :
  ∀ system out,
    (foldl convert_step (system, out) messages).1
    = default system
        (msg_content <$> last (filter (fun m => is_system m = true) messages))
    ∧ ∃ added,
        (foldl convert_step (system, out) messages).2 = out ++ added
        ∧ Forall (fun a => am_role a = "user" ∨ am_role a = "assistant") added
        ∧ (length added ≤ length messages)%nat.
Proof.
  induction messages as [|m rest IH]; intros system out; cbn [foldl].
  { split; [done|]. exists []. by rewrite app_nil_r. }
  destruct (convert_step_cases system out m) as (extra & -> & Hex & Hlen).
  destruct (IH (if is_system m then msg_content m else system) (out ++ extra))
    as (Hs & added & Ho & Hf & Hl).
  split.
  - rewrite Hs. destruct (is_system m) eqn:Hsys.
    + rewrite filter_cons_True by done. rewrite last_cons_default.
      by destruct (last _).
    + by rewrite filter_cons_False by congruence.
  - exists (extra ++ added). rewrite Ho, <- app_assoc.
    split_and!; [done|by apply Forall_app|].
    rewrite length_app. cbn [length]. lia.
Qed.

(** X26: the system prompt the Claude provider sends is the content of
    the last system message of the history (empty if there is none), not
    of the first; the messages it sends have the roles user and assistant
    only, and are at most as many as the history has. *)
Theorem claude_sends_the_last_system_message messages :
  (_convert_messages messages).1
  = default ""
      (msg_content <$> last (filter (fun m => is_system m = true) messages))
  ∧ Forall (fun a => am_role a = "user" ∨ am_role a = "assistant")
      (_convert_messages messages).2
  ∧ (length (_convert_messages messages).2 ≤ length messages)%nat.
Proof.
  unfold _convert_messages.
  destruct (convert_from messages "" []) as (Hs & added & Ho & Hf & Hl).
  rewrite Ho. by split_and!.
Qed.

Lemma keep_system_and_recent_no_system k l :
  Forall (fun m => is_system m = false) l →
  Forall (fun m => is_system m = false) (keep_system_and_recent k l).
Proof.
  intros H. apply Forall_forall. intros m Hin.
  rewrite Forall_forall in H. apply H.
  eapply elem_of_sublist; [done|apply keep_system_and_recent_sublist].
Qed.

Lemma claude_system_of messages :
  (_convert_messages messages).1
  = default ""
      (msg_content <$> last (filter (fun m => is_system m = true) messages)).
Proof.
  unfold _convert_messages.
  by destruct (convert_from messages "" []) as (Hs & _).
Qed.

Lemma removed_nonempty_after_prompt prompt rest keep_last_n :
  is_system prompt = true →
  Forall (fun m => is_system m = false) rest →
  rest ≠ [] →
  (keep_last_n < Z.of_nat (length (prompt :: rest)))%Z →
  ∃ x l, removed true keep_last_n (prompt :: rest) = x :: l.
Proof.
  intros Hprompt Hrest Hne Hn.
  destruct (partition_messages_spec true keep_last_n (prompt :: rest))
    as (Hd & _). cbv zeta in Hd. rewrite Hd.
  rewrite filter_cons_False
    by (unfold SessionSpec.removable; rewrite Hprompt; cbn; congruence).
  destruct rest as [|m rest']; [done|].
  apply Forall_cons in Hrest as [Hm _].
  rewrite filter_cons_True
    by (unfold SessionSpec.removable; by rewrite Hm).
  destruct (Z.to_nat _) as [|b] eqn:Hb; [cbn [length] in *; lia|].
  cbn [take]. by eexists _, _.
Qed.

(** X27: a history that starts with the system prompt and holds no other
    system message, once compacted with a summary, makes the Claude
    provider send the summary as the system prompt: the summary message,
    inserted right after the prompt, is the last system message. *)
Theorem summary_replaces_system_prompt_for_claude
    now session prompt rest keep_last_n :
  session_messages session = prompt :: rest →
  is_system prompt = true →
  Forall (fun m => is_system m = false) rest →
  rest ≠ [] →
  (keep_last_n < Z.of_nat (length (prompt :: rest)))%Z →
  let compacted := compact_session now session true keep_last_n true in
  take 2 (session_messages compacted)
  = [prompt; summary_msg (removed true keep_last_n (prompt :: rest))]
  ∧ (_convert_messages (session_messages compacted)).1
    = msg_content (summary_msg (removed true keep_last_n (prompt :: rest))).
Proof.
  intros Hmsgs Hprompt Hrest Hne Hn. cbv zeta.
  rewrite compact_session_messages by (by rewrite Hmsgs).
  rewrite Hmsgs, compacted_messages_unfold.
  set (dropped := removed true keep_last_n (prompt :: rest)).
  assert (Hkept : ∃ kept_rest,
            retained true keep_last_n (prompt :: rest) = prompt :: kept_rest
            ∧ Forall (fun m => is_system m = false) kept_rest).
  { rewrite (retained_keep_system _ _ Hn). cbn [keep_system_and_recent].
    rewrite Hprompt. eexists. split; [done|].
    by apply keep_system_and_recent_no_system. }
  destruct Hkept as (kept_rest & Hkept & Hno).
  assert (Hdropped : nonempty dropped = true).
  { destruct (removed_nonempty_after_prompt prompt rest keep_last_n)
      as [x [l Hx]]; [done..|]. subst dropped. by rewrite Hx. }
  rewrite Hdropped, Hkept. cbn [andb insert_idx]. rewrite Hprompt.
  unfold list_insert_at. cbn [take drop app]. rewrite take_0, drop_0.
  cbn [app]. split; [done|].
  rewrite claude_system_of.
  rewrite filter_cons_True by done.
  rewrite filter_cons_True by done.
  assert (Hnone : filter (fun m => is_system m = true) kept_rest = []).
  { clear -Hno. induction Hno as [|x l Hx _ IH]; [done|].
    rewrite filter_cons_False by congruence. done. }
  by rewrite Hnone.
Qed.

End ClaudeSystem.

(** * Examples *)

Section Examples.
Import AsyncOrchestrator RoundRobin RunSpec CodingAgent TaskSpec Workflow.
Import Compaction CompactionSpec AutoCompact ClaudeProvider.

Lemma round_robin_result_witness :
  ∃ st wr,
    execute_round_robin simple_format demo_cycle tt "add tests"
      ["coder"; "reviewer"] 2 (Some demo_stop) = (st, inr wr)
    ∧ wr_final_output wr
      = default "add tests" (er_content <$> last (succeeded (wr_results wr)))
    ∧ length (wr_results wr)
      = (length (rr_calls st)
         + stop_failures (Some demo_stop) (wr_results wr))%nat
    ∧ length (rr_calls st) = 2%nat
    ∧ length (wr_results wr) = 3%nat.
Proof.
  eexists _, _. split; [reflexivity|].
  pose proof (round_robin_result simple_format demo_cycle tt "add tests"
                ["coder"; "reviewer"] 2 (Some demo_stop) _ _ eq_refl)
    as (_ & Hfinal & _ & _ & _ & _ & Hcalls & _).
  exact (conj Hfinal (conj Hcalls (conj eq_refl eq_refl))).
Defined.

(** A stop condition that raises leaves two results for one provider
    call; a time limit that expires during the first call leaves that
    call without a result. *)
Lemma continuous_results_and_calls_differ :
  let raising :=
    (Pipeline.execute_continuous simple_format demo_cycle 3 tt []
       "add tests" demo_stop 5 5).1 in
  let cancelled :=
    (Pipeline.execute_continuous simple_format demo_cycle 3 tt []
       "add tests" demo_stop 5 0).1 in
  length (cont_calls raising) = 1%nat
  ∧ map er_success (cont_results raising) = [true; false]
  ∧ length (cont_calls cancelled) = 1%nat
  ∧ cont_results cancelled = [].
Proof. vm_compute. by split_and!. Qed.

Lemma parallel_calls_every_known_agent_witness :
  ∃ w' calls wr,
    execute_parallel simple_format demo_agents [2; 0; 1; 3]%nat tt "add tests"
      ["coder"; "ghost"; "flaky"; "reviewer"] "combine"
    = (w', calls, Returned wr)
    ∧ calls.*1
      ≡ₚ filter (fun n => known demo_agents n = true)
           ["coder"; "ghost"; "flaky"; "reviewer"].
Proof.
  eexists _, _, _. split; [reflexivity|].
  exact (parallel_calls_every_known_agent simple_format demo_agents
           [2; 0; 1; 3]%nat tt "add tests"
           ["coder"; "ghost"; "flaky"; "reviewer"] "combine" _ _ _ eq_refl).
Defined.

Lemma parallel_merge_best_and_first_witness :
  ∃ w' calls wr,
    execute_parallel simple_format demo_agents [2; 0; 1; 3]%nat tt "add tests"
      ["coder"; "ghost"; "flaky"; "reviewer"] "first"
    = (w', calls, Returned wr)
    ∧ wr_success wr = existsb er_success (wr_results wr)
    ∧ wr_final_output wr
      = default "" (er_content <$> head (succeeded (wr_results wr))).
Proof.
  eexists _, _, _. split; [reflexivity|].
  pose proof (parallel_merge_best_and_first simple_format demo_agents
                [2; 0; 1; 3]%nat tt "add tests"
                ["coder"; "ghost"; "flaky"; "reviewer"] "first" _ _ _ eq_refl)
    as (Hs & _ & Hfirst).
  split; [exact Hs|]. apply Hfirst; discriminate.
Defined.

Lemma execute_success_means_handler_returned_witness :
  ∃ tool w0 ret,
    demo_tools !! "read_file" = Some tool
    ∧ tool_handler tool w0 [("path", "main.py")] = (tt, Returns ret)
    ∧ mkToolResult true "print('hello')" None = normalize ret
    ∧ w0 = tt.
Proof.
  exact (execute_success_means_handler_returned demo_tools tt "read_file"
           [("path", "main.py")] None tt
           (mkToolResult true "print('hello')" None) eq_refl eq_refl).
Defined.


Lemma stream_is_cut_at_finish_reason_witness :
  consume_stream (demo_chunks ++ [inl "connection reset"]) "" []
  = consume_stream demo_chunks "" [].
Proof.
  exact (stream_is_cut_at_finish_reason
           [inr (mkStreamChunk "Let me " [] None)]
           (inr (mkStreamChunk "look." [] (Some "stop")))
           [inl "connection reset"] [] eq_refl "" []).
Defined.

Lemma demo_agent_callback_returns : callback_returns demo_agent.
Proof. intros _ cb Hcb. discriminate Hcb. Qed.

Lemma demo_agent_provider_returns stream : provider_returns demo_agent stream.
Proof. intros w history. by destruct stream. Qed.

Lemma sync_tool_loop_follows_streaming_loop_witness :
  (_execute_tools demo_agent demo_calls demo_run).2 = None
  ∧ agree (_execute_tools demo_agent demo_calls demo_run).1
          (_execute_tools_sync demo_agent demo_calls demo_run).1
  ∧ raised (_execute_tools_sync demo_agent demo_calls demo_run).2 = None.
Proof.
  split; [reflexivity|].
  apply (sync_tool_loop_follows_streaming_loop demo_agent demo_calls demo_run).
  reflexivity.
Defined.

Lemma demo_tools_contained : RegistrySpec.contained demo_tools.
Proof.
  intros name tool w arguments w' e Htool. unfold demo_tools in Htool.
  apply lookup_insert_Some in Htool as [[_ <-]|[_ Htool]]; [done|].
  by apply lookup_singleton_Some in Htool as [_ <-].
Qed.

Lemma task_ends_without_exception_witness :
  (process_message demo_agent "fix the bug" false demo_run).2 = Finished.
Proof.
  exact (task_ends_without_exception demo_agent "fix the bug" demo_run
           demo_tools_contained demo_agent_callback_returns
           (demo_agent_provider_returns false)).
Defined.

Lemma plain_answer_completes_in_one_turn_witness :
  ∃ r' ys,
    process_message demo_plain_agent "hello" false demo_run = (r', Finished)
    ∧ last_response (state r') = Some "Sure: You are an expert.hello"
    ∧ str_join "" ys = "Sure: You are an expert.hello".
Proof.
  destruct (plain_answer_completes_in_one_turn demo_plain_agent "hello" false
              demo_run "Sure: You are an expert.hello" eq_refl eq_refl)
    as (r' & ys & Hrun & Hstate & _ & _ & Hys).
  exists r', ys. split; [exact Hrun|]. split; [by rewrite Hstate|exact Hys].
Defined.

Lemma compacted_history_length_witness :
  length (retained true 2 (session_messages demo_long_session)) = 2%nat
  ∧ (length (session_messages
               (compact_session "2025-01-01T10:02:00" demo_long_session
                  true 2 true))
     ≤ length (session_messages demo_long_session))%nat.
Proof.
  destruct (compacted_history_length "2025-01-01T10:02:00" demo_long_session
              true 2 true ltac:(vm_compute; first [reflexivity | lia])) as (_ & Hle & Hlen).
  split; [exact Hlen|exact Hle].
Defined.

Lemma add_message_keeps_the_message_last_witness :
  last (session_messages
          (add_message (fun _ => true) "2025-01-01T10:02:00" demo_long_session
             (demo_user "fourth") true))
  = Some (demo_user "fourth").
Proof.
  apply (add_message_keeps_the_message_last (fun _ => true)).
  right. vm_compute. lia.
Defined.

Lemma add_message_drops_the_message_witness :
  Forall (fun m => is_system m = true)
    (session_messages
       (add_message (fun _ => true) "2025-01-01T10:02:00" demo_crowded_session
          (demo_user "help") true))
  ∧ length
      (session_messages
         (add_message (fun _ => true) "2025-01-01T10:02:00"
            demo_crowded_session (demo_user "help") true))
    = 11%nat.
Proof.
  exact (add_message_drops_the_message (fun _ => true) "2025-01-01T10:02:00"
           demo_crowded_session (demo_user "help")
           ltac:(vm_compute; first [reflexivity | lia]) eq_refl eq_refl).
Defined.

Lemma sequential_workflow_raises_after_first_success_witness :
  ∃ e,
    execute_sequential simple_format
      (_build_agent_roles demo_lower demo_providers demo_workflow) tt
      "add tests" (map step_agent (wf_steps demo_workflow)) None
    = (tt, [("coder", "Implement: add tests")], inl e).
Proof.
  exact (sequential_workflow_raises_after_first_success simple_format
           demo_lower demo_providers demo_workflow
           (mkWorkflowStep "coder" "implement" "Implement: {task}" 300 false)
           (mkWorkflowStep "reviewer" "review" "Review: {task}" 300 false)
           [] tt "add tests" None
           (mkAgentRole "coder" (echo_provider "CODE for ") "implement"
              "Implement: {task}" (Some "reviewer"))
           "Implement: add tests" tt
           (mkCompletionResponse "CODE for Implement: add tests" [] "stop")
           eq_refl eq_refl ltac:(by eexists) eq_refl eq_refl).
Defined.

Lemma summary_replaces_system_prompt_for_claude_witness :
  (_convert_messages
     (session_messages
        (compact_session "2025-01-01T10:02:00" demo_long_session true 2 true))).1
  = msg_content
      (summary_msg (removed true 2 (session_messages demo_long_session))).
Proof.
  exact (proj2
           (summary_replaces_system_prompt_for_claude "2025-01-01T10:02:00"
              demo_long_session demo_system
              [demo_user "first"; demo_user "second"; demo_user "third"] 2
              eq_refl eq_refl
              ltac:(repeat constructor) ltac:(discriminate)
              ltac:(vm_compute; first [reflexivity | lia]))).
Defined.

End Examples.
